(** * Blog feed generator: extraction, crawl, dedup and sort

    A shallow embedding of [scripts/generate-rss.ts] (the multi-source
    generator) and of the older single-source script, followed by the
    properties its specification states about them.

    Conventions of the embedding.
    - A JavaScript string is the list of its UTF-16 code units ([jsstr]);
      [js "..."] turns an ASCII literal into one.
    - A [Date] is its time value, an integer number of milliseconds; the
      engine's date parser and the clock reading are inputs of [parseDate],
      and a run reads the clock anew at each call of [parseDate].
    - The engine's sort is a comparison sort the script is handed: it asks
      the comparator and arranges the elements.
    - A document loaded by cheerio is a tree of [Node]s; the parsers start
      from the loaded document.
    - A call that can throw returns a [Completion]. *)

From Stdlib Require Import ZArith NArith Lia Bool.
From Stdlib Require Import Strings.String Strings.Ascii.
From Stdlib Require Import Numbers.DecimalPos Numbers.DecimalN
  Numbers.DecimalString.
From stdpp Require Import base decidable countable gmap sets list sorting.

Open Scope Z_scope.

Set Warnings "-clear-no-such-hyp".

(** ** JavaScript strings *)

Module JS.

Abbreviation jsstr := (list N).

Definition js (s : string) : jsstr :=
  List.map N_of_ascii (list_ascii_of_string s).

(** [!s] for a string: the empty string is the only falsy one. *)
Definition falsy (s : jsstr) : bool :=
  match s with [] => true | _ :: _ => false end.

Definition truthy (s : jsstr) : bool := negb (falsy s).

(** [a || b] on strings. *)
Definition orElse (a b : jsstr) : jsstr := if falsy a then b else a.

Definition str_eqb (a b : jsstr) : bool := bool_decide (a = b).

(** The code units matched by [\s]; [trim] strips the same set
    (WhiteSpace and LineTerminator of ECMAScript). *)
Definition isWs (c : N) : bool :=
  ((9 <=? c) && (c <=? 13) || (c =? 32) || (c =? 160) || (c =? 5760)
   || (8192 <=? c) && (c <=? 8202) || (c =? 8232) || (c =? 8233)
   || (c =? 8239) || (c =? 8287) || (c =? 12288) || (c =? 65279))%N.

(** The code units [.] does not match. *)
Definition isLineTerminator (c : N) : bool :=
  ((c =? 10) || (c =? 13) || (c =? 8232) || (c =? 8233))%N.

Definition isDigit (c : N) : bool := ((48 <=? c) && (c <=? 57))%N.

(** [\w]: ASCII letters, digits and the underscore. *)
Definition isWord (c : N) : bool :=
  ((65 <=? c) && (c <=? 90) || (97 <=? c) && (c <=? 122)
   || isDigit c || (c =? 95))%N.

Definition SPACE : N := 32%N.
Definition NEWLINE : N := 10%N.
(** U+00B7, the middle dot used as a separator on the Cursor pages. *)
Definition MIDDOT : N := 183%N.

Fixpoint trimStart (s : jsstr) : jsstr :=
  match s with
  | [] => []
  | c :: r => if isWs c then trimStart r else s
  end.

Fixpoint trimEnd (s : jsstr) : jsstr :=
  match s with
  | [] => []
  | c :: r =>
      match trimEnd r with
      | [] => if isWs c then [] else [c]
      | r' => c :: r'
      end
  end.

Definition trim (s : jsstr) : jsstr := trimEnd (trimStart s).

(** [s.replace(/\s+/g, ' ')]: every maximal run of white space becomes one
    space. [inRun] tells that the previous code unit was white space. *)
Fixpoint replaceWsRuns (inRun : bool) (s : jsstr) : jsstr :=
  match s with
  | [] => []
  | c :: r =>
      if isWs c
      then (if inRun then replaceWsRuns true r
            else SPACE :: replaceWsRuns true r)
      else c :: replaceWsRuns false r
  end.

Definition normalizeText (text : jsstr) : jsstr :=
  trim (replaceWsRuns false text).

Fixpoint startsWith (s pre : jsstr) : bool :=
  match pre, s with
  | [], _ => true
  | p :: pre', c :: s' => (p =? c)%N && startsWith s' pre'
  | _ :: _, [] => false
  end.

Fixpoint includes (s sub : jsstr) : bool :=
  startsWith s sub ||
  match s with
  | [] => false
  | _ :: s' => includes s' sub
  end.

(** [s.split(sep)] for a one-unit separator; the empty string splits into
    one empty piece. *)
Fixpoint split (sep : N) (s : jsstr) : list jsstr :=
  match s with
  | [] => [[]]
  | c :: r =>
      if (c =? sep)%N then [] :: split sep r
      else match split sep r with
           | [] => [[c]]
           | l :: ls => (c :: l) :: ls
           end
  end.

(** [arr.join(' ')]. *)
Fixpoint join (sep : jsstr) (parts : list jsstr) : jsstr :=
  match parts with
  | [] => []
  | [p] => p
  | p :: ps => p ++ sep ++ join sep ps
  end.

(** [text.split('\n').map(l => l.trim()).filter(Boolean)] *)
Definition textLines (text : jsstr) : list jsstr :=
  List.filter truthy (List.map trim (split NEWLINE text)).

(** The decimal rendering of a page number inside a template literal. *)
Definition decimal (n : Z) : jsstr :=
  js (NilZero.string_of_uint (N.to_uint (Z.to_N n))).

(** A string is single-spaced and trimmed: its only white space is single
    spaces, each followed by a non-blank unit, and it does not start with
    one. *)
Fixpoint spacesSingle (s : jsstr) : bool :=
  match s with
  | [] => true
  | c :: r =>
      (negb (isWs c)
       || (c =? SPACE)%N && match r with
                            | [] => false
                            | d :: _ => negb (isWs d)
                            end)
      && spacesSingle r
  end.

Definition wsNormalized (s : jsstr) : bool :=
  match s with
  | [] => true
  | c :: _ => negb (isWs c) && spacesSingle s
  end.

End JS.
Import JS.

(** ** Regular expressions

    The patterns of the script that are only ever [test]ed are anchored at
    both ends, so [test] is membership of the whole line in the pattern's
    language; it is decided with derivatives. The two patterns the script
    uses for their position or groups are written out as functions below. *)

Module Regex.

Inductive regex : Type :=
| Never
| Eps
| Class (p : N -> bool)
| Seq (r1 r2 : regex)
| Alt (r1 r2 : regex)
| Star (r : regex).

Fixpoint nullable (r : regex) : bool :=
  match r with
  | Never => false
  | Eps => true
  | Class _ => false
  | Seq r1 r2 => nullable r1 && nullable r2
  | Alt r1 r2 => nullable r1 || nullable r2
  | Star _ => true
  end.

Fixpoint deriv (c : N) (r : regex) : regex :=
  match r with
  | Never => Never
  | Eps => Never
  | Class p => if p c then Eps else Never
  | Seq r1 r2 =>
      if nullable r1
      then Alt (Seq (deriv c r1) r2) (deriv c r2)
      else Seq (deriv c r1) r2
  | Alt r1 r2 => Alt (deriv c r1) (deriv c r2)
  | Star r1 => Seq (deriv c r1) (Star r1)
  end.

Fixpoint matches (r : regex) (s : jsstr) : bool :=
  match s with
  | [] => nullable r
  | c :: s' => matches (deriv c r) s'
  end.

(** The language of a pattern, for reference. *)
Inductive Lang : regex -> jsstr -> Prop :=
| LEps : Lang Eps []
| LClass p c : p c = true -> Lang (Class p) [c]
| LSeq r1 r2 s1 s2 : Lang r1 s1 -> Lang r2 s2 -> Lang (Seq r1 r2) (s1 ++ s2)
| LAltL r1 r2 s : Lang r1 s -> Lang (Alt r1 r2) s
| LAltR r1 r2 s : Lang r2 s -> Lang (Alt r1 r2) s
| LStarNil r : Lang (Star r) []
| LStarCons r c s1 s2 :
    Lang r (c :: s1) -> Lang (Star r) s2 -> Lang (Star r) (c :: s1 ++ s2).

Definition plus (r : regex) : regex := Seq r (Star r).
Definition opt (r : regex) : regex := Alt r Eps.
Definition chr (c : N) : regex := Class (N.eqb c).

(** Canonicalisation of the [i] flag, on the ASCII letters a pattern names:
    a code unit of 128 or more never folds onto an ASCII one. *)
Definition upper (c : N) : N :=
  if ((97 <=? c) && (c <=? 122))%N then (c - 32)%N else c.

Definition chrCI (c : N) : regex := Class (fun d => (upper d =? upper c)%N).

Definition wordCI (w : string) : regex :=
  List.fold_right (fun c r => Seq (chrCI c) r) Eps (js w).

Definition anyOfCI (ws : list string) : regex :=
  List.fold_right (fun w r => Alt (wordCI w) r) Never ws.

Definition longMonths : list string :=
  ["January"; "February"; "March"; "April"; "May"; "June"; "July";
   "August"; "September"; "October"; "November"; "December"]%string.

Definition shortMonths : list string :=
  ["Jan"; "Feb"; "Mar"; "Apr"; "May"; "Jun"; "Jul"; "Aug"; "Sep"; "Oct";
   "Nov"; "Dec"]%string.

Definition digit : regex := Class isDigit.
Definition ws : regex := Class isWs.

(** [\s+\d{1,2},?\s+\d{4}$], the part after the month name. *)
Definition dayYear : regex :=
  Seq (plus ws)
   (Seq digit (Seq (opt digit)
     (Seq (opt (chr 44))
       (Seq (plus ws)
         (Seq digit (Seq digit (Seq digit digit))))))).

(** [/^(January|...|December)\s+\d{1,2},?\s+\d{4}$/i] *)
Definition longDatePattern : regex := Seq (anyOfCI longMonths) dayYear.

(** [/^(Jan|...|Dec)\s+\d{1,2},?\s+\d{4}$/i] *)
Definition shortDatePattern : regex := Seq (anyOfCI shortMonths) dayYear.

(** [pattern.test(line)] for an anchored pattern. *)
Definition test (r : regex) (line : jsstr) : bool := matches r line.

(** The line classifier shared by the three heuristic parsers: either date
    pattern matches. *)
Definition isDateLine (line : jsstr) : bool :=
  test longDatePattern line || test shortDatePattern line.

(** [/\s*·\s*$/] tried at the start of [s]. White space and the dot are
    disjoint, so the greedy [\s*] leaves nothing to backtrack into. *)
Definition sepToEnd (s : jsstr) : bool :=
  match trimStart s with
  | c :: r => (c =? MIDDOT)%N && falsy (trimStart r)
  | [] => false
  end.

(** [s.replace(/\s*·\s*$/, '')]: the leftmost position where the pattern
    matches is cut off together with everything after it. *)
Fixpoint stripTrailingSep (s : jsstr) : jsstr :=
  if sepToEnd s then []
  else match s with
       | [] => []
       | c :: r => c :: stripTrailingSep r
       end.

Definition noLineTerminator (s : jsstr) : bool :=
  List.forallb (fun c => negb (isLineTerminator c)) s.

(** [\s*(.+)$] against [r], giving the text of the group. The greedy
    [\s*] first tries to take a blank unit, and gives it back to the group
    when the rest cannot match. *)
Fixpoint wsThenRest (r : jsstr) : option jsstr :=
  match r with
  | [] => None
  | c :: r' =>
      if isWs c
      then match wsThenRest r' with
           | Some g => Some g
           | None => if noLineTerminator r then Some r else None
           end
      else if noLineTerminator r then Some r else None
  end.

Fixpoint takeWord (s : jsstr) : jsstr * jsstr :=
  match s with
  | [] => ([], [])
  | c :: r =>
      if isWord c then let '(w, rest) := takeWord r in (c :: w, rest)
      else ([], s)
  end.

(** [metaLine.match(/^(\w+)\s*·\s*(.+)$/)]: the two groups, or [None]
    for [null]. *)
Definition metaMatch (metaLine : jsstr) : option (jsstr * jsstr) :=
  let '(w, rest) := takeWord metaLine in
  if falsy w then None
  else match trimStart rest with
       | c :: r =>
           if (c =? MIDDOT)%N
           then match wsThenRest r with
                | Some g => Some (w, g)
                | None => None
                end
           else None
       | [] => None
       end.

End Regex.
Import Regex.

(** ** The loaded document and the cheerio calls the parsers make *)

Module Cheerio.

(** An element or a text node of the tree [cheerio.load] builds. Attribute
    names are looked up as they are stored, as [attr] does. *)
#[warnings="-register-all"] Inductive Node : Type :=
| TextNode (data : jsstr)
| Element (name : jsstr) (attribs : list (jsstr * jsstr))
          (children : list Node).

(** The root of a loaded document: its top-level nodes. *)
Abbreviation Document := (list Node).

Fixpoint lookupAttr (attribs : list (jsstr * jsstr)) (name : jsstr)
  : option jsstr :=
  match attribs with
  | [] => None
  | (k, v) :: rest => if str_eqb k name then Some v else lookupAttr rest name
  end.

(** [$el.attr(name)]; [None] is [undefined]. *)
Definition attr (el : Node) (name : jsstr) : option jsstr :=
  match el with
  | TextNode _ => None
  | Element _ attribs _ => lookupAttr attribs name
  end.

(** The text content of a node: the text of its descendants, in order. *)
Fixpoint textContent (n : Node) : jsstr :=
  match n with
  | TextNode data => data
  | Element _ _ children => List.flat_map textContent children
  end.

(** [$sel.text()] on a selection. *)
Definition text (sel : list Node) : jsstr := List.flat_map textContent sel.

(** The proper descendants of a node, in document order. *)
Fixpoint descendants (n : Node) : list Node :=
  match n with
  | TextNode _ => []
  | Element _ _ children =>
      List.flat_map (fun c => c :: descendants c) children
  end.

Definition allNodes (doc : Document) : list Node :=
  List.flat_map (fun c => c :: descendants c) doc.

Definition hasName (tag : string) (n : Node) : bool :=
  match n with
  | TextNode _ => false
  | Element name _ _ => str_eqb name (js tag)
  end.

(** [a[href^="/blog/"]] *)
Definition isBlogAnchor (n : Node) : bool :=
  hasName "a" n &&
  match attr n (js "href") with
  | Some h => startsWith h (js "/blog/")
  | None => false
  end.

(** [a[href*="/blog/"]] *)
Definition isAnchorContainingBlog (n : Node) : bool :=
  hasName "a" n &&
  match attr n (js "href") with
  | Some h => includes h (js "/blog/")
  | None => false
  end.

(** The class tokens of an element: its [class] attribute split at white
    space. *)
Fixpoint tokens (cur : jsstr) (s : jsstr) : list jsstr :=
  match s with
  | [] => match cur with [] => [] | _ => [cur] end
  | c :: r =>
      if isWs c
      then match cur with [] => tokens [] r | _ => cur :: tokens [] r end
      else tokens (cur ++ [c]) r
  end.

Definition hasClass (cls : string) (n : Node) : bool :=
  match attr n (js "class") with
  | Some v => List.existsb (str_eqb (js cls)) (tokens [] v)
  | None => false
  end.

(** [$(sel)] for a simple selector [p]: the matching nodes of the document,
    in document order. *)
Definition select (p : Node -> bool) (doc : Document) : list Node :=
  List.filter p (allNodes doc).

(** [$('article ' + sel)]: the matching nodes that have an [article]
    ancestor. [inside] tells that such an ancestor has been passed. *)
Fixpoint selectWithin (p : Node -> bool) (inside : bool) (n : Node)
  : list Node :=
  (if inside && p n then [n] else []) ++
  match n with
  | TextNode _ => []
  | Element _ _ children =>
      List.flat_map (selectWithin p (inside || hasName "article" n)) children
  end.

Definition selectInArticle (p : Node -> bool) (doc : Document) : list Node :=
  List.flat_map (selectWithin p false) doc.

(** [$el.find(sel)] *)
Definition find (p : Node -> bool) (el : Node) : list Node :=
  List.filter p (descendants el).

(** [.first()] and [.eq(i)] keep at most one node. *)
Definition first (sel : list Node) : list Node := List.firstn 1 sel.
Definition eq (i : nat) (sel : list Node) : list Node :=
  List.firstn 1 (List.skipn i sel).

(** [$sel.attr(name)]: the attribute of the first node of the selection. *)
Definition selAttr (sel : list Node) (name : jsstr) : option jsstr :=
  match sel with
  | [] => None
  | n :: _ => attr n name
  end.

End Cheerio.
Import Cheerio.

(** ** Posts *)

Record BlogPost : Type := mkPost {
  title : jsstr;
  link : jsstr;
  description : jsstr;
  category : jsstr;
  date : jsstr;
  source : jsstr
}.

#[global] Instance BlogPost_eq_dec : EqDecision BlogPost.
Proof. solve_decision. Defined.

(** ** The date resolver *)

Section Dates.

(** [new Date(dateStr).getTime()] as the engine computes it: the time
    value, or [None] for the [NaN] of an invalid date. *)
Variable DateParse : jsstr -> option Z.

(** [parseDate(dateStr)], called while the clock reads [now]. *)
Definition parseDate (now : Z) (dateStr : jsstr) : Z :=
  match DateParse dateStr with
  | Some t => t
  | None => now
  end.

End Dates.

(** ** The Cursor parser: cards first, text splitting as a fallback *)

(** [addPost]: a record without a title or a link is dropped. *)
Definition addPost (posts : list BlogPost) (post : BlogPost)
  : list BlogPost :=
  if falsy (title post) || falsy (link post) then posts
  else posts ++ [post].

(** The guard both scans of the Cursor page start with, on an [href] that
    is present: empty, the listing itself, a topic filter or a page link. *)
Definition isNavigation (href : jsstr) : bool :=
  falsy href
  || str_eqb href (js "/blog")
  || startsWith href (js "/blog/topic")
  || startsWith href (js "/blog/page").

Definition isSpanCapitalize (n : Node) : bool :=
  hasName "span" n && hasClass "capitalize" n.

(** The callback of the first scan, run on one card anchor. *)
Definition cursorCard (siteUrl : jsstr) (posts : list BlogPost) (el : Node)
  : list BlogPost :=
  match attr el (js "href") with
  | None => posts
  | Some href =>
      if isNavigation href then posts
      else
        let title := normalizeText (text (first (find (hasName "p") el))) in
        let description :=
          normalizeText (text (eq 1 (find (hasName "p") el))) in
        let categoryText :=
          normalizeText (text (first (find isSpanCapitalize el))) in
        let category := orElse (stripTrailingSep categoryText) (js "post") in
        let timeEl := first (find (hasName "time") el) in
        let dateStr :=
          orElse (default [] (selAttr timeEl (js "dateTime")))
                 (normalizeText (text timeEl)) in
        addPost posts
          (mkPost title (siteUrl ++ href) description category dateStr
                  (js "Cursor"))
  end.

(** [lines.slice(1, -1)] *)
Definition sliceMiddle (lines : list jsstr) : list jsstr :=
  List.removelast (List.tl lines).

(** The callback of the fallback scan, run on one blog anchor. *)
Definition cursorFallback (siteUrl : jsstr) (posts : list BlogPost)
  (el : Node) : list BlogPost :=
  match attr el (js "href") with
  | None => posts
  | Some href =>
      if isNavigation href then posts
      else
        let lines := textLines (textContent el) in
        if (length lines <? 2)%nat then posts
        else
          let title := List.nth 0 lines [] in
          let description :=
            if (2 <? length lines)%nat
            then join (js " ") (sliceMiddle lines) else [] in
          let metaLine := List.nth (length lines - 1) lines [] in
          let m := metaMatch metaLine in
          let category :=
            orElse (match m with Some (g1, _) => g1 | None => [] end)
                   (js "post") in
          let dateStr := match m with Some (_, g2) => g2 | None => [] end in
          addPost posts
            (mkPost title (siteUrl ++ href) description category dateStr
                    (js "Cursor"))
  end.

Definition parseCursorBlog (doc : Document) (siteUrl : jsstr)
  : list BlogPost :=
  let posts :=
    List.fold_left (cursorCard siteUrl) (selectInArticle isBlogAnchor doc) []
  in
  if (length posts =? 0)%nat
  then List.fold_left (cursorFallback siteUrl) (select isBlogAnchor doc) posts
  else posts.

(** ** The heuristic parsers: Claude blog, Anthropic engineering and
    research *)

(** What the line loop of an anchor carries: title, date and category. *)
Record Fields : Type := mkFields {
  fTitle : jsstr;
  fDate : jsstr;
  fCategory : jsstr
}.

Definition claudeCategories : list jsstr :=
  [js "Agents"; js "Coding"; js "Enterprise AI"; js "Product announcements"].

Definition researchCategories : list jsstr :=
  [js "Interpretability"; js "Alignment"; js "Societal Impacts"; js "Policy";
   js "Economic Research"; js "Announcements"].

(** [list.includes(line)] *)
Definition inList (labels : list jsstr) (line : jsstr) : bool :=
  List.existsb (str_eqb line) labels.

(** One turn of the line loop of [parseClaudeBlog]. *)
Definition claudeLine (f : Fields) (line : jsstr) : Fields :=
  if isDateLine line then mkFields (fTitle f) line (fCategory f)
  else if falsy (fTitle f) && (10 <? length line)%nat
          && negb (includes line (js "Read more"))
  then mkFields line (fDate f) (fCategory f)
  else if inList claudeCategories line
  then mkFields (fTitle f) (fDate f) line
  else f.

(** One turn of the line loop of [parseAnthropicEngineering]. *)
Definition engineeringLine (f : Fields) (line : jsstr) : Fields :=
  if isDateLine line then mkFields (fTitle f) line (fCategory f)
  else if falsy (fTitle f) && (15 <? length line)%nat
  then mkFields line (fDate f) (fCategory f)
  else f.

(** One turn of the line loop of [parseAnthropicResearch]. *)
Definition researchLine (f : Fields) (line : jsstr) : Fields :=
  if isDateLine line then mkFields (fTitle f) line (fCategory f)
  else if inList researchCategories line
  then mkFields (fTitle f) (fDate f) line
  else if falsy (fTitle f) && (15 <? length line)%nat
  then mkFields line (fDate f) (fCategory f)
  else f.

(** The state of a scan: the posts so far and the links already seen. *)
Abbreviation Scan := (list BlogPost * gset jsstr)%type.

Definition fullUrlOf (siteUrl href : jsstr) : jsstr :=
  if startsWith href (js "http") then href else siteUrl ++ href.

(** The part the three callbacks share once the link is accepted: skip a
    link already seen, classify the lines, keep the post if it has a
    title. *)
Definition scanAnchor (lineStep : Fields -> jsstr -> Fields)
  (defaultCategory sourceName : jsstr) (fullUrl : jsstr) (st : Scan)
  (el : Node) : Scan :=
  let '(posts, seen) := st in
  if decide (fullUrl ∈ seen) then st
  else
    let lines := textLines (textContent el) in
    if (length lines =? 0)%nat then st
    else
      let f := List.fold_left lineStep lines
                 (mkFields [] [] defaultCategory) in
      if falsy (fTitle f) then st
      else (posts ++ [mkPost (normalizeText (fTitle f)) fullUrl []
                             (fCategory f) (fDate f) sourceName],
            {[fullUrl]} ∪ seen).

(** [$el.attr('href') || ''] *)
Definition hrefOrEmpty (el : Node) : jsstr := default [] (attr el (js "href")).

Definition claudeAnchor (siteUrl : jsstr) (st : Scan) (el : Node) : Scan :=
  let href := hrefOrEmpty el in
  if str_eqb href (js "/blog") || str_eqb href (js "/blog/")
     || negb (includes href (js "/blog/"))
  then st
  else scanAnchor claudeLine (js "Blog") (js "Claude Blog")
                  (fullUrlOf siteUrl href) st el.

Definition engineeringAnchor (siteUrl : jsstr) (st : Scan) (el : Node)
  : Scan :=
  let href := hrefOrEmpty el in
  if negb (includes href (js "/engineering/"))
     && negb (includes href (js "/news/"))
  then st
  else if str_eqb href (js "/engineering") || str_eqb href (js "/engineering/")
  then st
  else scanAnchor engineeringLine (js "Engineering")
                  (js "Anthropic Engineering") (fullUrlOf siteUrl href) st el.

Definition researchAnchor (siteUrl : jsstr) (st : Scan) (el : Node) : Scan :=
  let href := hrefOrEmpty el in
  if negb (includes href (js "/research/"))
     && negb (includes href (js "/news/"))
  then st
  else if str_eqb href (js "/research") || str_eqb href (js "/research/")
  then st
  else scanAnchor researchLine (js "Research") (js "Anthropic Research")
                  (fullUrlOf siteUrl href) st el.

Definition parseClaudeBlog (doc : Document) (siteUrl : jsstr)
  : list BlogPost :=
  fst (List.fold_left (claudeAnchor siteUrl)
         (select isAnchorContainingBlog doc) ([], ∅)).

Definition parseAnthropicEngineering (doc : Document) (siteUrl : jsstr)
  : list BlogPost :=
  fst (List.fold_left (engineeringAnchor siteUrl)
         (select (hasName "a") doc) ([], ∅)).

Definition parseAnthropicResearch (doc : Document) (siteUrl : jsstr)
  : list BlogPost :=
  fst (List.fold_left (researchAnchor siteUrl)
         (select (hasName "a") doc) ([], ∅)).

(** ** Crawlers *)

(** The outcome of a call that may throw. *)
Inductive Completion (A : Type) : Type :=
| Normal (v : A)
| Throw (e : jsstr).
Arguments Normal {A} v.
Arguments Throw {A} e.

#[global] Instance Completion_bind : MBind Completion :=
  fun A B k c =>
    match c with
    | Normal v => k v
    | Throw e => Throw e
    end.

(** How the body of the [try] block leaves an iteration. *)
Inductive Step : Type :=
| Break (allPosts : list BlogPost)
| NextPage (allPosts : list BlogPost).

(** What a crawl returns, with the URLs it passed to the fetch function,
    oldest first. *)
Record Crawl : Type := mkCrawl {
  crawled : list BlogPost;
  requested : list jsstr
}.

Definition maxPages : Z := 100.

Section Crawlers.

(** The injected fetch function and parser; either may throw. A crawl asks
    for a URL once, so what a stub answers during it is a function of the
    URL. *)
Variable fetchFn : jsstr -> Completion jsstr.
Variable parse : jsstr -> jsstr -> Completion (list BlogPost).
Variables baseUrl siteUrl : jsstr.

Definition pageUrl (page : Z) : jsstr :=
  if page =? 1 then baseUrl else baseUrl ++ js "/page/" ++ decimal page.

(** The text whose presence in a page announces the next one. *)
Definition nextPageRef (page : Z) : jsstr :=
  js "/blog/page/" ++ decimal (page + 1).

(** The body of the [try] block for one page. *)
Definition tryPage (page : Z) (allPosts : list BlogPost) : Completion Step :=
  html ← fetchFn (pageUrl page);
  posts ← parse html siteUrl;
  if (length posts =? 0)%nat then Normal (Break allPosts)
  else
    let allPosts := allPosts ++ posts in
    if negb (includes html (nextPageRef page)) then Normal (Break allPosts)
    else Normal (NextPage allPosts).

(** The [while (page <= maxPages)] loop. [None] when [fuel] iterations were
    not enough to leave it. *)
Fixpoint crawlFrom (fuel : nat) (page : Z) (allPosts : list BlogPost)
  (requested : list jsstr) : option Crawl :=
  match fuel with
  | O => None
  | S fuel' =>
      if page <=? maxPages
      then
        let requested := requested ++ [pageUrl page] in
        match tryPage page allPosts with
        | Normal (NextPage allPosts') =>
            crawlFrom fuel' (page + 1) allPosts' requested
        | Normal (Break allPosts') => Some (mkCrawl allPosts' requested)
        | Throw _ => Some (mkCrawl allPosts requested)
        end
      else Some (mkCrawl allPosts requested)
  end.

(** [fetchCursorPosts]: the paginated crawl, from page 1. *)
Definition fetchCursorPosts : option Crawl :=
  crawlFrom (S (Z.to_nat maxPages)) 1 [] [].

(** The three single-page crawlers share one body: fetch the listing once
    and parse it; a failure is logged and an empty list returned. *)
Definition fetchOnce : list BlogPost :=
  match html ← fetchFn baseUrl; parse html siteUrl with
  | Normal posts => posts
  | Throw _ => []
  end.

Definition fetchClaudePosts : list BlogPost := fetchOnce.
Definition fetchAnthropicEngineeringPosts : list BlogPost := fetchOnce.
Definition fetchAnthropicResearchPosts : list BlogPost := fetchOnce.

End Crawlers.

(** ** Deduplication *)

(** The [filter] of [dedupeByLink], with the set of links seen so far. *)
Fixpoint dedupeFrom (seen : gset jsstr) (posts : list BlogPost)
  : list BlogPost :=
  match posts with
  | [] => []
  | post :: rest =>
      if decide (link post ∈ seen) then dedupeFrom seen rest
      else post :: dedupeFrom ({[link post]} ∪ seen) rest
  end.

Definition dedupeByLink (posts : list BlogPost) : list BlogPost :=
  dedupeFrom ∅ posts.

(** The single-source script: the same loop on fixed URLs, then the same
    filter. Its page fetcher and page parser are taken as given. *)
Definition BLOG_URL : jsstr := js "https://cursor.com/blog".
Definition SITE_URL : jsstr := js "https://cursor.com".

Definition fetchAllPosts (fetchPage : jsstr -> Completion jsstr)
  (parseBlogPage : jsstr -> Completion (list BlogPost)) : option Crawl :=
  match fetchCursorPosts fetchPage (fun html _ => parseBlogPage html)
          BLOG_URL SITE_URL with
  | Some c => Some (mkCrawl (dedupeByLink (crawled c)) (requested c))
  | None => None
  end.

(** ** The aggregate feed: dedupe, then sort by date, newest first *)

(** [Array.prototype.sort(compareFn)] is the engine's. What the script
    meets is a comparison sort: it is asked about two elements, goes on
    according to the number it is given, and in the end hands back the
    arrangement. *)
Inductive Sorter (A : Type) : Type :=
| Arranged (out : list A)
| Ask (a b : A) (next : Z -> Sorter A).

Arguments Arranged {A} out.
Arguments Ask {A} a b next.

Section Sort.

Context {A : Type}.
Variable compareFn : A -> A -> Z.

(** What a sort arrives at when [compareFn] answers each call by itself. *)
Fixpoint answer (s : Sorter A) : list A :=
  match s with
  | Arranged out => out
  | Ask a b next => answer (next (compareFn a b))
  end.

(** The arrangement the language fixes for a consistent comparator: the
    stable sorted one. It is computed here by insertion, an element going
    before the first one it does not have to follow. *)
Fixpoint insertSorted (x : A) (sorted : list A) : list A :=
  match sorted with
  | [] => [x]
  | y :: rest =>
      if compareFn x y <=? 0 then x :: sorted else y :: insertSorted x rest
  end.

Definition sort (l : list A) : list A := List.fold_right insertSorted [] l.

End Sort.

Section Aggregate.

Variable DateParse : jsstr -> option Z.

(** The comparator of the aggregate feed. It resolves [b]'s date, then
    [a]'s; [nowB] and [nowA] are what the clock reads at the two calls. *)
Definition compareFn (nowB nowA : Z) (a b : BlogPost) : Z :=
  parseDate DateParse nowB (date b) - parseDate DateParse nowA (date a).

(** The clock of a run: [clock k] is what it reads at the call of
    [parseDate] that [k] calls have gone before. *)
Variable clock : nat -> Z.

(** The sort at work on the script's comparator, [k] calls of [parseDate]
    having gone before: each question costs two calls, each with the
    reading of its turn. The result comes with the number of calls made
    by then. *)
Fixpoint asked (s : Sorter BlogPost) (k : nat) : list BlogPost * nat :=
  match s with
  | Arranged out => (out, k)
  | Ask a b next =>
      asked (next (compareFn (clock k) (clock (S k)) a b)) (S (S k))
  end.

(** [sortedPosts], for the engine's sort [engine]. *)
Definition sortedPosts (engine : list BlogPost -> Sorter BlogPost)
  (allPosts : list BlogPost) (k : nat) : list BlogPost * nat :=
  asked (engine (dedupeByLink allPosts)) k.

(** The date a post is resolved to at the instant [now]. *)
Definition resolvedDate (now : Z) (post : BlogPost) : Z :=
  parseDate DateParse now (date post).

End Aggregate.

(** ** The single-source script

    The older script parses the Cursor listing with the same two scans; its
    posts have no source field and the site is a constant. *)

Module Legacy.

Record BlogPost : Type := mkPost {
  title : jsstr;
  link : jsstr;
  description : jsstr;
  category : jsstr;
  date : jsstr
}.

Definition addPost (posts : list BlogPost) (post : BlogPost)
  : list BlogPost :=
  if falsy (title post) || falsy (link post) then posts
  else posts ++ [post].

(** The callback of the scan of the articles. *)
Definition cardCallback (posts : list BlogPost) (el : Node)
  : list BlogPost :=
  match attr el (js "href") with
  | None => posts
  | Some href =>
      if falsy href
         || str_eqb href (js "/blog")
         || startsWith href (js "/blog/topic")
         || startsWith href (js "/blog/page")
      then posts
      else
        let title := normalizeText (text (first (find (hasName "p") el))) in
        let description :=
          normalizeText (text (eq 1 (find (hasName "p") el))) in
        let categoryText :=
          normalizeText (text (first (find isSpanCapitalize el))) in
        let category := orElse (stripTrailingSep categoryText) (js "post") in
        let timeEl := first (find (hasName "time") el) in
        let dateStr :=
          orElse (default [] (selAttr timeEl (js "dateTime")))
                 (normalizeText (text timeEl)) in
        addPost posts
          (mkPost title (SITE_URL ++ href) description category dateStr)
  end.

(** The callback of the old text parsing. *)
Definition fallbackCallback (posts : list BlogPost) (el : Node)
  : list BlogPost :=
  match attr el (js "href") with
  | None => posts
  | Some href =>
      if falsy href
         || str_eqb href (js "/blog")
         || startsWith href (js "/blog/topic")
         || startsWith href (js "/blog/page")
      then posts
      else
        let lines := textLines (textContent el) in
        if (length lines <? 2)%nat then posts
        else
          let title := List.nth 0 lines [] in
          let description :=
            if (2 <? length lines)%nat
            then join (js " ") (sliceMiddle lines) else [] in
          let metaLine := List.nth (length lines - 1) lines [] in
          let m := metaMatch metaLine in
          let category :=
            orElse (match m with Some (g1, _) => g1 | None => [] end)
                   (js "post") in
          let dateStr := match m with Some (_, g2) => g2 | None => [] end in
          addPost posts
            (mkPost title (SITE_URL ++ href) description category dateStr)
  end.

Definition parseBlogPage (doc : Document) : list BlogPost :=
  let posts :=
    List.fold_left cardCallback (selectInArticle isBlogAnchor doc) [] in
  if (length posts =? 0)%nat
  then List.fold_left fallbackCallback (select isBlogAnchor doc) posts
  else posts.

End Legacy.

(** ** The run: sources, collection and feeds *)

Module Main.

(** What is handed to [feed.addItem]. *)
Record Item : Type := mkItem {
  itemTitle : jsstr;
  itemId : jsstr;
  itemLink : jsstr;
  itemDescription : jsstr;
  itemCategory : list jsstr;
  itemDate : Z
}.

Section Items.

(** The engine's date parser, and what the clock reads when the item's
    date is resolved. *)
Variable DateParse : jsstr -> option Z.
Variable now : Z.

(** The item of a post in the feed of its source and in the legacy feed. *)
Definition sourceItem (post : BlogPost) : Item :=
  mkItem (title post) (link post) (link post) (description post)
         [category post] (parseDate DateParse now (date post)).

(** The item of a post in the aggregated feed. *)
Definition aggregatedItem (post : BlogPost) : Item :=
  mkItem (js "[" ++ source post ++ js "] " ++ title post) (link post)
         (link post) (description post)
         [category post; source post]
         (parseDate DateParse now (date post)).

End Items.

(** A configured source. [parse] works on the fetched text; [fetchAll] is
    handed the page fetcher, the listing URL, the site URL and the parser,
    and gives [None] if it does not return. *)
Record BlogSource : Type := mkSource {
  name : jsstr;
  slug : jsstr;
  url : jsstr;
  siteUrl : jsstr;
  description : jsstr;
  copyright : jsstr;
  parse : jsstr -> jsstr -> Completion (list BlogPost);
  fetchAll : (jsstr -> Completion jsstr) -> jsstr -> jsstr ->
             (jsstr -> jsstr -> Completion (list BlogPost)) ->
             option (list BlogPost)
}.

(** The paginated crawler as a [fetchAll]: what it returns, without the
    record of its requests. *)
Definition paginated (fetchFn : jsstr -> Completion jsstr)
  (baseUrl siteUrl : jsstr)
  (parse : jsstr -> jsstr -> Completion (list BlogPost))
  : option (list BlogPost) :=
  crawled <$> fetchCursorPosts fetchFn parse baseUrl siteUrl.

Definition singlePage (fetchFn : jsstr -> Completion jsstr)
  (baseUrl siteUrl : jsstr)
  (parse : jsstr -> jsstr -> Completion (list BlogPost))
  : option (list BlogPost) :=
  Some (fetchOnce fetchFn parse baseUrl siteUrl).

Section Run.

(** [cheerio.load], the engine's date parser and sort, the clock of the
    run as [parseDate] reads it call after call, and the year the run falls
    in. *)
Variable load : jsstr -> Document.
Variable DateParse : jsstr -> option Z.
Variable engine : list BlogPost -> Sorter BlogPost.
Variable clock : nat -> Z.
Variable year : Z.

(** [`© ${new Date().getFullYear()} ` + holder] *)
Definition copyrightOf (holder : string) : jsstr :=
  [169%N] ++ js " " ++ decimal year ++ js " " ++ js holder.

Definition blogSources : list BlogSource :=
  [mkSource (js "Cursor Blog") (js "cursor") (js "https://cursor.com/blog")
     (js "https://cursor.com")
     (js "The latest updates from the Cursor team")
     (copyrightOf "Anysphere, Inc.")
     (fun html siteUrl => Normal (parseCursorBlog (load html) siteUrl))
     paginated;
   mkSource (js "Claude Blog") (js "claude") (js "https://claude.com/blog")
     (js "https://claude.com")
     (js "Product news and best practices for teams building with Claude")
     (copyrightOf "Anthropic PBC")
     (fun html siteUrl => Normal (parseClaudeBlog (load html) siteUrl))
     singlePage;
   mkSource (js "Anthropic Engineering") (js "anthropic-engineering")
     (js "https://www.anthropic.com/engineering")
     (js "https://www.anthropic.com")
     (js "Inside the team building reliable AI systems at Anthropic")
     (copyrightOf "Anthropic PBC")
     (fun html siteUrl =>
        Normal (parseAnthropicEngineering (load html) siteUrl))
     singlePage;
   mkSource (js "Anthropic Research") (js "anthropic-research")
     (js "https://www.anthropic.com/research")
     (js "https://www.anthropic.com")
     (js "Research on AI safety, interpretability, and societal impacts")
     (copyrightOf "Anthropic PBC")
     (fun html siteUrl => Normal (parseAnthropicResearch (load html) siteUrl))
     singlePage].

(** What the first loop of [main] has built: the posts of each slug and the
    posts of all sources, in source order. *)
Record Collected : Type := mkCollected {
  postsBySource : gmap jsstr (list BlogPost);
  allPosts : list BlogPost
}.

(** One turn of the first loop of [main]. *)
Definition collectSource (fetchPage : jsstr -> Completion jsstr)
  (acc : Collected) (source : BlogSource) : option Collected :=
  posts ← fetchAll source fetchPage (url source) (siteUrl source)
            (parse source);
  let dedupedPosts := dedupeByLink posts in
  Some (mkCollected (<[slug source := dedupedPosts]> (postsBySource acc))
                    (allPosts acc ++ dedupedPosts)).

Fixpoint collect (fetchPage : jsstr -> Completion jsstr)
  (sources : list BlogSource) (acc : Collected) : option Collected :=
  match sources with
  | [] => Some acc
  | source :: rest =>
      acc' ← collectSource fetchPage acc source;
      collect fetchPage rest acc'
  end.

(** [postsBySource.get(slug) || []] *)
Definition postsOfSlug (c : Collected) (s : jsstr) : list BlogPost :=
  default [] (postsBySource c !! s).

(** The feeds [main] writes: one per source, the legacy feed of the Cursor
    blog and the aggregated feed. *)
Record Feeds : Type := mkFeeds {
  sourceFeeds : list (jsstr * list Item);
  legacyFeed : list Item;
  aggregatedFeed : list Item
}.

(** A loop of [feed.addItem] over [posts], [k] calls of [parseDate] having
    gone before: each item resolves its date at the reading of its turn.
    [item now post] is the item of [post] made while the clock reads
    [now]. *)
Fixpoint itemsFrom (item : Z -> BlogPost -> Item) (posts : list BlogPost)
  (k : nat) : list Item * nat :=
  match posts with
  | [] => ([], k)
  | post :: rest =>
      let '(items, k') := itemsFrom item rest (S k) in
      (item (clock k) post :: items, k')
  end.

(** The loop over the sources that builds one feed each. *)
Fixpoint sourceFeedsFrom (sources : list BlogSource) (c : Collected)
  (k : nat) : list (jsstr * list Item) * nat :=
  match sources with
  | [] => ([], k)
  | source :: rest =>
      let '(items, k1) :=
        itemsFrom (sourceItem DateParse) (postsOfSlug c (slug source)) k in
      let '(feeds, k2) := sourceFeedsFrom rest c k1 in
      ((slug source, items) :: feeds, k2)
  end.

(** The second half of [main]: the feeds of the sources, the legacy feed,
    the sort and the aggregated feed, in this order. *)
Definition feedsOf (sources : list BlogSource) (c : Collected) : Feeds :=
  let '(feeds, k1) := sourceFeedsFrom sources c 0 in
  let '(legacy, k2) :=
    itemsFrom (sourceItem DateParse) (postsOfSlug c (js "cursor")) k1 in
  let '(sorted, k3) := sortedPosts DateParse clock engine (allPosts c) k2 in
  let '(aggregated, _) := itemsFrom (aggregatedItem DateParse) sorted k3 in
  mkFeeds feeds legacy aggregated.

Definition main (fetchPage : jsstr -> Completion jsstr) : option Feeds :=
  c ← collect fetchPage blogSources (mkCollected ∅ []);
  Some (feedsOf blogSources c).

End Run.

End Main.

(** * Vocabulary of the properties *)

(** ** Deduplication *)

(** Following the specification's words: the post at position [i] when no
    earlier post carries its link, nothing otherwise. *)
Definition firstAt (posts : list BlogPost) (i : nat) : list BlogPost :=
  match posts !! i with
  | Some p =>
      if List.existsb (fun q => str_eqb (link q) (link p)) (take i posts)
      then [] else [p]
  | None => []
  end.

(** Following the specification's words: the subsequence of first
    occurrences per link. *)
Definition firstOccurrences (posts : list BlogPost) : list BlogPost :=
  List.flat_map (firstAt posts) (seq 0 (length posts)).

(** ** Sorting *)

(** The comparator that orders by [key], largest first. *)
Definition byKey {A : Type} (key : A -> Z) (a b : A) : Z := key b - key a.

(** [P] holds of whatever a sort hands back, whatever it is answered. *)
Fixpoint everyOutcome {A : Type} (P : list A -> Prop) (s : Sorter A) : Prop :=
  match s with
  | Arranged out => P out
  | Ask _ _ next => ∀ order, everyOutcome P (next order)
  end.

(** What the language asks of an engine's sort: it hands back the elements
    it was given, whatever the comparator answers; for a comparator that
    orders by a key it hands them back in order, largest key first; and
    elements of one key keep the order they came in. *)
Record SortsAsSpecified {A : Type} (engine : list A -> Sorter A) : Prop :=
  mkSortsAsSpecified {
    engine_rearranges :
      ∀ l, everyOutcome (fun out => out ≡ₚ l) (engine l);
    engine_sorts :
      ∀ (key : A -> Z) l,
        Sorted (fun a b => key a >= key b) (answer (byKey key) (engine l));
    engine_stable :
      ∀ (key : A -> Z) l t,
        filter (fun a => key a = t) (answer (byKey key) (engine l))
        = filter (fun a => key a = t) l
  }.

(** ** Crawling *)

Section CrawlVocabulary.

Variable fetchFn : jsstr -> Completion jsstr.
Variable parse : jsstr -> jsstr -> Completion (list BlogPost).
Variables baseUrl siteUrl : jsstr.

(** Page [page] is fetched and parsed to the non-empty list [posts], and
    its text announces the next page. *)
Definition pageContinues (page : Z) (posts : list BlogPost) : Prop :=
  ∃ html, fetchFn (pageUrl baseUrl page) = Normal html
          ∧ parse html siteUrl = Normal posts
          ∧ posts ≠ []
          ∧ includes html (nextPageRef page) = true.

(** The pages from [start] on continue with the posts listed in [pages]. *)
Definition pagesContinue (start : Z) (pages : list (list BlogPost)) : Prop :=
  ∀ (i : nat) posts, pages !! i = Some posts ->
                     pageContinues (start + Z.of_nat i) posts.

(** The URLs of [n] consecutive pages from [start] on. *)
Definition pageUrls (start : Z) (n : nat) : list jsstr :=
  (fun i : nat => pageUrl baseUrl (start + Z.of_nat i)) <$> seq 0 n.

End CrawlVocabulary.

(** ** White space *)

(** Every blank unit is a single space that no blank unit follows. *)
Fixpoint collapsed (s : jsstr) : bool :=
  match s with
  | [] => true
  | c :: r =>
      (negb (isWs c)
       || (c =? SPACE)%N && match r with
                            | [] => true
                            | d :: _ => negb (isWs d)
                            end)
      && collapsed r
  end.

Definition headNotWs (s : jsstr) : bool :=
  match s with
  | [] => true
  | c :: _ => negb (isWs c)
  end.

(** Neither end of the string is blank. *)
Definition wsTrimmed (s : jsstr) : bool := headNotWs s && headNotWs (rev s).

(** The string has a unit that is not white space. *)
Definition hasInk (s : jsstr) : bool :=
  List.existsb (fun c => negb (isWs c)) s.

(** ** Posts a scan adds *)

(** What the card scan guarantees of a post it adds. *)
Definition cardPost (siteUrl : jsstr) (p : BlogPost) : Prop :=
  truthy (title p) = true ∧ truthy (link p) = true
  ∧ wsNormalized (title p) = true
  ∧ ∃ href, link p = siteUrl ++ href ∧ isNavigation href = false.

(** What the fallback scan guarantees of a post it adds. *)
Definition fallbackPost (siteUrl : jsstr) (p : BlogPost) : Prop :=
  truthy (title p) = true ∧ truthy (link p) = true
  ∧ wsTrimmed (title p) = true
  ∧ ∃ href, link p = siteUrl ++ href ∧ isNavigation href = false.

(** What a line-classifying scan guarantees of the post it adds for the
    link [fullUrl]. *)
Definition scannedPost (fullUrl : jsstr) (p : BlogPost) : Prop :=
  truthy (title p) = true ∧ wsNormalized (title p) = true ∧ link p = fullUrl.

(** What any heuristic parser guarantees of its posts. *)
Definition heuristicPost (p : BlogPost) : Prop :=
  truthy (title p) = true ∧ truthy (link p) = true
  ∧ wsNormalized (title p) = true.

(** A line loop never invents a title: it keeps the one it has or takes the
    line at hand. *)
Definition keepsOrTakes (lineStep : Fields -> jsstr -> Fields) : Prop :=
  ∀ f line, fTitle (lineStep f line) = fTitle f
            ∨ fTitle (lineStep f line) = line.

(** An anchor is one of the two navigation links: the second listing page
    or a topic filter. *)
Definition isNavAnchor (el : Node) : bool :=
  match attr el (js "href") with
  | Some href =>
      str_eqb href (js "/blog/page/2") || str_eqb href (js "/blog/topic/ai")
  | None => false
  end.

(** ** Line classification *)






(** * Concrete inputs used in examples *)

Definition elem (name : string) (attribs : list (jsstr * jsstr))
  (children : list Node) : Node :=
  Element (js name) attribs children.

(** The attribute names of an element hold no capital letter: so it is in
    every tree [cheerio.load] builds from HTML, whose parser puts the names
    in lower case. *)
Definition lowerCaseNames (attribs : list (jsstr * jsstr)) : bool :=
  List.forallb
    (fun kv : jsstr * jsstr =>
       List.forallb (fun c => negb ((65 <=? c) && (c <=? 90))%N) kv.1)
    attribs.

(** The anchor of the card scenario as [cheerio.load] builds it. The time
    element shows [timeText]; its date attribute, whether the page spells
    it [datetime] or [dateTime], is stored under [datetime]. *)
Definition cardAnchor (timeText : jsstr) : Node :=
  elem "a" [(js "href", js "/blog/example")]
    [elem "p" [] [TextNode (js "Example Title")];
     elem "p" [] [TextNode (js "Example description")];
     elem "span" [(js "class", js "capitalize")]
       [TextNode (js "News " ++ [MIDDOT] ++ js " ")];
     elem "time" [(js "datetime", js "2025-11-13")] [TextNode timeText]].

(** A loaded document with one article in its body, around [anchor]. *)
Definition cardDocument (anchor : Node) : Document :=
  [elem "html" []
     [elem "head" [] [];
      elem "body" [] [elem "article" [] [anchor]]]].

Definition cardScenario (timeText : jsstr) : Document :=
  cardDocument (cardAnchor timeText).

(** A page without articles; its anchor has two spaces inside its first
    line. *)
Definition fallbackDoc : Document :=
  [elem "a" [(js "href", js "/blog/x")]
     [TextNode (js "A  B" ++ [NEWLINE] ++ js "News " ++ [MIDDOT]
                ++ js " Nov 1, 2025")]].

(** A pagination link among the cards of a Cursor page. *)
Definition olderPostsAnchor : Node :=
  elem "a" [(js "href", js "/blog/page/2")]
    [elem "p" [] [TextNode (js "Older posts")]].

(** A page of the Claude blog whose only anchor is a pagination link. *)
Definition claudeNavDoc : Document :=
  [elem "a" [(js "href", js "/blog/page/2")]
     [TextNode (js "Next page of results")]].






(** A fetch stub: the pages of [table], a failure for any other URL. *)
Fixpoint stubFetch (table : list (jsstr * jsstr)) (url : jsstr)
  : Completion jsstr :=
  match table with
  | [] => Throw (js "Failed to fetch")
  | (u, html) :: rest =>
      if str_eqb u url then Normal html else stubFetch rest url
  end.

Definition stubPost (siteUrl name : jsstr) : BlogPost :=
  mkPost name (siteUrl ++ js "/blog/" ++ name) [] (js "post") []
         (js "Cursor").

(** A parser stub: one post named after the page, none for the page
    [empty]. *)
Definition stubParse (html siteUrl : jsstr) : Completion (list BlogPost) :=
  Normal (if str_eqb html (js "empty") then [] else [stubPost siteUrl html]).

Definition stubListing : jsstr := js "https://cursor.com/blog".
Definition stubSite : jsstr := js "https://cursor.com".

(** Four pages, each of the first three announcing the next. *)
Definition linkedPages : list (jsstr * jsstr) :=
  [(stubListing, js "one /blog/page/2");
   (stubListing ++ js "/page/2", js "two /blog/page/3");
   (stubListing ++ js "/page/3", js "three /blog/page/4");
   (stubListing ++ js "/page/4", js "empty")].

(** Four pages that do not mention each other. *)
Definition unlinkedPages : list (jsstr * jsstr) :=
  [(stubListing, js "one");
   (stubListing ++ js "/page/2", js "two");
   (stubListing ++ js "/page/3", js "three");
   (stubListing ++ js "/page/4", js "empty")].

(** Two pages, after which every fetch fails. *)
Definition twoPagesThenFailure : list (jsstr * jsstr) :=
  [(stubListing, js "one /blog/page/2");
   (stubListing ++ js "/page/2", js "two /blog/page/3")].

(** A date parser that knows one calendar date, midnight UTC of
    13 November 2025. *)
Definition stubDateParse (s : jsstr) : option Z :=
  if str_eqb s (js "2025-11-13") then Some 1762992000000 else None.

(** A loader that reads every page as the document [fallbackDoc], and a
    fetcher that answers every request with the same text. *)
Definition stubLoad (html : jsstr) : Document := fallbackDoc.
Definition stubFetchPage (url : jsstr) : Completion jsstr :=
  Normal (js "page").

(** An engine that sorts by insertion, from the last element to the first:
    the element at hand goes in front of the first placed element it does
    not have to follow. The placed element, the later one of the input, is
    the first argument of each call, the order in which Node's engine
    passes two neighbours. *)
Fixpoint placeBefore {A : Type} (x : A) (placed : list A)
  (next : list A -> Sorter A) : Sorter A :=
  match placed with
  | [] => next [x]
  | y :: rest =>
      Ask y x (fun order =>
        if order <? 0 then placeBefore x rest (fun out => next (y :: out))
        else next (x :: placed))
  end.

Fixpoint insertionFrom {A : Type} (l : list A) (next : list A -> Sorter A)
  : Sorter A :=
  match l with
  | [] => next []
  | x :: rest => insertionFrom rest (fun placed => placeBefore x placed next)
  end.

Definition insertionEngine {A : Type} (l : list A) : Sorter A :=
  insertionFrom l Arranged.

(** A clock that shows the same instant at every call. *)
Definition stoppedClock (now : Z) (k : nat) : Z := now.

(** A clock that advances by a millisecond from one call to the next. *)
Definition tickingClock (k : nat) : Z := 1762992000000 + Z.of_nat k.

(** Two posts without a date. *)
Definition undatedFirst : BlogPost :=
  mkPost (js "First") (js "https://cursor.com/blog/first") [] (js "post") []
         (js "Cursor").

Definition undatedSecond : BlogPost :=
  mkPost (js "Second") (js "https://cursor.com/blog/second") [] (js "post") []
         (js "Cursor").

(** * Vocabulary of the further properties *)

(** The units of a string that are not white space, in order. *)
Definition ink (s : jsstr) : jsstr := List.filter (fun c => negb (isWs c)) s.

(** The posts the parser gives for the page at [url]; none when the fetch
    or the parser throws. *)
Definition postsOf (fetchFn : jsstr -> Completion jsstr)
  (parse : jsstr -> jsstr -> Completion (list BlogPost))
  (siteUrl url : jsstr) : list BlogPost :=
  match html ← fetchFn url; parse html siteUrl with
  | Normal posts => posts
  | Throw _ => []
  end.

(** Induction on a node, with the property known of its children. *)
Fixpoint Node_children_ind (P : Node -> Prop)
  (Htext : ∀ data, P (TextNode data))
  (Helem : ∀ name attribs children,
     Forall P children -> P (Element name attribs children))
  (n : Node) : P n :=
  match n with
  | TextNode data => Htext data
  | Element name attribs children =>
      Helem name attribs children
        ((fix all (l : list Node) : Forall P l :=
            match l return Forall P l with
            | [] => List.Forall_nil P
            | c :: r =>
                @List.Forall_cons Node P c r
                  (Node_children_ind P Htext Helem c) (all r)
            end) children)
  end.

(** What both scans of the Cursor parser guarantee of a post. *)
Definition cursorPost (siteUrl : jsstr) (p : BlogPost) : Prop :=
  (∃ href, link p = siteUrl ++ href
           ∧ startsWith href (js "/blog/") = true
           ∧ href ≠ js "/blog"
           ∧ startsWith href (js "/blog/topic") = false
           ∧ startsWith href (js "/blog/page") = false)
  ∧ title p ≠ [] ∧ category p ≠ [] ∧ source p = js "Cursor".

(** The fields of a line loop are in range: the date is empty or a date
    line, the category is the default or one of the labels. *)
Definition fieldsInRange (labels : list jsstr) (fallback : jsstr)
  (f : Fields) : Prop :=
  (fDate f = [] ∨ isDateLine (fDate f) = true)
  ∧ (fCategory f = fallback ∨ inList labels (fCategory f) = true).

(** What a heuristic parser guarantees of the fields of a post. *)
Definition heuristicFields (labels : list jsstr)
  (fallback sourceName : jsstr) (p : BlogPost) : Prop :=
  description p = [] ∧ source p = sourceName
  ∧ (date p = [] ∨ isDateLine (date p) = true)
  ∧ (category p = fallback ∨ inList labels (category p) = true).

(** The state of a heuristic scan agrees with itself: the links seen are
    the links of the posts, each once. *)
Definition scanConsistent (st : Scan) : Prop :=
  NoDup (link <$> st.1) ∧ ∀ l, l ∈ st.2 <-> l ∈ (link <$> st.1).

(** A post of the multi-source script, seen by the single-source one. *)
Definition forgetSource (p : BlogPost) : Legacy.BlogPost :=
  Legacy.mkPost (title p) (link p) (description p) (category p) (date p).

(** The source tags the four parsers write. *)
Definition sourceNames : list jsstr :=
  [js "Cursor"; js "Claude Blog"; js "Anthropic Engineering";
   js "Anthropic Research"].

(** A post carries one of the source tags and a title. *)
Definition taggedPost (p : BlogPost) : Prop :=
  source p ∈ sourceNames ∧ title p ≠ [].

(** The items of [posts] when [k] calls of [parseDate] have gone before:
    the item at position [i] is made at the reading of call [k + i]. *)
Definition itemsAt (clock : nat -> Z) (item : Z -> BlogPost -> Main.Item)
  (k : nat) (posts : list BlogPost) : list Main.Item :=
  imap (fun i post => item (clock (k + i)%nat) post) posts.

(** What the crawlers of the four sources return on their configured
    pages, for the loader [load] and the page fetcher [fetchPage]. *)
Definition cursorCrawl (load : jsstr -> Document)
  (fetchPage : jsstr -> Completion jsstr) : option Crawl :=
  fetchCursorPosts fetchPage
    (fun html siteUrl => Normal (parseCursorBlog (load html) siteUrl))
    (js "https://cursor.com/blog") (js "https://cursor.com").

Definition claudeCrawl (load : jsstr -> Document)
  (fetchPage : jsstr -> Completion jsstr) : list BlogPost :=
  fetchClaudePosts fetchPage
    (fun html siteUrl => Normal (parseClaudeBlog (load html) siteUrl))
    (js "https://claude.com/blog") (js "https://claude.com").

Definition engineeringCrawl (load : jsstr -> Document)
  (fetchPage : jsstr -> Completion jsstr) : list BlogPost :=
  fetchAnthropicEngineeringPosts fetchPage
    (fun html siteUrl =>
       Normal (parseAnthropicEngineering (load html) siteUrl))
    (js "https://www.anthropic.com/engineering")
    (js "https://www.anthropic.com").

Definition researchCrawl (load : jsstr -> Document)
  (fetchPage : jsstr -> Completion jsstr) : list BlogPost :=
  fetchAnthropicResearchPosts fetchPage
    (fun html siteUrl => Normal (parseAnthropicResearch (load html) siteUrl))
    (js "https://www.anthropic.com/research")
    (js "https://www.anthropic.com").

(** * Further concrete inputs *)

(** A parser stub that throws on the page [broken] and otherwise parses as
    [stubParse] does. *)
Definition brittleParse (html siteUrl : jsstr) : Completion (list BlogPost) :=
  if str_eqb html (js "broken") then Throw (js "Unexpected token")
  else stubParse html siteUrl.

(** A first page announcing a second one that the parser cannot read. *)
Definition thenBrokenPage : list (jsstr * jsstr) :=
  [(stubListing, js "one /blog/page/2");
   (stubListing ++ js "/page/2", js "broken")].

(** Two pages with posts, the second announcing no third. *)
Definition lastPageUnannounced : list (jsstr * jsstr) :=
  [(stubListing, js "one /blog/page/2");
   (stubListing ++ js "/page/2", js "two")].

(** A page text that announces every page from 2 to 101. *)
Definition everyReference : jsstr :=
  concat ((fun i : nat => nextPageRef (1 + Z.of_nat i) ++ js " ")
            <$> seq 0 100).

(** A site that answers every request with [everyReference]. *)
Definition endlessFetch (url : jsstr) : Completion jsstr :=
  Normal everyReference.

(** * Properties *)

(** ** Strings *)

Section StringFacts.

Lemma js_inj (a b : string) : js a = js b -> a = b.
Proof.
  unfold js. intros H.
  rewrite <- (String.string_of_list_ascii_of_string a),
          <- (String.string_of_list_ascii_of_string b).
  f_equal. revert H.
  generalize (String.list_ascii_of_string a) (String.list_ascii_of_string b).
  induction l as [|x l IH]; intros [|y l'] H; try discriminate; [done|].
  injection H as Hxy Hl. f_equal; [|by apply IH].
  by rewrite <- (Ascii.ascii_N_embedding x), <- (Ascii.ascii_N_embedding y), Hxy.
Qed.

Lemma decimal_inj (p q : Z) : 0 <= p -> 0 <= q -> decimal p = decimal q -> p = q.
Proof.
  unfold decimal. intros Hp Hq H. apply js_inj in H.
  assert (Hnn : ∀ n, N.to_uint n ≠ Decimal.Nil).
  { intros [|x]; [done|]. apply DecimalPos.Unsigned.to_uint_nonnil. }
  assert (Some (N.to_uint (Z.to_N p)) = Some (N.to_uint (Z.to_N q))) as [= Hu].
  { rewrite <- (DecimalString.NilZero.usu _ (Hnn _)), H.
    apply DecimalString.NilZero.usu, Hnn. }
  apply DecimalN.Unsigned.to_uint_inj in Hu. lia.
Qed.

Lemma app_eq_self (a b : jsstr) : a ++ b = a -> b = [].
Proof.
  intros H. apply (app_inv_head a). by rewrite app_nil_r.
Qed.

Lemma replaceWsRuns_collapsed s :
  collapsed (replaceWsRuns false s) = true
  ∧ collapsed (replaceWsRuns true s) = true
  ∧ headNotWs (replaceWsRuns true s) = true.
Proof.
  induction s as [|c r (IHf & IHt & IHh)]; [done|].
  cbn [replaceWsRuns]. destruct (isWs c) eqn:Hc.
  - repeat split; try done.
    cbn [collapsed]. rewrite IHt, N.eqb_refl.
    destruct (replaceWsRuns true r); [done|]. cbn [headNotWs] in IHh.
    rewrite IHh. by rewrite orb_true_r.
  - cbn [collapsed headNotWs]. rewrite Hc, IHf. done.
Qed.

Lemma trimStart_collapsed s : collapsed s = true -> collapsed (trimStart s) = true.
Proof.
  induction s as [|c r IH]; [done|]. cbn [trimStart collapsed].
  intros [_ Hr]%andb_true_iff. destruct (isWs c) eqn:Hc; [by apply IH|].
  cbn [collapsed]. by rewrite Hc, Hr.
Qed.

Lemma trimStart_headNotWs s : headNotWs (trimStart s) = true.
Proof.
  induction s as [|c r IH]; [done|]. cbn [trimStart].
  destruct (isWs c) eqn:Hc; [done|]. cbn [headNotWs]. by rewrite Hc.
Qed.

Lemma trimEnd_head s c r : trimEnd s = c :: r -> ∃ r', s = c :: r'.
Proof.
  destruct s as [|d s']; [done|]. cbn [trimEnd].
  destruct (trimEnd s'); [destruct (isWs d)|]; intros [= <- _]; eauto.
Qed.

Lemma trimEnd_spacesSingle s : collapsed s = true -> spacesSingle (trimEnd s) = true.
Proof.
  induction s as [|c r IH]; [done|]. cbn [collapsed trimEnd].
  intros [Hc Hr]%andb_true_iff. specialize (IH Hr).
  destruct (trimEnd r) as [|d r'] eqn:Hte.
  - destruct (isWs c) eqn:Hws; [done|]. cbn [spacesSingle]. by rewrite Hws.
  - destruct (trimEnd_head _ _ _ Hte) as (r'' & ->).
    cbn [spacesSingle] in *. rewrite IH, andb_true_r.
    apply orb_true_iff in Hc as [Hc|Hc]; [by rewrite Hc|].
    rewrite Hc. apply orb_true_r.
Qed.

Lemma trimEnd_headNotWs s : headNotWs s = true -> headNotWs (trimEnd s) = true.
Proof.
  destruct s as [|c r]; [done|]. cbn [trimEnd headNotWs]. intros Hc.
  destruct (trimEnd r); [|done].
  apply negb_true_iff in Hc. rewrite Hc. cbn [headNotWs]. by rewrite Hc.
Qed.

Lemma normalizeText_wsNormalized s : wsNormalized (normalizeText s) = true.
Proof.
  unfold normalizeText, trim.
  pose proof (replaceWsRuns_collapsed s) as (Hc & _ & _).
  apply trimStart_collapsed, trimEnd_spacesSingle in Hc.
  pose proof (trimEnd_headNotWs _ (trimStart_headNotWs (replaceWsRuns false s))) as Hh.
  unfold wsNormalized. destruct (trimEnd _); [done|].
  cbn [headNotWs] in Hh. by rewrite Hh, Hc.
Qed.

Lemma hasInk_cons c r : hasInk (c :: r) = negb (isWs c) || hasInk r.
Proof. done. Qed.

Lemma trimStart_ink s : hasInk (trimStart s) = hasInk s.
Proof.
  induction s as [|c r IH]; [done|]. cbn [trimStart].
  destruct (isWs c) eqn:Hc; [|done]. by rewrite hasInk_cons, Hc, IH.
Qed.

Lemma trimEnd_ink s : hasInk (trimEnd s) = hasInk s.
Proof.
  induction s as [|c r IH]; [done|]. cbn [trimEnd]. rewrite hasInk_cons, <- IH.
  destruct (trimEnd r) as [|d r'].
  - destruct (isWs c) eqn:Hc; [done|]. by rewrite hasInk_cons, Hc.
  - by rewrite hasInk_cons.
Qed.

Lemma trimEnd_truthy_ink s : truthy (trimEnd s) = hasInk s.
Proof.
  induction s as [|c r IH]; [done|]. cbn [trimEnd]. rewrite hasInk_cons, <- IH.
  destruct (trimEnd r) as [|d r'].
  - by destruct (isWs c).
  - cbn. by rewrite orb_true_r.
Qed.

Lemma trim_truthy_ink s : truthy (trim s) = hasInk s.
Proof. unfold trim. by rewrite trimEnd_truthy_ink, trimStart_ink. Qed.

Lemma replaceWsRuns_ink b s : hasInk (replaceWsRuns b s) = hasInk s.
Proof.
  revert b. induction s as [|c r IH]; intros b; [done|]. cbn [replaceWsRuns].
  destruct (isWs c) eqn:Hc.
  - destruct b; rewrite !hasInk_cons, ?Hc, IH; done.
  - by rewrite !hasInk_cons, IH.
Qed.

Lemma normalizeText_truthy s : truthy (normalizeText s) = hasInk s.
Proof. unfold normalizeText. by rewrite trim_truthy_ink, replaceWsRuns_ink. Qed.

Lemma trim_idem_ink s : hasInk (trim s) = hasInk s.
Proof. unfold trim. by rewrite trimEnd_ink, trimStart_ink. Qed.

Lemma headNotWs_app_nonempty (a b : jsstr) :
  a ≠ [] -> headNotWs (a ++ b) = headNotWs a.
Proof. by destruct a. Qed.

Lemma trimEnd_lastNotWs s : headNotWs (rev (trimEnd s)) = true.
Proof.
  induction s as [|c r IH]; [done|]. cbn [trimEnd].
  destruct (trimEnd r) as [|d r'] eqn:Hte.
  - destruct (isWs c) eqn:Hc; [done|]. cbn [rev app headNotWs]. by rewrite Hc.
  - change (rev (c :: d :: r')) with (rev (d :: r') ++ [c]).
    rewrite headNotWs_app_nonempty; [done|].
    cbn [rev]. by destruct (rev r').
Qed.

Lemma trim_wsTrimmed s : wsTrimmed (trim s) = true.
Proof.
  unfold wsTrimmed, trim.
  by rewrite trimEnd_headNotWs, trimEnd_lastNotWs by apply trimStart_headNotWs.
Qed.

Lemma textLines_spec text line :
  line ∈ textLines text ->
  truthy line = true ∧ wsTrimmed line = true ∧ hasInk line = true.
Proof.
  unfold textLines. rewrite list_elem_of_In, List.filter_In, List.in_map_iff.
  intros [(x & <- & _) Ht]. split; [done|]. split; [apply trim_wsTrimmed|].
  by rewrite trim_idem_ink, <- trim_truthy_ink.
Qed.

Lemma spacesSingle_lastNotWs s : spacesSingle s = true -> headNotWs (rev s) = true.
Proof.
  induction s as [|c r IH]; [done|]. cbn [spacesSingle rev].
  intros [Hc Hr]%andb_true_iff. destruct r as [|d r'].
  - cbn [rev app headNotWs]. rewrite andb_false_r, orb_false_r in Hc. done.
  - rewrite headNotWs_app_nonempty; [by apply IH|].
    cbn [rev]. by destruct (rev r').
Qed.

Lemma wsNormalized_wsTrimmed s : wsNormalized s = true -> wsTrimmed s = true.
Proof.
  unfold wsNormalized, wsTrimmed. destruct s as [|c r]; [done|].
  intros [Hc Hs]%andb_true_iff. cbn [headNotWs]. rewrite Hc.
  by apply spacesSingle_lastNotWs.
Qed.


Lemma truthy_app_r (a b : jsstr) : b ≠ [] -> truthy (a ++ b) = true.
Proof. by destruct a, b. Qed.

Lemma includes_nonempty (s sub : jsstr) :
  sub ≠ [] -> includes s sub = true -> s ≠ [].
Proof. intros Hsub H ->. by destruct sub. Qed.

End StringFacts.

(** ** Patterns *)

Section RegexFacts.

Lemma nullable_Lang r : nullable r = true <-> Lang r [].
Proof.
  split.
  - induction r as [| |p|r1 IH1 r2 IH2|r1 IH1 r2 IH2|r IH]; cbn [nullable];
      try discriminate.
    + intros _. constructor.
    + intros [H1 H2]%andb_true_iff.
      change (@nil N) with (@nil N ++ []). constructor; auto.
    + intros [H|H]%orb_true_iff; [apply LAltL|apply LAltR]; auto.
    + intros _. constructor.
  - intros H. remember [] as s eqn:Hs.
    induction H as [|p c Hp|r1 r2 s1 s2 H1 IH1 H2 IH2|r1 r2 s H IH
                   |r1 r2 s H IH|r|r c s1 s2 H1 IH1 H2 IH2];
      cbn [nullable]; try done.
    + apply app_eq_nil in Hs as [-> ->]. by rewrite IH1, IH2.
    + by rewrite IH.
    + rewrite IH by done. apply orb_true_r.
Qed.

Lemma Lang_Never_inv s : Lang Never s -> False.
Proof. inversion 1. Qed.

Lemma Lang_Eps_inv s : Lang Eps s -> s = [].
Proof. by inversion 1. Qed.

Lemma Lang_Class_inv p s : Lang (Class p) s -> ∃ c, s = [c] ∧ p c = true.
Proof. inversion 1; subst. eauto. Qed.

Lemma Lang_Seq_inv r1 r2 s :
  Lang (Seq r1 r2) s -> ∃ s1 s2, s = s1 ++ s2 ∧ Lang r1 s1 ∧ Lang r2 s2.
Proof. inversion 1; subst. eauto. Qed.

Lemma Lang_Alt_inv r1 r2 s : Lang (Alt r1 r2) s -> Lang r1 s ∨ Lang r2 s.
Proof. inversion 1; subst; auto. Qed.

Lemma Lang_Seq_cons r1 r2 c s :
  Lang (Seq r1 r2) (c :: s) <->
  (∃ s1 s2, s = s1 ++ s2 ∧ Lang r1 (c :: s1) ∧ Lang r2 s2)
  ∨ (Lang r1 [] ∧ Lang r2 (c :: s)).
Proof.
  split.
  - intros (s1 & s2 & Heq & H1 & H2)%Lang_Seq_inv.
    destruct s1 as [|d s1]; cbn in Heq.
    + right. by subst.
    + injection Heq as -> ->. left. eauto.
  - intros [(s1 & s2 & -> & H1 & H2)|[H1 H2]].
    + change (c :: s1 ++ s2) with ((c :: s1) ++ s2). by constructor.
    + change (c :: s) with ([] ++ c :: s). by constructor.
Qed.

Lemma Lang_Star_cons r c s :
  Lang (Star r) (c :: s) <->
  ∃ s1 s2, s = s1 ++ s2 ∧ Lang r (c :: s1) ∧ Lang (Star r) s2.
Proof.
  split.
  - inversion 1; subst. eauto.
  - intros (s1 & s2 & -> & H1 & H2). by constructor.
Qed.

Lemma deriv_Lang r : ∀ c s, Lang (deriv c r) s <-> Lang r (c :: s).
Proof.
  induction r as [| |p|r1 IH1 r2 IH2|r1 IH1 r2 IH2|r IH]; intros c s;
    cbn [deriv].
  - split; intros []%Lang_Never_inv.
  - split; [intros []%Lang_Never_inv|intros [=]%Lang_Eps_inv].
  - destruct (p c) eqn:Hp; split.
    + intros ->%Lang_Eps_inv. by constructor.
    + intros (d & [= -> ->] & _)%Lang_Class_inv. constructor.
    + intros []%Lang_Never_inv.
    + intros (d & [= -> ->] & Hd)%Lang_Class_inv. congruence.
  - rewrite Lang_Seq_cons. destruct (nullable r1) eqn:Hn.
    + split.
      * intros [(s1 & s2 & -> & H1 & H2)%Lang_Seq_inv|H]%Lang_Alt_inv.
        -- left. exists s1, s2. split; [done|]. split; [by apply IH1|done].
        -- right. split; [by apply nullable_Lang|by apply IH2].
      * intros [(s1 & s2 & -> & H1 & H2)|[H1 H2]].
        -- apply LAltL. constructor; [by apply IH1|done].
        -- apply LAltR. by apply IH2.
    + split.
      * intros (s1 & s2 & -> & H1 & H2)%Lang_Seq_inv.
        left. exists s1, s2. split; [done|]. split; [by apply IH1|done].
      * intros [(s1 & s2 & -> & H1 & H2)|[H1 H2]].
        -- constructor; [by apply IH1|done].
        -- apply nullable_Lang in H1. congruence.
  - split.
    + intros [H|H]%Lang_Alt_inv; [apply LAltL; by apply IH1
                                 |apply LAltR; by apply IH2].
    + intros [H|H]%Lang_Alt_inv; [apply LAltL; by apply IH1
                                 |apply LAltR; by apply IH2].
  - rewrite Lang_Star_cons. split.
    + intros (s1 & s2 & -> & H1 & H2)%Lang_Seq_inv.
      exists s1, s2. split; [done|]. split; [by apply IH|done].
    + intros (s1 & s2 & -> & H1 & H2). constructor; [by apply IH|done].
Qed.

(** The derivative matcher decides membership in the language of the
    pattern. *)
Lemma matches_Lang s : ∀ r, matches r s = true <-> Lang r s.
Proof.
  induction s as [|c s IH]; intros r; cbn [matches].
  - apply nullable_Lang.
  - rewrite IH. apply deriv_Lang.
Qed.

End RegexFacts.

Section LabelFacts.



End LabelFacts.

(** ** Deduplication *)

Section DedupeFacts.

Lemma existsb_link_elem (l : jsstr) (earlier : list BlogPost) :
  List.existsb (fun q => str_eqb (link q) l) earlier = true <->
  l ∈ (link <$> earlier).
Proof.
  rewrite List.existsb_exists, list_elem_of_fmap. unfold str_eqb.
  split.
  - intros (q & Hin & Heq). apply bool_decide_eq_true in Heq.
    exists q. split; [done | by apply list_elem_of_In].
  - intros (q & -> & Hin). exists q. split; [by apply list_elem_of_In |].
    by apply bool_decide_eq_true.
Qed.

Lemma dedupeFrom_links seen posts l :
  l ∈ (link <$> dedupeFrom seen posts) <-> l ∈ (link <$> posts) ∧ l ∉ seen.
Proof.
  revert seen. induction posts as [|p rest IH]; intros seen; cbn [dedupeFrom].
  - rewrite fmap_nil, !elem_of_nil. tauto.
  - destruct (decide (link p ∈ seen)) as [Hin|Hnin].
    + rewrite IH, fmap_cons, elem_of_cons. split; [tauto|].
      intros [[->|?] ?]; tauto.
    + rewrite !fmap_cons, !elem_of_cons, IH. split.
      * intros [->|[? Hn]]; [tauto|]. split; [tauto|]. set_solver.
      * intros [[->|?] ?]; [tauto|].
        destruct (decide (l = link p)) as [->|Hne]; [tauto|].
        right. split; [done|]. set_solver.
Qed.

Lemma dedupeFrom_NoDup seen posts : NoDup (link <$> dedupeFrom seen posts).
Proof.
  revert seen. induction posts as [|p rest IH]; intros seen; cbn [dedupeFrom].
  - constructor.
  - destruct (decide (link p ∈ seen)); [apply IH|].
    rewrite fmap_cons. constructor; [|apply IH].
    rewrite dedupeFrom_links. set_solver.
Qed.

Lemma dedupeFrom_sublist seen posts : sublist (dedupeFrom seen posts) posts.
Proof.
  revert seen. induction posts as [|p rest IH]; intros seen; cbn [dedupeFrom].
  - constructor.
  - destruct (decide (link p ∈ seen)).
    + by apply sublist_cons.
    + by apply sublist_skip.
Qed.

Lemma dedupeFrom_first seen posts p :
  p ∈ dedupeFrom seen posts ->
  ∃ before after, posts = before ++ p :: after
    ∧ (link p ∉ (link <$> before)) ∧ (link p ∉ seen).
Proof.
  revert seen. induction posts as [|q rest IH]; intros seen; cbn [dedupeFrom].
  - by rewrite elem_of_nil.
  - destruct (decide (link q ∈ seen)) as [Hin|Hnin].
    + intros Hp. destruct (IH _ Hp) as (b & a & -> & Hb & Hs).
      exists (q :: b), a. split; [done|]. split; [|done].
      rewrite fmap_cons, elem_of_cons. intros [Heq|?]; [|done].
      apply Hs. by rewrite Heq.
    + rewrite elem_of_cons. intros [->|Hp].
      * exists [], rest. split; [done|]. split; [|done].
        simpl. apply not_elem_of_nil.
      * destruct (IH _ Hp) as (b & a & -> & Hb & Hs).
        exists (q :: b), a. split; [done|]. split; [|set_solver].
        rewrite fmap_cons, elem_of_cons. intros [Heq|?]; [|done].
        set_solver.
Qed.

Lemma firstAt_app earlier p rest :
  firstAt (earlier ++ p :: rest) (length earlier) =
  if List.existsb (fun q => str_eqb (link q) (link p)) earlier then [] else [p].
Proof.
  unfold firstAt.
  rewrite list_lookup_middle by done.
  by rewrite take_app_length.
Qed.

Lemma dedupeFrom_firstOccurrences earlier seen rest :
  (∀ l, l ∈ seen <-> l ∈ (link <$> earlier)) ->
  dedupeFrom seen rest =
  List.flat_map (firstAt (earlier ++ rest)) (seq (length earlier) (length rest)).
Proof.
  revert earlier seen. induction rest as [|p rest IH]; intros earlier seen Hs.
  - done.
  - cbn [dedupeFrom length seq List.flat_map].
    rewrite firstAt_app.
    assert (Hrec : ∀ seen', (∀ l, l ∈ seen' <-> l ∈ (link <$> (earlier ++ [p]))) ->
      dedupeFrom seen' rest =
      List.flat_map (firstAt (earlier ++ p :: rest))
        (seq (S (length earlier)) (length rest))).
    { intros seen' Hs'. rewrite (IH (earlier ++ [p]) seen' Hs').
      rewrite <- app_assoc. simpl. rewrite length_app. simpl.
      by rewrite Nat.add_1_r. }
    destruct (decide (link p ∈ seen)) as [Hin|Hnin].
    + assert (He : List.existsb (fun q => str_eqb (link q) (link p)) earlier = true).
      { apply existsb_link_elem. by apply Hs. }
      rewrite He. simpl. apply Hrec.
      intros l. rewrite fmap_app, elem_of_app. simpl.
      rewrite list_elem_of_singleton, Hs. split; [tauto|].
      intros [?| ->]; [done|]. by apply Hs.
    + assert (He : List.existsb (fun q => str_eqb (link q) (link p)) earlier = false).
      { apply not_true_is_false. rewrite existsb_link_elem, <- Hs. done. }
      rewrite He. simpl. f_equal. apply Hrec.
      intros l. rewrite fmap_app, elem_of_app. simpl.
      rewrite list_elem_of_singleton, <- Hs. set_solver.
Qed.

End DedupeFacts.

(** C2. For every list of posts, [dedupeByLink] returns exactly the
    subsequence of first occurrences per link: no link occurs twice in the
    output, the output is a subsequence of the input (so it keeps the input
    order), every link of the input is kept, each kept post is the first
    input post carrying its link, and the output is the list of first
    occurrences as the specification describes it. *)
Theorem dedupeByLink_first_seen_wins (posts : list BlogPost) :
  NoDup (link <$> dedupeByLink posts)
  ∧ sublist (dedupeByLink posts) posts
  ∧ (∀ l, l ∈ (link <$> posts) -> l ∈ (link <$> dedupeByLink posts))
  ∧ (∀ p, p ∈ dedupeByLink posts ->
       ∃ before after, posts = before ++ p :: after
                       ∧ (link p ∉ (link <$> before)))
  ∧ dedupeByLink posts = firstOccurrences posts.
Proof.
  unfold dedupeByLink. repeat split.
  - apply dedupeFrom_NoDup.
  - apply dedupeFrom_sublist.
  - intros l Hl. apply dedupeFrom_links. split; [done|set_solver].
  - intros p Hp. destruct (dedupeFrom_first _ _ _ Hp) as (b & a & ? & ? & _).
    eauto.
  - apply (dedupeFrom_firstOccurrences [] ∅ posts).
    intros l. simpl. rewrite elem_of_nil. set_solver.
Qed.

(** ** Sorting *)

Section SortFacts.

Context {A : Type} (key : A -> Z).

Lemma insertSorted_Permutation x l : insertSorted (byKey key) x l ≡ₚ x :: l.
Proof.
  induction l as [|y rest IH]; simpl; [done|].
  destruct (byKey key x y <=? 0); [done|].
  rewrite IH. apply Permutation_swap.
Qed.

Lemma sort_Permutation l : sort (byKey key) l ≡ₚ l.
Proof.
  induction l as [|x l IH]; simpl; [done|].
  by rewrite insertSorted_Permutation, IH.
Qed.

Lemma insertSorted_HdRel x y l :
  key y >= key x ->
  HdRel (fun a b => key a >= key b) y l ->
  HdRel (fun a b => key a >= key b) y (insertSorted (byKey key) x l).
Proof.
  intros Hxy Hl. destruct l as [|z rest]; simpl.
  - by constructor.
  - destruct (byKey key x z <=? 0); constructor; [done|].
    by inversion Hl.
Qed.

Lemma insertSorted_Sorted x l :
  Sorted (fun a b => key a >= key b) l ->
  Sorted (fun a b => key a >= key b) (insertSorted (byKey key) x l).
Proof.
  induction 1 as [|y rest Hs IH Hhd]; simpl.
  - repeat constructor.
  - destruct (Z.leb_spec (byKey key x y) 0) as [Hle|Hgt]; unfold byKey in *.
    + constructor; [by constructor|]. constructor. lia.
    + constructor; [done|]. apply insertSorted_HdRel; [lia|done].
Qed.

Lemma sort_Sorted l : Sorted (fun a b => key a >= key b) (sort (byKey key) l).
Proof.
  induction l as [|x l IH]; simpl; [constructor|].
  by apply insertSorted_Sorted.
Qed.

Lemma insertSorted_stable t x l :
  filter (fun a => key a = t) (insertSorted (byKey key) x l) =
  filter (fun a => key a = t) (x :: l).
Proof.
  induction l as [|y rest IH]; simpl; [done|].
  destruct (Z.leb_spec (byKey key x y) 0) as [Hle|Hgt]; [done|].
  unfold byKey in Hgt.
  rewrite (filter_cons _ y (insertSorted _ _ _)), IH.
  rewrite !(filter_cons _ x), !(filter_cons _ y).
  repeat case_decide; try done; lia.
Qed.

Lemma sort_stable t l :
  filter (fun a => key a = t) (sort (byKey key) l) = filter (fun a => key a = t) l.
Proof.
  induction l as [|x l IH]; simpl; [done|].
  rewrite insertSorted_stable, !filter_cons, IH. done.
Qed.

Lemma descending_head x l :
  Sorted (fun a b => key a >= key b) (x :: l) -> ∀ y, y ∈ x :: l -> key x >= key y.
Proof.
  intros Hs. apply Sorted_StronglySorted in Hs; [|intros a b c; lia].
  apply StronglySorted_inv in Hs as [_ Hall]. rewrite Forall_forall in Hall.
  intros y [->|Hy]%elem_of_cons; [lia|by apply Hall].
Qed.

Lemma stable_arrangement_unique (l1 : list A) : ∀ l2,
  Sorted (fun a b => key a >= key b) l1 ->
  Sorted (fun a b => key a >= key b) l2 ->
  (∀ t, filter (fun a => key a = t) l1 = filter (fun a => key a = t) l2) ->
  l1 = l2.
Proof.
  induction l1 as [|x r1 IH]; intros l2 Hs1 Hs2 Hf.
  - destruct l2 as [|y r2]; [done|]. specialize (Hf (key y)).
    by rewrite filter_nil, filter_cons_True in Hf.
  - destruct l2 as [|y r2].
    { specialize (Hf (key x)). by rewrite filter_nil, filter_cons_True in Hf. }
    assert (Hxy : key x = key y).
    { assert (x ∈ y :: r2) as Hx.
      { eapply (list_elem_of_filter (fun a => key a = key x)).
        rewrite <- Hf, filter_cons_True by done. apply elem_of_cons. by left. }
      assert (y ∈ x :: r1) as Hy.
      { eapply (list_elem_of_filter (fun a => key a = key y)).
        rewrite Hf, filter_cons_True by done. apply elem_of_cons. by left. }
      pose proof (descending_head _ _ Hs1 _ Hy).
      pose proof (descending_head _ _ Hs2 _ Hx). lia. }
    pose proof (Hf (key x)) as Hfx.
    rewrite !filter_cons_True in Hfx by done. injection Hfx as -> Hfx.
    f_equal. apply IH; [by inversion Hs1|by inversion Hs2|].
    intros t. destruct (decide (key y = t)) as [<-|Hne]; [done|].
    specialize (Hf t). by rewrite !filter_cons_False in Hf.
Qed.

End SortFacts.

(** The sort is the only arrangement of its input that is ordered by key,
    largest first, and keeps the input order among equal keys. *)
Lemma sort_is_the_stable_arrangement {A : Type} (key : A -> Z)
  (l out : list A) :
  Sorted (fun a b => key a >= key b) out ->
  (∀ t, filter (fun a => key a = t) out = filter (fun a => key a = t) l) ->
  out = sort (byKey key) l.
Proof.
  intros Hs Hf. apply (stable_arrangement_unique key); [done|apply sort_Sorted|].
  intros t. by rewrite Hf, sort_stable.
Qed.

Section EngineFacts.

Context {A : Type}.

Lemma everyOutcome_placeBefore (P : list A -> Prop) (x : A) placed :
  ∀ next,
    (∀ out, out ≡ₚ x :: placed -> everyOutcome P (next out)) ->
    everyOutcome P (placeBefore x placed next).
Proof.
  induction placed as [|y rest IH]; intros next Hnext;
    cbn [placeBefore everyOutcome].
  - by apply Hnext.
  - intros order. destruct (order <? 0); [|by apply Hnext].
    apply IH. intros out Hout. apply Hnext.
    rewrite Hout. apply Permutation_swap.
Qed.

Lemma everyOutcome_insertionFrom (P : list A -> Prop) (l : list A) :
  ∀ next,
    (∀ out, out ≡ₚ l -> everyOutcome P (next out)) ->
    everyOutcome P (insertionFrom l next).
Proof.
  induction l as [|x rest IH]; intros next Hnext; cbn [insertionFrom].
  - by apply Hnext.
  - apply IH. intros placed Hplaced. apply everyOutcome_placeBefore.
    intros out Hout. apply Hnext. by rewrite Hout, Hplaced.
Qed.

Lemma answer_placeBefore (key : A -> Z) (x : A) placed :
  ∀ next,
    answer (byKey key) (placeBefore x placed next)
    = answer (byKey key) (next (insertSorted (byKey key) x placed)).
Proof.
  induction placed as [|y rest IH]; intros next;
    cbn [placeBefore answer insertSorted]; [done|].
  destruct (Z.ltb_spec (byKey key y x) 0) as [Hlt|Hge],
           (Z.leb_spec (byKey key x y) 0) as [Hle|Hgt];
    unfold byKey in *; try lia; [|done].
  by rewrite IH.
Qed.

Lemma answer_insertionFrom (key : A -> Z) (l : list A) :
  ∀ next,
    answer (byKey key) (insertionFrom l next)
    = answer (byKey key) (next (sort (byKey key) l)).
Proof.
  induction l as [|x rest IH]; intros next; cbn [insertionFrom]; [done|].
  rewrite IH. apply answer_placeBefore.
Qed.

(** The insertion engine sorts as the language asks. *)
Lemma insertionEngine_sorts : SortsAsSpecified (@insertionEngine A).
Proof.
  split.
  - intros l. by apply everyOutcome_insertionFrom.
  - intros key l. unfold insertionEngine. rewrite answer_insertionFrom.
    apply sort_Sorted.
  - intros key l t. unfold insertionEngine. rewrite answer_insertionFrom.
    apply sort_stable.
Qed.

(** An engine that sorts as the language asks arrives, for a comparator
    that orders by a key, at the stable sorted arrangement. *)
Lemma engine_answer (engine : list A -> Sorter A) (key : A -> Z) l :
  SortsAsSpecified engine ->
  answer (byKey key) (engine l) = sort (byKey key) l.
Proof.
  intros He. apply sort_is_the_stable_arrangement.
  - apply (engine_sorts _ He).
  - intros t. apply (engine_stable _ He).
Qed.

End EngineFacts.

Section ClockFacts.

Variable DateParse : jsstr -> option Z.
Variable clock : nat -> Z.

Lemma asked_outcome (P : list BlogPost -> Prop) (s : Sorter BlogPost) :
  everyOutcome P s -> ∀ k, P (asked DateParse clock s k).1.
Proof.
  induction s as [out|a b next IH]; intros Hs k; cbn [asked]; [done|].
  apply IH, Hs.
Qed.

Lemma asked_one_instant (now : Z) (s : Sorter BlogPost) :
  (∀ i, clock i = now) ->
  ∀ k, (asked DateParse clock s k).1
       = answer (byKey (resolvedDate DateParse now)) s.
Proof.
  intros Hnow. induction s as [out|a b next IH]; intros k;
    cbn [asked answer]; [done|].
  rewrite IH, !Hnow. reflexivity.
Qed.

Lemma sortedPosts_rearranges engine allPosts k :
  (∀ l, everyOutcome (fun out => out ≡ₚ l) (engine l)) ->
  (sortedPosts DateParse clock engine allPosts k).1 ≡ₚ dedupeByLink allPosts.
Proof.
  intros He. unfold sortedPosts.
  apply (asked_outcome (fun out => out ≡ₚ dedupeByLink allPosts)).
  apply He.
Qed.

Lemma sortedPosts_one_instant engine now allPosts k :
  SortsAsSpecified engine -> (∀ i, clock i = now) ->
  (sortedPosts DateParse clock engine allPosts k).1
  = sort (byKey (resolvedDate DateParse now)) (dedupeByLink allPosts).
Proof.
  intros He Hnow. unfold sortedPosts.
  rewrite (asked_one_instant now) by done. by apply engine_answer.
Qed.

End ClockFacts.

(** Between two readings of an advancing clock the comparator does not tie
    two posts whose dates do not parse: whichever comes first in the call
    is put first. *)
Remark compareFn_advancing_clock (DateParse : jsstr -> option Z)
  (nowB nowA : Z) (a b : BlogPost) :
  DateParse (date a) = None -> DateParse (date b) = None -> nowB < nowA ->
  compareFn DateParse nowB nowA a b < 0
  ∧ compareFn DateParse nowB nowA b a < 0.
Proof.
  intros Ha Hb Hlt. unfold compareFn, parseDate. rewrite Ha, Hb. lia.
Qed.

(** C1 fails on the code. Two posts whose dates do not parse are sorted
    while the clock advances by a millisecond from one call of [parseDate]
    to the next, by an engine that sorts as the language asks and passes
    the later element first: the comparator reads the clock once for each
    post, the later post gets the earlier reading, and the two posts come
    out in the reverse of their input order. With the clock stopped the
    same engine leaves them as they came. *)
Theorem sortedPosts_reorders_undated :
  SortsAsSpecified (@insertionEngine BlogPost)
  ∧ stubDateParse (date undatedFirst) = None
  ∧ stubDateParse (date undatedSecond) = None
  ∧ dedupeByLink [undatedFirst; undatedSecond] = [undatedFirst; undatedSecond]
  ∧ compareFn stubDateParse (tickingClock 0) (tickingClock 1)
              undatedSecond undatedFirst = -1
  ∧ sortedPosts stubDateParse tickingClock insertionEngine
                [undatedFirst; undatedSecond] 0
    = ([undatedSecond; undatedFirst], 2%nat)
  ∧ sortedPosts stubDateParse (stoppedClock 1762992000000) insertionEngine
                [undatedFirst; undatedSecond] 0
    = ([undatedFirst; undatedSecond], 2%nat).
Proof.
  split; [apply insertionEngine_sorts|].
  repeat split; vm_compute; reflexivity.
Qed.

(** X19. For every input list of posts and every engine that sorts as the
    language asks, the aggregate list is a rearrangement of the
    deduplicated input, whatever the clock does. When the clock shows one
    instant [now] at every call of the sort, the aggregate list is ordered
    by resolved date, newest first, every adjacent pair [(a, b)] having
    [resolvedDate a >= resolvedDate b]; and the posts resolving to one
    instant, such as those whose dates do not parse and fall back to
    [now], come in the order they have in the deduplicated input, which is
    their order in the input. *)
Theorem sortedPosts_sorted_and_stable
  (DateParse : jsstr -> option Z) (clock : nat -> Z)
  (engine : list BlogPost -> Sorter BlogPost) (now : Z)
  (allPosts : list BlogPost) (k : nat) :
  SortsAsSpecified engine ->
  (sortedPosts DateParse clock engine allPosts k).1 ≡ₚ dedupeByLink allPosts
  ∧ ((∀ i, clock i = now) ->
     Sorted (fun a b => resolvedDate DateParse now a
                        >= resolvedDate DateParse now b)
            (sortedPosts DateParse clock engine allPosts k).1
     ∧ (∀ t : Z,
         filter (fun p => resolvedDate DateParse now p = t)
                (sortedPosts DateParse clock engine allPosts k).1
         = filter (fun p => resolvedDate DateParse now p = t)
                  (dedupeByLink allPosts))
     ∧ (∀ t : Z,
         sublist (filter (fun p => resolvedDate DateParse now p = t)
                         (sortedPosts DateParse clock engine allPosts k).1)
                 allPosts)).
Proof.
  intros He. split; [apply sortedPosts_rearranges, (engine_rearranges _ He)|].
  intros Hnow. rewrite (sortedPosts_one_instant _ _ _ now) by done.
  repeat split.
  - apply (sort_Sorted (resolvedDate DateParse now)).
  - intros t. apply (sort_stable (resolvedDate DateParse now)).
  - intros t. rewrite (sort_stable (resolvedDate DateParse now)).
    etransitivity; [apply sublist_filter|apply dedupeFrom_sublist].
Qed.

(** X19 on the two posts without a date, the clock stopped. *)
Lemma sortedPosts_sorted_and_stable_witness :
  (sortedPosts stubDateParse (stoppedClock 1000) insertionEngine
               [undatedFirst; undatedSecond] 0).1
  ≡ₚ dedupeByLink [undatedFirst; undatedSecond]
  ∧ Sorted (fun a b => resolvedDate stubDateParse 1000 a
                       >= resolvedDate stubDateParse 1000 b)
           (sortedPosts stubDateParse (stoppedClock 1000) insertionEngine
                        [undatedFirst; undatedSecond] 0).1
  ∧ (∀ t : Z,
      filter (fun p => resolvedDate stubDateParse 1000 p = t)
             (sortedPosts stubDateParse (stoppedClock 1000) insertionEngine
                          [undatedFirst; undatedSecond] 0).1
      = filter (fun p => resolvedDate stubDateParse 1000 p = t)
               (dedupeByLink [undatedFirst; undatedSecond]))
  ∧ (∀ t : Z,
      sublist (filter (fun p => resolvedDate stubDateParse 1000 p = t)
                      (sortedPosts stubDateParse (stoppedClock 1000)
                                   insertionEngine
                                   [undatedFirst; undatedSecond] 0).1)
              [undatedFirst; undatedSecond]).
Proof.
  destruct (sortedPosts_sorted_and_stable stubDateParse (stoppedClock 1000)
              insertionEngine 1000 [undatedFirst; undatedSecond] 0
              insertionEngine_sorts) as [Hperm Hsorted].
  split; [exact Hperm|]. apply Hsorted. reflexivity.
Defined.

(** ** The date resolver *)

(** C3. The date resolver is total: for every input string it returns an
    instant. When the string parses it returns the parsed instant, and for
    every string that does not parse, the empty string and "not a date"
    among them on an engine that rejects them, it returns the reading of the
    clock at the call. *)
Theorem parseDate_never_fails (DateParse : jsstr -> option Z) (now : Z) :
  DateParse (js "") = None ->
  DateParse (js "not a date") = None ->
  (∀ s, (∀ t, DateParse s = Some t -> parseDate DateParse now s = t)
        ∧ (DateParse s = None -> parseDate DateParse now s = now))
  ∧ parseDate DateParse now (js "") = now
  ∧ parseDate DateParse now (js "not a date") = now.
Proof.
  intros Hempty Hnot. unfold parseDate. split; [|by rewrite Hempty, Hnot].
  intros s. split; [by intros t ->|by intros ->].
Qed.

Lemma parseDate_never_fails_witness :
  (∀ s, (∀ t, stubDateParse s = Some t -> parseDate stubDateParse 1000 s = t)
        ∧ (stubDateParse s = None -> parseDate stubDateParse 1000 s = 1000))
  ∧ parseDate stubDateParse 1000 (js "") = 1000
  ∧ parseDate stubDateParse 1000 (js "not a date") = 1000.
Proof.
  apply (parseDate_never_fails stubDateParse 1000); reflexivity.
Defined.

(** ** Crawling *)

Section CrawlFacts.

Variable fetchFn : jsstr -> Completion jsstr.
Variable parse : jsstr -> jsstr -> Completion (list BlogPost).
Variables baseUrl siteUrl : jsstr.

Lemma pageUrls_S start n :
  pageUrls baseUrl start (S n) = pageUrl baseUrl start :: pageUrls baseUrl (start + 1) n.
Proof.
  unfold pageUrls. cbn [seq fmap list_fmap]. rewrite Z.add_0_r. f_equal.
  rewrite <- seq_shift, <- list_fmap_compose. apply list_fmap_ext.
  intros i x _. simpl. f_equal. lia.
Qed.

Lemma crawlFrom_continue fuel page allPosts log posts :
  page <= maxPages -> pageContinues fetchFn parse baseUrl siteUrl page posts ->
  crawlFrom fetchFn parse baseUrl siteUrl (S fuel) page allPosts log =
  crawlFrom fetchFn parse baseUrl siteUrl fuel (page + 1) (allPosts ++ posts)
            (log ++ [pageUrl baseUrl page]).
Proof.
  intros Hle (html & Hf & Hp & Hne & Hnext). cbn [crawlFrom].
  apply Z.leb_le in Hle. rewrite Hle. unfold tryPage.
  rewrite Hf. unfold mbind, Completion_bind. rewrite Hp.
  destruct posts as [|p ps]; [done|]. cbn [List.length Nat.eqb].
  by rewrite Hnext.
Qed.

Lemma crawlFrom_pages pages : ∀ fuel page allPosts log,
  pagesContinue fetchFn parse baseUrl siteUrl page pages ->
  page + Z.of_nat (length pages) <= maxPages + 1 ->
  crawlFrom fetchFn parse baseUrl siteUrl (length pages + fuel) page allPosts
            log =
  crawlFrom fetchFn parse baseUrl siteUrl fuel (page + Z.of_nat (length pages))
            (allPosts ++ concat pages)
            (log ++ pageUrls baseUrl page (length pages)).
Proof.
  induction pages as [|posts pages IH]; intros fuel page allPosts log Hc Hb.
  - cbn. by rewrite Z.add_0_r, !app_nil_r.
  - cbn [length concat Nat.add]. cbn [length] in Hb.
    rewrite crawlFrom_continue with (posts := posts); [|lia|].
    2:{ specialize (Hc 0%nat posts eq_refl). by rewrite Z.add_0_r in Hc. }
    rewrite IH; [|..].
    + rewrite pageUrls_S, <- !app_assoc. cbn. f_equal; lia.
    + intros i ps Hi. specialize (Hc (S i) ps Hi).
      by replace (page + 1 + Z.of_nat i) with (page + Z.of_nat (S i)) by lia.
    + lia.
Qed.

(** The loop leaves within the pages that remain below the ceiling, having
    log consecutive pages only. *)
Lemma crawlFrom_terminates : ∀ fuel page allPosts log,
  (Z.to_nat (maxPages + 1 - page) < fuel)%nat ->
  ∃ c n, crawlFrom fetchFn parse baseUrl siteUrl fuel page allPosts log
         = Some c
         ∧ Z.of_nat n <= Z.max 0 (maxPages + 1 - page)
         ∧ requested c = log ++ pageUrls baseUrl page n.
Proof.
  induction fuel as [|fuel IH]; intros page allPosts log Hf; [lia|].
  cbn [crawlFrom]. destruct (Z.leb_spec page maxPages) as [Hle|Hgt].
  - destruct (tryPage fetchFn parse baseUrl siteUrl page allPosts)
      as [[posts'|posts']|e].
    + exists (mkCrawl posts' (log ++ [pageUrl baseUrl page])), 1%nat.
      split; [done|]. split; [lia|]. cbn. by rewrite Z.add_0_r.
    + destruct (IH (page + 1) posts' (log ++ [pageUrl baseUrl page]))
        as (c & n & Hc & Hn & Hr); [lia|].
      exists c, (S n). split; [done|]. split; [lia|].
      by rewrite Hr, pageUrls_S, <- app_assoc.
    + exists (mkCrawl allPosts (log ++ [pageUrl baseUrl page])), 1%nat.
      split; [done|]. split; [lia|]. cbn. by rewrite Z.add_0_r.
  - exists (mkCrawl allPosts log), 0%nat.
    split; [done|]. split; [lia|]. cbn. by rewrite app_nil_r.
Qed.

Lemma pageUrl_inj (p q : Z) :
  1 <= p -> 1 <= q -> pageUrl baseUrl p = pageUrl baseUrl q -> p = q.
Proof.
  unfold pageUrl. intros Hp Hq.
  destruct (Z.eqb_spec p 1) as [->|Hp1], (Z.eqb_spec q 1) as [->|Hq1];
    try done.
  - intros H. symmetry in H. apply app_eq_self in H. discriminate.
  - intros H. apply app_eq_self in H. discriminate.
  - intros H. apply app_inv_head, (app_inv_head (js "/page/")) in H.
    apply decimal_inj in H; lia.
Qed.

Lemma elem_of_pageUrls url start n :
  url ∈ pageUrls baseUrl start n <->
  ∃ p, start <= p < start + Z.of_nat n ∧ url = pageUrl baseUrl p.
Proof.
  unfold pageUrls. rewrite list_elem_of_fmap. split.
  - intros (i & -> & Hi). apply elem_of_seq in Hi.
    exists (start + Z.of_nat i). split; [lia|done].
  - intros (p & Hp & ->). exists (Z.to_nat (p - start)). split.
    + f_equal. lia.
    + apply elem_of_seq. lia.
Qed.

Lemma fetchCursorPosts_ceiling :
  ∃ c n, fetchCursorPosts fetchFn parse baseUrl siteUrl = Some c
         ∧ (n <= 100)%nat
         ∧ requested c = pageUrls baseUrl 1 n
         ∧ ∀ page, 100 < page -> pageUrl baseUrl page ∉ requested c.
Proof.
  destruct (crawlFrom_terminates (S (Z.to_nat maxPages)) 1 [] [])
    as (c & n & Hc & Hn & Hr).
  { unfold maxPages. lia. }
  exists c, n. unfold maxPages in Hn. split; [done|]. split; [lia|].
  split; [done|]. intros page Hpage. rewrite Hr. cbn [app].
  rewrite elem_of_pageUrls. intros (p & Hp & Heq).
  apply pageUrl_inj in Heq; lia.
Qed.

Lemma crawlFrom_throw fuel page allPosts log e :
  page <= maxPages -> fetchFn (pageUrl baseUrl page) = Throw e ->
  crawlFrom fetchFn parse baseUrl siteUrl (S fuel) page allPosts log =
  Some (mkCrawl allPosts (log ++ [pageUrl baseUrl page])).
Proof.
  intros Hle Hf. cbn [crawlFrom]. apply Z.leb_le in Hle. rewrite Hle.
  unfold tryPage. by rewrite Hf.
Qed.

Lemma crawlFrom_empty fuel page allPosts log html :
  page <= maxPages -> fetchFn (pageUrl baseUrl page) = Normal html ->
  parse html siteUrl = Normal [] ->
  crawlFrom fetchFn parse baseUrl siteUrl (S fuel) page allPosts log =
  Some (mkCrawl allPosts (log ++ [pageUrl baseUrl page])).
Proof.
  intros Hle Hf Hp. cbn [crawlFrom]. apply Z.leb_le in Hle. rewrite Hle.
  unfold tryPage. rewrite Hf. unfold mbind, Completion_bind. by rewrite Hp.
Qed.

Lemma pageUrls_snoc start n :
  pageUrls baseUrl start (S n) =
  pageUrls baseUrl start n ++ [pageUrl baseUrl (start + Z.of_nat n)].
Proof. unfold pageUrls. by rewrite seq_S, fmap_app. Qed.

Lemma fetchCursorPosts_fetch_throws pages e :
  pagesContinue fetchFn parse baseUrl siteUrl 1 pages ->
  (length pages < 100)%nat ->
  fetchFn (pageUrl baseUrl (1 + Z.of_nat (length pages))) = Throw e ->
  fetchCursorPosts fetchFn parse baseUrl siteUrl =
  Some (mkCrawl (concat pages) (pageUrls baseUrl 1 (S (length pages)))).
Proof.
  intros Hc Hlen Hthrow. unfold fetchCursorPosts.
  replace (S (Z.to_nat maxPages))
    with (length pages + S (100 - length pages))%nat by (unfold maxPages; lia).
  rewrite crawlFrom_pages; [|done|unfold maxPages; lia].
  rewrite (crawlFrom_throw _ _ _ _ e); [|unfold maxPages; lia|done].
  by rewrite pageUrls_snoc.
Qed.

Lemma fetchCursorPosts_empty_page pages html :
  pagesContinue fetchFn parse baseUrl siteUrl 1 pages ->
  (length pages < 100)%nat ->
  fetchFn (pageUrl baseUrl (1 + Z.of_nat (length pages))) = Normal html ->
  parse html siteUrl = Normal [] ->
  fetchCursorPosts fetchFn parse baseUrl siteUrl =
  Some (mkCrawl (concat pages) (pageUrls baseUrl 1 (S (length pages)))).
Proof.
  intros Hc Hlen Hf Hp. unfold fetchCursorPosts.
  replace (S (Z.to_nat maxPages))
    with (length pages + S (100 - length pages))%nat by (unfold maxPages; lia).
  rewrite crawlFrom_pages; [|done|unfold maxPages; lia].
  rewrite (crawlFrom_empty _ _ _ _ html); [|unfold maxPages; lia|done..].
  by rewrite pageUrls_snoc.
Qed.

Lemma fetchOnce_throws e :
  fetchFn baseUrl = Throw e -> fetchOnce fetchFn parse baseUrl siteUrl = [].
Proof. intros H. unfold fetchOnce. by rewrite H. Qed.

End CrawlFacts.

(** C5. For every injected fetch function and parser, the paginated crawl
    comes to an end and requests at most 100 pages: what it requests is the
    URLs of the pages 1 to [n] for some [n <= 100], one per iteration of its
    loop, and never the URL of a page beyond 100. The same holds of the
    crawl of the single-source script. *)
Theorem pagination_ceiling :
  (∀ (fetchFn : jsstr -> Completion jsstr)
     (parse : jsstr -> jsstr -> Completion (list BlogPost))
     (baseUrl siteUrl : jsstr),
     ∃ c n, fetchCursorPosts fetchFn parse baseUrl siteUrl = Some c
            ∧ (n <= 100)%nat
            ∧ length (requested c) = n
            ∧ requested c = pageUrls baseUrl 1 n
            ∧ ∀ page, 100 < page -> pageUrl baseUrl page ∉ requested c)
  ∧ (∀ (fetchPage : jsstr -> Completion jsstr)
       (parseBlogPage : jsstr -> Completion (list BlogPost)),
       ∃ c n, fetchAllPosts fetchPage parseBlogPage = Some c
              ∧ (n <= 100)%nat
              ∧ length (requested c) = n
              ∧ requested c = pageUrls BLOG_URL 1 n
              ∧ ∀ page, 100 < page -> pageUrl BLOG_URL page ∉ requested c).
Proof.
  split.
  - intros fetchFn parse baseUrl siteUrl.
    destruct (fetchCursorPosts_ceiling fetchFn parse baseUrl siteUrl)
      as (c & n & Hc & Hn & Hr & Hp).
    exists c, n. repeat split; try done.
    rewrite Hr. unfold pageUrls. by rewrite length_fmap, length_seq.
  - intros fetchPage parseBlogPage. unfold fetchAllPosts.
    destruct (fetchCursorPosts_ceiling fetchPage
                (fun html _ => parseBlogPage html) BLOG_URL SITE_URL)
      as (c & n & -> & Hn & Hr & Hp).
    eexists _, n. split; [done|]. cbn [requested]. repeat split; try done.
    rewrite Hr. unfold pageUrls. by rewrite length_fmap, length_seq.
Qed.

(** C6. A failing fetch never leaves a crawler as a failure. When the
    pages before it were fetched and the crawl went on from each, and the
    fetch of the next page throws, the paginated crawl ends there and
    returns exactly the posts of the pages before; and a single-page crawler
    whose fetch throws returns the empty list. *)
Theorem fetch_failure_absorbed
  (fetchFn : jsstr -> Completion jsstr)
  (parse : jsstr -> jsstr -> Completion (list BlogPost))
  (baseUrl siteUrl : jsstr) (pages : list (list BlogPost)) (e : jsstr) :
  pagesContinue fetchFn parse baseUrl siteUrl 1 pages ->
  (length pages < 100)%nat ->
  fetchFn (pageUrl baseUrl (1 + Z.of_nat (length pages))) = Throw e ->
  fetchCursorPosts fetchFn parse baseUrl siteUrl =
    Some (mkCrawl (concat pages) (pageUrls baseUrl 1 (S (length pages))))
  ∧ (∀ fetch1 parse1 listingUrl e1,
       fetch1 listingUrl = Throw e1 ->
       fetchClaudePosts fetch1 parse1 listingUrl siteUrl = []
       ∧ fetchAnthropicEngineeringPosts fetch1 parse1 listingUrl siteUrl = []
       ∧ fetchAnthropicResearchPosts fetch1 parse1 listingUrl siteUrl = []).
Proof.
  intros Hc Hlen Hthrow. split.
  - by apply fetchCursorPosts_fetch_throws with (e := e).
  - intros fetch1 parse1 listingUrl e1 H1.
    unfold fetchClaudePosts, fetchAnthropicEngineeringPosts,
      fetchAnthropicResearchPosts.
    by rewrite !(fetchOnce_throws _ _ _ _ e1 H1).
Qed.

Lemma fetch_failure_absorbed_witness :
  fetchCursorPosts (stubFetch twoPagesThenFailure) stubParse stubListing
                   stubSite
  = Some (mkCrawl [stubPost stubSite (js "one /blog/page/2");
                   stubPost stubSite (js "two /blog/page/3")]
                  (pageUrls stubListing 1 3)).
Proof.
  apply (fetch_failure_absorbed (stubFetch twoPagesThenFailure) stubParse
           stubListing stubSite
           [[stubPost stubSite (js "one /blog/page/2")];
            [stubPost stubSite (js "two /blog/page/3")]]
           (js "Failed to fetch")).
  - intros [|[|i]] posts Hi; [| |by destruct i];
      injection Hi as <-; eexists;
      (split; [vm_compute; reflexivity|]);
      (split; [vm_compute; reflexivity|]);
      (split; [discriminate|vm_compute; reflexivity]).
  - simpl. lia.
  - vm_compute. reflexivity.
Defined.

(** C4, as amended. For every fetch stub whose pages 1, 2 and 3 parse to
    non-empty results and each contain the reference to the page after it,
    and whose page 4 parses to nothing, the paginated crawl returns the
    posts of pages 1 to 3 in page order, having requested pages 1 to 4 and
    never page 5. *)
Theorem pagination_stops_at_empty_page
  (fetchFn : jsstr -> Completion jsstr)
  (parse : jsstr -> jsstr -> Completion (list BlogPost))
  (baseUrl siteUrl : jsstr) (posts1 posts2 posts3 : list BlogPost)
  (html4 : jsstr) :
  pagesContinue fetchFn parse baseUrl siteUrl 1 [posts1; posts2; posts3] ->
  fetchFn (pageUrl baseUrl 4) = Normal html4 ->
  parse html4 siteUrl = Normal [] ->
  ∃ c, fetchCursorPosts fetchFn parse baseUrl siteUrl = Some c
       ∧ crawled c = posts1 ++ posts2 ++ posts3
       ∧ requested c = [pageUrl baseUrl 1; pageUrl baseUrl 2;
                        pageUrl baseUrl 3; pageUrl baseUrl 4]
       ∧ pageUrl baseUrl 5 ∉ requested c.
Proof.
  intros Hc Hf Hp. eexists. split.
  - apply (fetchCursorPosts_empty_page _ _ _ _ [posts1; posts2; posts3] html4);
      [done|cbn; lia|done|done].
  - cbn [crawled requested concat]. rewrite app_nil_r.
    split; [done|]. split; [done|].
    change (pageUrl baseUrl 5 ∉ pageUrls baseUrl 1 4).
    rewrite elem_of_pageUrls. intros (p & Hp5 & Heq).
    apply pageUrl_inj in Heq; lia.
Qed.

Lemma pagination_stops_at_empty_page_witness :
  ∃ c, fetchCursorPosts (stubFetch linkedPages) stubParse stubListing stubSite
       = Some c
       ∧ crawled c = [stubPost stubSite (js "one /blog/page/2")]
                     ++ [stubPost stubSite (js "two /blog/page/3")]
                     ++ [stubPost stubSite (js "three /blog/page/4")]
       ∧ requested c = [pageUrl stubListing 1; pageUrl stubListing 2;
                        pageUrl stubListing 3; pageUrl stubListing 4]
       ∧ pageUrl stubListing 5 ∉ requested c.
Proof.
  apply (pagination_stops_at_empty_page (stubFetch linkedPages) stubParse
           stubListing stubSite _ _ _ (js "empty")).
  - intros [|[|[|i]]] posts Hi; [| | |by destruct i];
      injection Hi as <-; eexists;
      (split; [vm_compute; reflexivity|]);
      (split; [vm_compute; reflexivity|]);
      (split; [discriminate|vm_compute; reflexivity]).
  - vm_compute. reflexivity.
  - vm_compute. reflexivity.
Defined.

(** C4, as stated, fails: the stub below yields non-empty parse results for
    pages 1, 2 and 3 and an empty one for page 4, yet the crawl stops after
    page 1, whose text does not mention page 2, and returns its posts
    only. *)
Lemma pagination_needs_next_reference :
  (stubFetch unlinkedPages (pageUrl stubListing 1) = Normal (js "one")
   ∧ stubParse (js "one") stubSite = Normal [stubPost stubSite (js "one")])
  ∧ (stubFetch unlinkedPages (pageUrl stubListing 2) = Normal (js "two")
     ∧ stubParse (js "two") stubSite = Normal [stubPost stubSite (js "two")])
  ∧ (stubFetch unlinkedPages (pageUrl stubListing 3) = Normal (js "three")
     ∧ stubParse (js "three") stubSite
       = Normal [stubPost stubSite (js "three")])
  ∧ (stubFetch unlinkedPages (pageUrl stubListing 4) = Normal (js "empty")
     ∧ stubParse (js "empty") stubSite = Normal [])
  ∧ fetchCursorPosts (stubFetch unlinkedPages) stubParse stubListing stubSite
    = Some (mkCrawl [stubPost stubSite (js "one")] [stubListing])
  ∧ [stubPost stubSite (js "one")]
    ≠ [stubPost stubSite (js "one")] ++ [stubPost stubSite (js "two")]
      ++ [stubPost stubSite (js "three")].
Proof.
  repeat split; try (vm_compute; reflexivity). discriminate.
Qed.

(** ** Parsers *)

Section ParserFacts.

Lemma addPost_spec posts post :
  (falsy (title post) || falsy (link post) = true ∧ addPost posts post = posts)
  ∨ (truthy (title post) = true ∧ truthy (link post) = true
     ∧ addPost posts post = posts ++ [post]).
Proof.
  unfold addPost, truthy.
  destruct (falsy (title post)), (falsy (link post)); cbn; auto.
Qed.

Lemma isNavigation_nonempty href : isNavigation href = false -> href ≠ [].
Proof. by intros H ->. Qed.

Lemma cursorCard_adds siteUrl posts el :
  cursorCard siteUrl posts el = posts
  ∨ ∃ p, cursorCard siteUrl posts el = posts ++ [p] ∧ cardPost siteUrl p.
Proof.
  unfold cursorCard. destruct (attr el (js "href")) as [href|]; [|by left].
  destruct (isNavigation href) eqn:Hnav; [by left|].
  match goal with |- context [addPost posts ?p] =>
    destruct (addPost_spec posts p) as [[_ ->]|(Ht & Hl & ->)] end;
    [by left|right].
  eexists. split; [done|]. repeat split; try done.
  - apply normalizeText_wsNormalized.
  - by exists href.
Qed.

Lemma nth_0_elem_of (lines : list jsstr) :
  lines ≠ [] -> List.nth 0 lines [] ∈ lines.
Proof. destruct lines; [done|]. intros _. apply elem_of_cons. by left. Qed.

Lemma cursorFallback_adds siteUrl posts el :
  cursorFallback siteUrl posts el = posts
  ∨ ∃ p, cursorFallback siteUrl posts el = posts ++ [p]
         ∧ fallbackPost siteUrl p.
Proof.
  unfold cursorFallback. destruct (attr el (js "href")) as [href|]; [|by left].
  destruct (isNavigation href) eqn:Hnav; [by left|].
  destruct (length (textLines (textContent el)) <? 2)%nat eqn:Hlen; [by left|].
  match goal with |- context [addPost posts ?p] =>
    destruct (addPost_spec posts p) as [[_ ->]|(Ht & Hl & ->)] end;
    [by left|right].
  eexists. split; [done|]. repeat split; try done.
  - cbn [title]. apply textLines_spec with (text := textContent el).
    apply nth_0_elem_of. intros Hnil. by rewrite Hnil in Hlen.
  - by exists href.
Qed.

Lemma fold_left_adds {A B} (P : A -> Prop) (step : list A -> B -> list A) :
  (∀ acc x, step acc x = acc ∨ ∃ a, step acc x = acc ++ [a] ∧ P a) ->
  ∀ l acc, Forall P acc -> Forall P (List.fold_left step l acc).
Proof.
  intros Hstep. induction l as [|x l IH]; intros acc Hacc; [done|].
  cbn [List.fold_left]. apply IH.
  destruct (Hstep acc x) as [->|(a & -> & Ha)]; [done|].
  apply Forall_app. by split; [|constructor].
Qed.

Lemma cardPost_fallbackPost siteUrl p :
  cardPost siteUrl p -> fallbackPost siteUrl p.
Proof.
  intros (Ht & Hl & Hn & Hh). repeat split; try done.
  by apply wsNormalized_wsTrimmed.
Qed.

Lemma parseCursorBlog_posts doc siteUrl :
  Forall (cardPost siteUrl)
    (List.fold_left (cursorCard siteUrl) (selectInArticle isBlogAnchor doc) [])
  ∧ Forall (fallbackPost siteUrl) (parseCursorBlog doc siteUrl).
Proof.
  assert (Hcards : Forall (cardPost siteUrl)
    (List.fold_left (cursorCard siteUrl) (selectInArticle isBlogAnchor doc) [])).
  { apply fold_left_adds; [apply cursorCard_adds|constructor]. }
  split; [done|]. unfold parseCursorBlog.
  destruct (length _ =? 0)%nat.
  - apply fold_left_adds; [apply cursorFallback_adds|].
    eapply Forall_impl; [done|apply cardPost_fallbackPost].
  - eapply Forall_impl; [done|apply cardPost_fallbackPost].
Qed.

Lemma claudeLine_keepsOrTakes : keepsOrTakes claudeLine.
Proof.
  intros f line. unfold claudeLine.
  repeat match goal with |- context [if ?b then _ else _] => destruct b end;
    cbn; auto.
Qed.

Lemma engineeringLine_keepsOrTakes : keepsOrTakes engineeringLine.
Proof.
  intros f line. unfold engineeringLine.
  repeat match goal with |- context [if ?b then _ else _] => destruct b end;
    cbn; auto.
Qed.

Lemma researchLine_keepsOrTakes : keepsOrTakes researchLine.
Proof.
  intros f line. unfold researchLine.
  repeat match goal with |- context [if ?b then _ else _] => destruct b end;
    cbn; auto.
Qed.

Lemma lineLoop_title lineStep lines : keepsOrTakes lineStep ->
  ∀ f, fTitle (List.fold_left lineStep lines f) = fTitle f
       ∨ fTitle (List.fold_left lineStep lines f) ∈ lines.
Proof.
  intros Hstep. induction lines as [|line lines IH]; intros f; [by left|].
  cbn [List.fold_left]. destruct (IH (lineStep f line)) as [->|Hin].
  - destruct (Hstep f line) as [->| ->]; [by left|right]. apply elem_of_cons; auto.
  - right. apply elem_of_cons; auto.
Qed.

Lemma scanAnchor_adds lineStep defaultCategory sourceName fullUrl st el :
  keepsOrTakes lineStep ->
  scanAnchor lineStep defaultCategory sourceName fullUrl st el = st
  ∨ ∃ p, scanAnchor lineStep defaultCategory sourceName fullUrl st el
         = (st.1 ++ [p], {[fullUrl]} ∪ st.2)
         ∧ scannedPost fullUrl p.
Proof.
  intros Hstep. destruct st as [posts seen]. unfold scanAnchor.
  destruct (decide (fullUrl ∈ seen)); [by left|].
  destruct (length _ =? 0)%nat; [by left|].
  destruct (falsy (fTitle _)) eqn:Hf; [by left|right].
  eexists. split; [done|]. repeat split.
  - cbn [title]. rewrite normalizeText_truthy.
    destruct (lineLoop_title lineStep (textLines (textContent el)) Hstep
                (mkFields [] [] defaultCategory)) as [Heq|Hin].
    + by rewrite Heq in Hf.
    + by apply textLines_spec in Hin as (_ & _ & ?).
  - apply normalizeText_wsNormalized.
Qed.

Lemma fullUrlOf_truthy siteUrl href : href ≠ [] -> truthy (fullUrlOf siteUrl href) = true.
Proof.
  intros Hh. unfold fullUrlOf. destruct (startsWith href (js "http")).
  - by destruct href.
  - by apply truthy_app_r.
Qed.

Lemma heuristic_adds (step : Scan -> Node -> Scan) :
  (∀ st el, step st el = st
            ∨ ∃ p s, step st el = (st.1 ++ [p], s) ∧ heuristicPost p) ->
  ∀ anchors st, Forall heuristicPost st.1 ->
                Forall heuristicPost (List.fold_left step anchors st).1.
Proof.
  intros Hstep. induction anchors as [|el anchors IH]; intros st Hst; [done|].
  cbn [List.fold_left]. apply IH.
  destruct (Hstep st el) as [->|(p & s & -> & Hp)]; [done|].
  cbn [fst]. apply Forall_app. by split; [|constructor].
Qed.

Lemma claudeAnchor_adds siteUrl st el :
  claudeAnchor siteUrl st el = st
  ∨ ∃ p s, claudeAnchor siteUrl st el = (st.1 ++ [p], s) ∧ heuristicPost p.
Proof.
  unfold claudeAnchor.
  destruct (str_eqb _ _ || str_eqb _ _ || negb _) eqn:Hskip; [by left|].
  apply orb_false_iff in Hskip as [_ Hinc%negb_false_iff].
  destruct (scanAnchor_adds claudeLine (js "Blog") (js "Claude Blog")
              (fullUrlOf siteUrl (hrefOrEmpty el)) st el
              claudeLine_keepsOrTakes) as [->|(p & -> & Ht & Hn & Hl)];
    [by left|right].
  exists p, ({[fullUrlOf siteUrl (hrefOrEmpty el)]} ∪ st.2).
  split; [done|]. repeat split; try done.
  rewrite Hl. apply fullUrlOf_truthy.
  by apply (includes_nonempty _ (js "/blog/")).
Qed.

Lemma engineeringAnchor_adds siteUrl st el :
  engineeringAnchor siteUrl st el = st
  ∨ ∃ p s, engineeringAnchor siteUrl st el = (st.1 ++ [p], s)
           ∧ heuristicPost p.
Proof.
  unfold engineeringAnchor.
  destruct (negb _ && negb _) eqn:Hskip; [by left|].
  destruct (str_eqb _ _ || str_eqb _ _); [by left|].
  destruct (scanAnchor_adds engineeringLine (js "Engineering")
              (js "Anthropic Engineering")
              (fullUrlOf siteUrl (hrefOrEmpty el)) st el
              engineeringLine_keepsOrTakes) as [->|(p & -> & Ht & Hn & Hl)];
    [by left|right].
  exists p, ({[fullUrlOf siteUrl (hrefOrEmpty el)]} ∪ st.2).
  split; [done|]. repeat split; try done.
  rewrite Hl. apply fullUrlOf_truthy.
  apply andb_false_iff in Hskip as [H%negb_false_iff|H%negb_false_iff].
  - by apply (includes_nonempty _ (js "/engineering/")).
  - by apply (includes_nonempty _ (js "/news/")).
Qed.

Lemma researchAnchor_adds siteUrl st el :
  researchAnchor siteUrl st el = st
  ∨ ∃ p s, researchAnchor siteUrl st el = (st.1 ++ [p], s) ∧ heuristicPost p.
Proof.
  unfold researchAnchor.
  destruct (negb _ && negb _) eqn:Hskip; [by left|].
  destruct (str_eqb _ _ || str_eqb _ _); [by left|].
  destruct (scanAnchor_adds researchLine (js "Research")
              (js "Anthropic Research")
              (fullUrlOf siteUrl (hrefOrEmpty el)) st el
              researchLine_keepsOrTakes) as [->|(p & -> & Ht & Hn & Hl)];
    [by left|right].
  exists p, ({[fullUrlOf siteUrl (hrefOrEmpty el)]} ∪ st.2).
  split; [done|]. repeat split; try done.
  rewrite Hl. apply fullUrlOf_truthy.
  apply andb_false_iff in Hskip as [H%negb_false_iff|H%negb_false_iff].
  - by apply (includes_nonempty _ (js "/research/")).
  - by apply (includes_nonempty _ (js "/news/")).
Qed.

Lemma isNavAnchor_href el :
  isNavAnchor el = true ->
  attr el (js "href") = Some (js "/blog/page/2")
  ∨ attr el (js "href") = Some (js "/blog/topic/ai").
Proof.
  unfold isNavAnchor, str_eqb. destruct (attr el (js "href")); [|done].
  intros [H|H]%orb_true_iff; apply bool_decide_eq_true in H; subst; auto.
Qed.

Lemma fold_left_skip {S} (step : S -> Node -> S) (skip : Node -> bool) :
  (∀ st el, skip el = true -> step st el = st) ->
  ∀ anchors st,
    List.fold_left step (List.filter (fun el => negb (skip el)) anchors) st
    = List.fold_left step anchors st.
Proof.
  intros Hskip. induction anchors as [|el anchors IH]; intros st; [done|].
  cbn [List.filter List.fold_left]. destruct (skip el) eqn:Hel; cbn [negb].
  - rewrite (Hskip st el Hel). apply IH.
  - cbn [List.fold_left]. apply IH.
Qed.

Lemma nav_steps siteUrl el :
  isNavAnchor el = true ->
  (∀ posts, cursorCard siteUrl posts el = posts)
  ∧ (∀ posts, cursorFallback siteUrl posts el = posts)
  ∧ (∀ st, engineeringAnchor siteUrl st el = st)
  ∧ (∀ st, researchAnchor siteUrl st el = st).
Proof.
  intros Hnav. apply isNavAnchor_href in Hnav.
  unfold cursorCard, cursorFallback, engineeringAnchor, researchAnchor,
    hrefOrEmpty.
  destruct Hnav as [-> | ->]; repeat split; intros; reflexivity.
Qed.






Lemma filter_ext_elem {A} (p q : A -> bool) (l : list A) :
  (∀ x, x ∈ l -> p x = q x) -> List.filter p l = List.filter q l.
Proof.
  induction l as [|x l IH]; intros H; [done|]. cbn.
  rewrite (H x) by (apply elem_of_cons; by left).
  rewrite IH; [done|]. intros y Hy. apply H, elem_of_cons. by right.
Qed.


End ParserFacts.

(** The script asks for the attribute [dateTime]; a tree whose attribute
    names are in lower case has none of that name. *)
Lemma dateTime_not_stored (attribs : list (jsstr * jsstr)) :
  lowerCaseNames attribs = true -> lookupAttr attribs (js "dateTime") = None.
Proof.
  induction attribs as [|[k v] rest IH]; [done|].
  cbn [lowerCaseNames List.forallb lookupAttr fst].
  intros [Hk Hrest]%andb_true_iff.
  destruct (str_eqb k (js "dateTime")) eqn:Heq; [|by apply IH].
  apply bool_decide_eq_true in Heq. subst k. discriminate Hk.
Qed.

(** C7 fails on the code. On the document of the card scenario, one article
    whose anchor to /blog/example has the paragraphs "Example Title" and
    "Example description", the category label "News · " and a time element
    with the date attribute 2025-11-13, the Cursor parser returns exactly
    one post with the title, link, description and category of the claim,
    but its date is the visible text of the time element, normalised: "Nov
    13, 2025" when the element shows that, the empty string when it shows
    nothing, and never the attribute's value unless the element shows it.
    The script asks for the attribute under the name [dateTime], and no
    element of a loaded tree has an attribute of that name. *)
Theorem card_parser_scenario (siteUrl timeText : jsstr) :
  parseCursorBlog (cardScenario timeText) siteUrl =
    [mkPost (js "Example Title") (siteUrl ++ js "/blog/example")
            (js "Example description") (js "News") (normalizeText timeText)
            (js "Cursor")]
  ∧ parseCursorBlog (cardScenario (js "Nov 13, 2025")) siteUrl =
    [mkPost (js "Example Title") (siteUrl ++ js "/blog/example")
            (js "Example description") (js "News") (js "Nov 13, 2025")
            (js "Cursor")]
  ∧ parseCursorBlog (cardScenario []) siteUrl =
    [mkPost (js "Example Title") (siteUrl ++ js "/blog/example")
            (js "Example description") (js "News") [] (js "Cursor")]
  ∧ (∀ name attribs children,
       lowerCaseNames attribs = true ->
       attr (Element name attribs children) (js "dateTime") = None).
Proof.
  split; [|split; [|split]].
  - transitivity
      [mkPost (js "Example Title") (siteUrl ++ js "/blog/example")
              (js "Example description") (js "News")
              (normalizeText ((timeText ++ []) ++ [])) (js "Cursor")];
      [|by rewrite !app_nil_r].
    destruct siteUrl; vm_compute; reflexivity.
  - destruct siteUrl; vm_compute; reflexivity.
  - destruct siteUrl; vm_compute; reflexivity.
  - intros name attribs children. apply dateTime_not_stored.
Qed.

(** C8, as amended. An anchor whose href is "/blog/page/2" or
    "/blog/topic/ai" adds no post in either scan of the Cursor parser nor in
    the Anthropic engineering and research parsers: their callbacks leave
    the posts as they are, no post of the Cursor parser links to such a
    page, and the engineering and research parsers return what they return
    on the selection without these anchors. *)
Theorem navigation_excluded (siteUrl : jsstr) :
  (∀ el, isNavAnchor el = true ->
     (∀ posts, cursorCard siteUrl posts el = posts)
     ∧ (∀ posts, cursorFallback siteUrl posts el = posts)
     ∧ (∀ st, engineeringAnchor siteUrl st el = st)
     ∧ (∀ st, researchAnchor siteUrl st el = st))
  ∧ (∀ doc p, p ∈ parseCursorBlog doc siteUrl ->
       link p ≠ siteUrl ++ js "/blog/page/2"
       ∧ link p ≠ siteUrl ++ js "/blog/topic/ai")
  ∧ (∀ doc,
       parseAnthropicEngineering doc siteUrl
       = (List.fold_left (engineeringAnchor siteUrl)
            (List.filter (fun el => negb (isNavAnchor el))
               (select (hasName "a") doc)) ([], ∅)).1
       ∧ parseAnthropicResearch doc siteUrl
         = (List.fold_left (researchAnchor siteUrl)
              (List.filter (fun el => negb (isNavAnchor el))
                 (select (hasName "a") doc)) ([], ∅)).1).
Proof.
  split; [apply nav_steps|]. split.
  - intros doc p Hp.
    destruct (parseCursorBlog_posts doc siteUrl) as (_ & Hf).
    rewrite Forall_forall in Hf.
    destruct (Hf p Hp) as (_ & _ & _ & href & -> & Hnav).
    split; intros Heq%app_inv_head; subst href; discriminate.
  - intros doc. unfold parseAnthropicEngineering, parseAnthropicResearch.
    split; f_equal; symmetry; apply fold_left_skip; intros st el Hel;
      by apply nav_steps.
Qed.

Lemma navigation_excluded_witness :
  cursorCard (js "https://cursor.com") [] olderPostsAnchor = [].
Proof.
  apply (proj1 (navigation_excluded (js "https://cursor.com"))). reflexivity.
Defined.

(** C8, as stated, fails for the Claude blog parser: it skips the bare
    listing link only, and a pagination anchor with a long enough line
    becomes a post. *)
Lemma claude_parser_keeps_navigation :
  Forall (fun el => isNavAnchor el = true)
         (select isAnchorContainingBlog claudeNavDoc)
  ∧ parseClaudeBlog claudeNavDoc (js "https://claude.com") =
    [mkPost (js "Next page of results") (js "https://claude.com/blog/page/2")
            [] (js "Blog") [] (js "Claude Blog")].
Proof. split; [repeat constructor|vm_compute; reflexivity]. Qed.

(** C10, as amended. Every post any parser returns has a non-empty title
    and a non-empty link, and a record without a title or a link is dropped
    by [addPost]. The title is whitespace-normalized in the posts of the
    card scan and of the three heuristic parsers; in the posts of the
    fallback scan it is a line of the anchor text, trimmed at both ends. *)
Theorem parsed_posts_valid (doc : Document) (siteUrl : jsstr) :
  Forall (fallbackPost siteUrl) (parseCursorBlog doc siteUrl)
  ∧ Forall (cardPost siteUrl)
      (List.fold_left (cursorCard siteUrl)
         (selectInArticle isBlogAnchor doc) [])
  ∧ (List.fold_left (cursorCard siteUrl)
        (selectInArticle isBlogAnchor doc) [] ≠ [] ->
     parseCursorBlog doc siteUrl
     = List.fold_left (cursorCard siteUrl)
         (selectInArticle isBlogAnchor doc) [])
  ∧ Forall heuristicPost (parseClaudeBlog doc siteUrl)
  ∧ Forall heuristicPost (parseAnthropicEngineering doc siteUrl)
  ∧ Forall heuristicPost (parseAnthropicResearch doc siteUrl)
  ∧ ∀ posts post, falsy (title post) || falsy (link post) = true ->
                  addPost posts post = posts.
Proof.
  destruct (parseCursorBlog_posts doc siteUrl) as [Hc Hf].
  repeat split; try done.
  - unfold parseCursorBlog.
    by destruct (List.fold_left (cursorCard siteUrl) _ []).
  - apply (heuristic_adds _ (claudeAnchor_adds siteUrl)). constructor.
  - apply (heuristic_adds _ (engineeringAnchor_adds siteUrl)). constructor.
  - apply (heuristic_adds _ (researchAnchor_adds siteUrl)). constructor.
  - intros posts post H. unfold addPost. by rewrite H.
Qed.

Lemma parsed_posts_valid_witness :
  addPost [] (mkPost [] (js "https://cursor.com/blog/x") [] (js "post") []
                     (js "Cursor")) = [].
Proof.
  apply (proj2 (proj2 (proj2 (proj2 (proj2 (proj2
           (parsed_posts_valid [] (js "https://cursor.com")))))))).
  reflexivity.
Defined.

(** C10, as stated, fails in the fallback scan: the title is the first line
    of the anchor as it stands between its ends, inner runs of white space
    included. *)
Lemma fallback_title_keeps_inner_spaces :
  parseCursorBlog fallbackDoc (js "https://cursor.com") =
    [mkPost (js "A  B") (js "https://cursor.com/blog/x") [] (js "News")
            (js "Nov 1, 2025") (js "Cursor")]
  ∧ wsNormalized (js "A  B") = false
  ∧ normalizeText (js "A  B") = js "A B".
Proof. repeat split; vm_compute; reflexivity. Qed.




(** * Further properties *)

(** ** Text normalisation, further *)

Section TextFacts.

Lemma replaceWsRuns_fixed s : ∀ b,
  collapsed s = true -> (b = true -> headNotWs s = true) ->
  replaceWsRuns b s = s.
Proof.
  induction s as [|c r IH]; intros b Hc Hb; [done|].
  cbn [collapsed] in Hc. apply andb_true_iff in Hc as [Hc Hr].
  cbn [replaceWsRuns]. destruct (isWs c) eqn:Hws.
  - cbn [negb orb] in Hc. apply andb_true_iff in Hc as [Hsp Hnext].
    apply N.eqb_eq in Hsp. subst c.
    destruct b.
    + specialize (Hb eq_refl). cbn [headNotWs] in Hb. by rewrite Hws in Hb.
    + f_equal. apply IH; [done|]. intros _. by destruct r.
  - f_equal. apply IH; [done|discriminate].
Qed.

Lemma trimStart_fixed s : headNotWs s = true -> trimStart s = s.
Proof.
  destruct s as [|c r]; [done|]. cbn [headNotWs trimStart].
  intros H%negb_true_iff. by rewrite H.
Qed.

Lemma trimEnd_fixed s : spacesSingle s = true -> trimEnd s = s.
Proof.
  induction s as [|c r IH]; [done|]. cbn [spacesSingle trimEnd].
  intros [Hc Hr]%andb_true_iff. rewrite (IH Hr). destruct r as [|d r']; [|done].
  rewrite andb_false_r, orb_false_r in Hc. apply negb_true_iff in Hc.
  by rewrite Hc.
Qed.

Lemma spacesSingle_collapsed s : spacesSingle s = true -> collapsed s = true.
Proof.
  induction s as [|c r IH]; [done|]. cbn [spacesSingle collapsed].
  intros [Hc Hr]%andb_true_iff. rewrite (IH Hr), andb_true_r.
  apply orb_true_iff in Hc as [->|Hc]; [done|].
  apply andb_true_iff in Hc as [-> Hn]. destruct r; [done|].
  rewrite Hn. apply orb_true_r.
Qed.

Lemma wsNormalized_spec s :
  wsNormalized s = true <-> headNotWs s = true ∧ spacesSingle s = true.
Proof.
  unfold wsNormalized. destruct s as [|c r]; [done|].
  cbn [headNotWs]. by rewrite andb_true_iff.
Qed.

Lemma normalizeText_fixed s : wsNormalized s = true -> normalizeText s = s.
Proof.
  intros [Hh Hs]%wsNormalized_spec. unfold normalizeText, trim.
  rewrite replaceWsRuns_fixed; [|by apply spacesSingle_collapsed|discriminate].
  by rewrite trimStart_fixed, trimEnd_fixed.
Qed.

End TextFacts.

(** X1. [normalizeText] is idempotent, and the texts it leaves unchanged
    are exactly the white-space-normal ones: no blank unit at either end,
    and every blank unit a single space that no blank unit follows. *)
Theorem normalizeText_idempotent (text : jsstr) :
  normalizeText (normalizeText text) = normalizeText text
  ∧ (∀ s, normalizeText s = s <-> wsNormalized s = true).
Proof.
  split.
  - apply normalizeText_fixed, normalizeText_wsNormalized.
  - intros s. split; [|apply normalizeText_fixed].
    intros <-. apply normalizeText_wsNormalized.
Qed.

Section InkFacts.

Lemma trimStart_inkOf s : ink (trimStart s) = ink s.
Proof.
  induction s as [|c r IH]; [done|]. cbn [trimStart].
  destruct (isWs c) eqn:Hc; [|done]. unfold ink in *. cbn [List.filter].
  by rewrite Hc.
Qed.

Lemma trimEnd_inkOf s : ink (trimEnd s) = ink s.
Proof.
  induction s as [|c r IH]; [done|]. cbn [trimEnd]. unfold ink in *.
  cbn [List.filter]. rewrite <- IH.
  destruct (trimEnd r) as [|d r'].
  - destruct (isWs c) eqn:Hc; cbn [List.filter negb]; by rewrite ?Hc.
  - done.
Qed.

Lemma replaceWsRuns_inkOf b s : ink (replaceWsRuns b s) = ink s.
Proof.
  revert b. induction s as [|c r IH]; intros b; [done|].
  cbn [replaceWsRuns]. unfold ink in *. cbn [List.filter].
  destruct (isWs c) eqn:Hc; cbn [negb].
  - destruct b; [apply IH|]. cbn [List.filter].
    change (isWs SPACE) with true. cbn [negb]. apply IH.
  - cbn [List.filter]. rewrite Hc. cbn [negb]. f_equal. apply IH.
Qed.

Lemma trimStart_length s : (length (trimStart s) <= length s)%nat.
Proof.
  induction s as [|c r IH]; [done|]. cbn [trimStart].
  destruct (isWs c); cbn [length]; lia.
Qed.

Lemma trimEnd_length s : (length (trimEnd s) <= length s)%nat.
Proof.
  induction s as [|c r IH]; [done|]. cbn [trimEnd].
  destruct (trimEnd r); [destruct (isWs c)|]; cbn [length] in *; lia.
Qed.

Lemma replaceWsRuns_length s : ∀ b,
  (length (replaceWsRuns b s) <= length s)%nat.
Proof.
  induction s as [|c r IH]; intros b; [done|].
  cbn [replaceWsRuns].
  pose proof (IH true). pose proof (IH false).
  destruct (isWs c); [destruct b|]; cbn [length]; lia.
Qed.

End InkFacts.

(** X2. [normalizeText] touches nothing but blank units: the units that
    are not white space come out the same and in the same order, the text
    never gets longer, and the result is empty exactly when the text holds
    only white space. *)
Theorem normalizeText_keeps_ink (text : jsstr) :
  List.filter (fun c => negb (isWs c)) (normalizeText text)
  = List.filter (fun c => negb (isWs c)) text
  ∧ (length (normalizeText text) <= length text)%nat
  ∧ (normalizeText text = [] <->
       List.forallb isWs text = true).
Proof.
  split; [|split].
  - unfold normalizeText, trim.
    change (ink (trimEnd (trimStart (replaceWsRuns false text))) = ink text).
    by rewrite trimEnd_inkOf, trimStart_inkOf, replaceWsRuns_inkOf.
  - unfold normalizeText, trim.
    pose proof (trimEnd_length (trimStart (replaceWsRuns false text))).
    pose proof (trimStart_length (replaceWsRuns false text)).
    pose proof (replaceWsRuns_length text false). lia.
  - pose proof (normalizeText_truthy text) as Ht. unfold truthy in Ht.
    assert (Hink : hasInk text = negb (List.forallb isWs text)).
    { clear Ht. unfold hasInk. induction text as [|c r IH]; [done|].
      cbn [List.existsb List.forallb]. rewrite IH.
      by destruct (isWs c), (List.forallb isWs r). }
    rewrite Hink in Ht. destruct (normalizeText text); cbn in Ht.
    + split; [|done]. intros _. by destruct (List.forallb isWs text).
    + split; [done|]. intros H. by rewrite H in Ht.
Qed.

(** ** Lines and separators *)

Section LineFacts.

Lemma split_pieces sep s piece :
  piece ∈ split sep s ->
  (sep ∉ piece) ∧ ∃ pre post, s = pre ++ piece ++ post.
Proof.
  revert piece. induction s as [|c r IH]; intros piece; cbn [split].
  - intros ->%list_elem_of_singleton. split; [apply not_elem_of_nil|].
    by exists [], [].
  - destruct (N.eqb_spec c sep) as [->|Hne].
    + intros [->|Hin]%elem_of_cons.
      * split; [apply not_elem_of_nil|]. by exists [], (sep :: r).
      * destruct (IH _ Hin) as (Hs & pre & post & ->).
        split; [done|]. by exists (sep :: pre), post.
    + destruct (split sep r) as [|l ls] eqn:Hsp.
      * intros ->%list_elem_of_singleton. split.
        -- by intros ->%list_elem_of_singleton.
        -- by exists [], r.
      * intros [->|Hin]%elem_of_cons.
        -- destruct (IH l) as (Hs & pre & post & Heq);
             [apply elem_of_cons; by left|].
           split.
           ++ intros [->|?]%elem_of_cons; done.
           ++ assert (∃ post', r = l ++ post') as [post' ->].
              { clear -Hsp. revert l ls Hsp.
                induction r as [|d r IHr]; intros l ls; cbn [split].
                - intros [= <- <-]. by exists [].
                - destruct (d =? sep)%N.
                  + intros [= <- <-]. by exists (d :: r).
                  + destruct (split sep r) as [|l' ls'] eqn:E.
                    * intros [= <- <-]. by exists r.
                    * intros [= <- <-].
                      destruct (IHr _ _ eq_refl) as [p ->].
                      by exists p. }
              by exists [], post'.
        -- destruct (IH piece) as (Hs & pre & post & ->);
             [apply elem_of_cons; by right|].
           split; [done|]. by exists (c :: pre), post.
Qed.

Lemma trimStart_suffix s :
  ∃ blanks, s = blanks ++ trimStart s ∧ List.forallb isWs blanks = true.
Proof.
  induction s as [|c r (b & Hb & Hws)]; [by exists []|].
  cbn [trimStart]. destruct (isWs c) eqn:Hc.
  - exists (c :: b). cbn [List.forallb app]. rewrite Hc, Hws.
    split; [by f_equal|done].
  - by exists [].
Qed.

Lemma trimEnd_prefix s :
  ∃ blanks, s = trimEnd s ++ blanks ∧ List.forallb isWs blanks = true.
Proof.
  induction s as [|c r (b & Hb & Hws)]; [by exists []|].
  cbn [trimEnd]. destruct (trimEnd r) as [|d r'] eqn:Hte.
  - cbn [app] in Hb. subst r. destruct (isWs c) eqn:Hc.
    + exists (c :: b). cbn [List.forallb app]. by rewrite Hc, Hws.
    + by exists b.
  - exists b. split; [|done]. cbn [app]. f_equal. exact Hb.
Qed.

Lemma hasInk_forallb s : hasInk s = negb (List.forallb isWs s).
Proof.
  unfold hasInk. induction s as [|c r IH]; [done|].
  cbn [List.existsb List.forallb]. rewrite IH.
  by destruct (isWs c), (List.forallb isWs r).
Qed.

Lemma hasInk_split s :
  List.existsb hasInk (split NEWLINE s) = hasInk s.
Proof.
  induction s as [|c r IH]; [done|]. cbn [split].
  destruct (N.eqb_spec c NEWLINE) as [->|Hne].
  - cbn [List.existsb]. rewrite IH. done.
  - destruct (split NEWLINE r) as [|l ls]; cbn [List.existsb] in *.
    + rewrite !hasInk_cons, <- IH. by rewrite !orb_false_r.
    + rewrite !hasInk_cons, <- IH. by rewrite orb_assoc.
Qed.

Lemma textLines_nil text : textLines text = [] <-> hasInk text = false.
Proof.
  unfold textLines. rewrite <- hasInk_split.
  induction (split NEWLINE text) as [|x xs IH]; [done|].
  cbn [List.map List.filter List.existsb]. rewrite trim_truthy_ink.
  destruct (hasInk x); [done|]. by rewrite IH.
Qed.

End LineFacts.

(** X3. The lines that [split], [trim] and [filter(Boolean)] leave of an
    anchor's text: each is non-empty, has no blank unit at either end,
    holds no newline and is a contiguous piece of the text; and there is no
    line at all exactly when the text holds only white space. *)
Theorem textLines_lines (text : jsstr) :
  (∀ line, line ∈ textLines text ->
     line ≠ [] ∧ wsTrimmed line = true ∧ (NEWLINE ∉ line)
     ∧ ∃ pre post, text = pre ++ line ++ post)
  ∧ (textLines text = [] <-> List.forallb isWs text = true).
Proof.
  split.
  - intros line Hin. pose proof (textLines_spec _ _ Hin) as (Ht & Htr & _).
    split; [by destruct line|]. split; [done|].
    unfold textLines in Hin.
    rewrite list_elem_of_In, List.filter_In, List.in_map_iff in Hin.
    destruct Hin as [(piece & <- & Hp%list_elem_of_In) _].
    apply split_pieces in Hp as (Hsep & pre & post & ->).
    unfold trim.
    destruct (trimStart_suffix piece) as (b1 & H1 & _).
    destruct (trimEnd_prefix (trimStart piece)) as (b2 & H2 & _).
    split.
    + intros Hnl. apply Hsep. rewrite H1, H2, !elem_of_app. auto.
    + exists (pre ++ b1), (b2 ++ post). rewrite H1 at 1. rewrite H2 at 1.
      by rewrite <- !app_assoc.
  - rewrite textLines_nil, hasInk_forallb. by destruct (List.forallb isWs text).
Qed.

Section SeparatorFacts.

Lemma trimStart_blanks blanks rest :
  List.forallb isWs blanks = true -> trimStart (blanks ++ rest) = trimStart rest.
Proof.
  induction blanks as [|c b IH]; [done|]. cbn [List.forallb app trimStart].
  intros [-> Hb]%andb_true_iff. by apply IH.
Qed.

Lemma trimStart_all_blank blanks :
  List.forallb isWs blanks = true -> trimStart blanks = [].
Proof.
  intros H. rewrite <- (app_nil_r blanks). by rewrite trimStart_blanks.
Qed.

Lemma sepToEnd_blank_cons c s : isWs c = true -> sepToEnd (c :: s) = sepToEnd s.
Proof. intros Hc. unfold sepToEnd. cbn [trimStart]. by rewrite Hc. Qed.

Lemma sepToEnd_after (w ws1 ws2 : jsstr) :
  MIDDOT ∉ w ->
  List.forallb isWs ws1 = true -> List.forallb isWs ws2 = true ->
  sepToEnd (w ++ ws1 ++ MIDDOT :: ws2) = negb (hasInk w).
Proof.
  intros Hw H1 H2. induction w as [|c w IH].
  - unfold sepToEnd. cbn [app]. rewrite trimStart_blanks by done.
    cbn. by rewrite trimStart_all_blank.
  - cbn [app]. rewrite hasInk_cons. destruct (isWs c) eqn:Hc.
    + rewrite sepToEnd_blank_cons by done. cbn [negb orb]. apply IH.
      intros ?. apply Hw, elem_of_cons. by right.
    + unfold sepToEnd. cbn [trimStart]. rewrite Hc. cbn [negb orb].
      destruct (N.eqb_spec c MIDDOT) as [->|?]; [|done].
      exfalso. apply Hw, elem_of_cons. by left.
Qed.

Lemma sepToEnd_without_dot s : MIDDOT ∉ s -> sepToEnd s = false.
Proof.
  intros Hs. unfold sepToEnd.
  destruct (trimStart_suffix s) as (b & Heq & _).
  destruct (trimStart s) as [|c r]; [done|].
  destruct (N.eqb_spec c MIDDOT) as [->|?]; [|done].
  exfalso. apply Hs. rewrite Heq, elem_of_app, elem_of_cons. auto.
Qed.

Lemma stripTrailingSep_unfold s :
  stripTrailingSep s =
  if sepToEnd s then []
  else match s with
       | [] => []
       | c :: r => c :: stripTrailingSep r
       end.
Proof. by destruct s. Qed.

End SeparatorFacts.

(** X4. Removing the trailing separator of a category: a text without a
    middle dot is returned unchanged, and a text that ends in blanks, a
    middle dot and blanks loses all of that together with the white space
    before it. *)
Theorem stripTrailingSep_spec :
  (∀ s, MIDDOT ∉ s -> stripTrailingSep s = s)
  ∧ (∀ w ws1 ws2,
       MIDDOT ∉ w ->
       List.forallb isWs ws1 = true -> List.forallb isWs ws2 = true ->
       stripTrailingSep (w ++ ws1 ++ MIDDOT :: ws2) = trimEnd w).
Proof.
  split.
  - induction s as [|c r IH]; intros Hs; [done|].
    rewrite stripTrailingSep_unfold, sepToEnd_without_dot by done.
    f_equal. apply IH. intros ?. apply Hs, elem_of_cons. by right.
  - intros w ws1 ws2 Hw H1 H2. induction w as [|c w IH].
    + rewrite stripTrailingSep_unfold.
      by rewrite (sepToEnd_after [] _ _ Hw H1 H2).
    + assert (Hw' : MIDDOT ∉ w).
      { intros ?. apply Hw, elem_of_cons. by right. }
      rewrite stripTrailingSep_unfold.
      rewrite sepToEnd_after, hasInk_cons by done.
      cbn [app trimEnd]. rewrite (IH Hw').
      pose proof (trimEnd_truthy_ink w) as Ht.
      destruct (isWs c) eqn:Hc; cbn [negb orb].
      * destruct (hasInk w); destruct (trimEnd w); cbn in Ht; try done.
      * by destruct (trimEnd w).
Qed.

(** X4 on the category text [product], with and without a trailing
    separator. *)
Lemma stripTrailingSep_spec_witness :
  stripTrailingSep (js "product" ++ [SPACE] ++ MIDDOT :: [SPACE])
  = js "product"
  ∧ stripTrailingSep (js "product") = js "product".
Proof.
  split.
  - apply (proj2 stripTrailingSep_spec (js "product") [SPACE] [SPACE]).
    + vm_compute. intros H.
      repeat (apply elem_of_cons in H as [H|H]; [discriminate H|]).
      by apply elem_of_nil in H.
    + reflexivity.
    + reflexivity.
  - apply (proj1 stripTrailingSep_spec (js "product")).
    vm_compute. intros H.
    repeat (apply elem_of_cons in H as [H|H]; [discriminate H|]).
    by apply elem_of_nil in H.
Defined.

(** ** The meta line *)

Section MetaFacts.

Lemma isWs_not_word c : isWs c = true -> isWord c = false.
Proof.
  unfold isWs, isWord, isDigit.
  rewrite !orb_true_iff, !andb_true_iff, !N.leb_le, !N.eqb_eq. intros H.
  apply not_true_is_false.
  rewrite !orb_true_iff, !andb_true_iff, !N.leb_le, !N.eqb_eq. lia.
Qed.

Lemma takeWord_spec s w rest :
  takeWord s = (w, rest) ->
  s = w ++ rest ∧ List.forallb isWord w = true.
Proof.
  revert w rest. induction s as [|c r IH]; intros w rest; cbn [takeWord].
  - by intros [= <- <-].
  - destruct (isWord c) eqn:Hc.
    + destruct (takeWord r) as [w' rest'] eqn:Ht. intros [= <- <-].
      destruct (IH _ _ eq_refl) as [-> Hw]. cbn [List.forallb app].
      by rewrite Hc, Hw.
    + by intros [= <- <-].
Qed.

Lemma wsThenRest_spec r g :
  wsThenRest r = Some g ->
  ∃ blanks, r = blanks ++ g ∧ List.forallb isWs blanks = true
            ∧ g ≠ [] ∧ noLineTerminator g = true.
Proof.
  revert g. induction r as [|c r IH]; intros g; cbn [wsThenRest]; [done|].
  assert (Hhere : (if noLineTerminator (c :: r) then Some (c :: r) else None)
                  = Some g ->
                  ∃ blanks, c :: r = blanks ++ g
                            ∧ List.forallb isWs blanks = true
                            ∧ g ≠ [] ∧ noLineTerminator g = true).
  { destruct (noLineTerminator (c :: r)) eqn:Hn; [|done].
    intros [= <-]. by exists []. }
  destruct (isWs c) eqn:Hc; [|done].
  destruct (wsThenRest r) as [g'|]; [|done].
  intros [= <-]. destruct (IH _ eq_refl) as (b & -> & Hb & Hg & Hn).
  exists (c :: b). cbn [List.forallb app]. by rewrite Hc, Hb.
Qed.

Lemma takeWord_word w rest :
  List.forallb isWord w = true ->
  match rest with [] => true | c :: _ => negb (isWord c) end = true ->
  takeWord (w ++ rest) = (w, rest).
Proof.
  intros Hw Hr. induction w as [|c w IH]; cbn [app].
  - destruct rest as [|c r]; [done|]. cbn [takeWord].
    apply negb_true_iff in Hr. by rewrite Hr.
  - cbn [List.forallb] in Hw. apply andb_true_iff in Hw as [Hc Hw].
    cbn [takeWord]. by rewrite Hc, (IH Hw).
Qed.

Lemma wsThenRest_blanks blanks g :
  List.forallb isWs blanks = true ->
  headNotWs g = true -> g ≠ [] -> noLineTerminator g = true ->
  wsThenRest (blanks ++ g) = Some g.
Proof.
  intros Hb Hh Hg Hn. induction blanks as [|c b IH]; cbn [app].
  - destruct g as [|d g]; [done|]. cbn [wsThenRest].
    cbn [headNotWs] in Hh. apply negb_true_iff in Hh. by rewrite Hh, Hn.
  - cbn [List.forallb] in Hb. apply andb_true_iff in Hb as [Hc Hb].
    cbn [wsThenRest]. by rewrite Hc, (IH Hb).
Qed.

End MetaFacts.

(** X5. The groups of the meta-line pattern of the Cursor fallback. When
    the pattern matches, the line is the first group, blanks, a middle dot,
    blanks and the second group, the first group being a non-empty run of
    word units and the second a non-empty text without line terminator;
    and every line of that shape whose second group starts with a unit
    that is not white space matches with exactly these groups. *)
Theorem metaMatch_groups :
  (∀ metaLine g1 g2,
     metaMatch metaLine = Some (g1, g2) ->
     ∃ ws1 ws2,
       metaLine = g1 ++ ws1 ++ MIDDOT :: ws2 ++ g2
       ∧ g1 ≠ [] ∧ List.forallb isWord g1 = true
       ∧ List.forallb isWs ws1 = true ∧ List.forallb isWs ws2 = true
       ∧ g2 ≠ [] ∧ noLineTerminator g2 = true)
  ∧ (∀ g1 ws1 ws2 g2,
       g1 ≠ [] -> List.forallb isWord g1 = true ->
       List.forallb isWs ws1 = true -> List.forallb isWs ws2 = true ->
       g2 ≠ [] -> headNotWs g2 = true -> noLineTerminator g2 = true ->
       metaMatch (g1 ++ ws1 ++ MIDDOT :: ws2 ++ g2) = Some (g1, g2)).
Proof.
  split.
  - intros metaLine g1 g2. unfold metaMatch.
    destruct (takeWord metaLine) as [w rest] eqn:Ht.
    apply takeWord_spec in Ht as [-> Hw].
    destruct (falsy w) eqn:Hf; [done|].
    destruct (trimStart_suffix rest) as (b1 & Hrest & Hb1).
    destruct (trimStart rest) as [|c r]; [done|].
    destruct (N.eqb_spec c MIDDOT) as [->|?]; [|done].
    destruct (wsThenRest r) as [g|] eqn:Hg; [|done].
    intros [= <- <-]. apply wsThenRest_spec in Hg as (b2 & -> & Hb2 & Hne & Hn).
    exists b1, b2. rewrite Hrest. repeat split; try done. by destruct w.
  - intros g1 ws1 ws2 g2 Hne Hw H1 H2 Hg Hh Hn. unfold metaMatch.
    rewrite takeWord_word; [|done|].
    2:{ destruct ws1 as [|c ?]; [done|]. cbn [app].
        cbn [List.forallb] in H1. apply andb_true_iff in H1 as [Hc _].
        by rewrite (isWs_not_word _ Hc). }
    destruct g1 as [|c g1]; [done|]. cbn [falsy].
    rewrite trimStart_blanks by done. cbn [trimStart].
    change (isWs MIDDOT) with false. cbn iota. rewrite N.eqb_refl.
    by rewrite wsThenRest_blanks.
Qed.

(** X5 on the meta line of a post: a category, a middle dot and a date. *)
Lemma metaMatch_groups_witness :
  metaMatch (js "product" ++ [SPACE] ++ MIDDOT :: [SPACE] ++ js "Nov 13, 2025")
  = Some (js "product", js "Nov 13, 2025").
Proof.
  apply (proj2 metaMatch_groups (js "product") [SPACE] [SPACE]
           (js "Nov 13, 2025")); try reflexivity; discriminate.
Defined.

(** ** Filtering by link, further *)

Section DedupeMore.

Lemma dedupeFrom_fixed seen posts :
  NoDup (link <$> posts) -> (∀ p, p ∈ posts -> link p ∉ seen) ->
  dedupeFrom seen posts = posts.
Proof.
  revert seen. induction posts as [|p rest IH]; intros seen Hnd Hs; [done|].
  rewrite fmap_cons in Hnd. apply NoDup_cons in Hnd as [Hp Hnd].
  cbn [dedupeFrom]. destruct (decide (link p ∈ seen)) as [Hin|_].
  - exfalso. apply (Hs p); [apply elem_of_cons; by left|done].
  - f_equal. apply IH; [done|]. intros q Hq.
    rewrite elem_of_union, elem_of_singleton. intros [Heq|Hin].
    + apply Hp. rewrite <- Heq. by apply list_elem_of_fmap_2.
    + apply (Hs q); [apply elem_of_cons; by right|done].
Qed.

Lemma dedupeFrom_length seen posts :
  (length (dedupeFrom seen posts) <= length posts)%nat.
Proof. apply sublist_length, dedupeFrom_sublist. Qed.

Lemma dedupeFrom_twice posts : ∀ s1 s2,
  dedupeFrom s1 (dedupeFrom s2 posts) = dedupeFrom (s1 ∪ s2) posts.
Proof.
  induction posts as [|p rest IH]; intros s1 s2; [done|].
  cbn [dedupeFrom].
  destruct (decide (link p ∈ s2)) as [H2|H2].
  - rewrite IH. destruct (decide (link p ∈ s1 ∪ s2)); [done|set_solver].
  - cbn [dedupeFrom]. destruct (decide (link p ∈ s1)) as [H1|H1].
    + rewrite IH. destruct (decide (link p ∈ s1 ∪ s2)); [|set_solver].
      f_equal. set_solver.
    + rewrite IH. destruct (decide (link p ∈ s1 ∪ s2)); [set_solver|].
      do 2 f_equal. set_solver.
Qed.

Lemma dedupeFrom_app l1 : ∀ seen l2,
  dedupeFrom seen (l1 ++ l2) =
  dedupeFrom seen l1 ++ dedupeFrom (list_to_set (link <$> l1) ∪ seen) l2.
Proof.
  induction l1 as [|p l1 IH]; intros seen l2.
  - cbn. f_equal. set_solver.
  - cbn [app dedupeFrom]. destruct (decide (link p ∈ seen)) as [Hin|Hnin].
    + rewrite IH. do 2 f_equal. rewrite fmap_cons. set_solver.
    + rewrite IH. cbn [app]. do 3 f_equal. rewrite fmap_cons. set_solver.
Qed.

Lemma dedupeFrom_link_set seen posts :
  (list_to_set (link <$> dedupeFrom seen posts) : gset jsstr) ∪ seen
  = list_to_set (link <$> posts) ∪ seen.
Proof.
  apply set_eq. intros l.
  rewrite !elem_of_union, !elem_of_list_to_set, dedupeFrom_links.
  destruct (decide (l ∈ seen)); tauto.
Qed.

Lemma dedupeFrom_concat lists : ∀ seen,
  dedupeFrom seen (concat (dedupeByLink <$> lists))
  = dedupeFrom seen (concat lists).
Proof.
  induction lists as [|a lists IH]; intros seen; [done|].
  rewrite fmap_cons. cbn [concat]. rewrite !dedupeFrom_app, IH.
  unfold dedupeByLink at 1. rewrite dedupeFrom_twice.
  replace (seen ∪ ∅) with seen by set_solver. f_equal.
  unfold dedupeByLink.
  pose proof (dedupeFrom_link_set ∅ a) as H.
  rewrite !(right_id_L ∅ (∪)) in H. by rewrite H.
Qed.

Lemma dedupeFrom_filter posts : ∀ seen,
  NoDup (link <$> posts) ->
  dedupeFrom seen posts
  = List.filter (fun p => bool_decide (link p ∉ seen)) posts.
Proof.
  induction posts as [|p rest IH]; intros seen Hnd; [done|].
  rewrite fmap_cons in Hnd. apply NoDup_cons in Hnd as [Hp Hnd].
  cbn [dedupeFrom List.filter].
  destruct (decide (link p ∈ seen)) as [Hin|Hnin].
  - rewrite bool_decide_eq_false_2 by (intros H; by apply H). by apply IH.
  - rewrite bool_decide_eq_true_2 by done. f_equal. rewrite IH by done.
    apply filter_ext_elem. intros q Hq. apply bool_decide_ext.
    rewrite elem_of_union, elem_of_singleton. split; [tauto|].
    intros Hs [Heq|?]; [|done]. apply Hp. rewrite <- Heq.
    by apply list_elem_of_fmap_2.
Qed.

End DedupeMore.

(** X6. [dedupeByLink] is idempotent, never lengthens the list, and
    returns its argument unchanged exactly when the links of the posts are
    pairwise distinct. *)
Theorem dedupeByLink_idempotent (posts : list BlogPost) :
  dedupeByLink (dedupeByLink posts) = dedupeByLink posts
  ∧ (length (dedupeByLink posts) <= length posts)%nat
  ∧ (dedupeByLink posts = posts <-> NoDup (link <$> posts)).
Proof.
  split; [|split].
  - unfold dedupeByLink. rewrite dedupeFrom_twice. f_equal; set_solver.
  - apply dedupeFrom_length.
  - split.
    + intros <-. apply dedupeFrom_NoDup.
    + intros Hnd. apply dedupeFrom_fixed; [done|set_solver].
Qed.

(** X7. [dedupeByLink] over the posts of several sources. Of two lists in
    sequence the first is filtered on its own, and of the second what
    remains is what its own filter keeps minus the posts whose link the
    first list holds; and filtering each source first, as [main] does,
    changes nothing for the filter over all of them. *)
Theorem dedupeByLink_over_sources (a b : list BlogPost)
  (lists : list (list BlogPost)) :
  dedupeByLink (a ++ b)
  = dedupeByLink a
    ++ List.filter (fun p => negb (inList (link <$> a) (link p)))
         (dedupeByLink b)
  ∧ dedupeByLink (concat (dedupeByLink <$> lists))
    = dedupeByLink (concat lists).
Proof.
  split; [|apply dedupeFrom_concat].
  unfold dedupeByLink. rewrite dedupeFrom_app.
  rewrite (right_id_L ∅ (∪)). f_equal.
  rewrite <- (left_id_L ∅ (∪) (list_to_set (link <$> a))) at 1.
  rewrite (comm_L (∪)), <- dedupeFrom_twice.
  rewrite dedupeFrom_filter by apply dedupeFrom_NoDup.
  apply filter_ext_elem. intros p _.
  unfold inList, str_eqb.
  destruct (List.existsb _ _) eqn:He.
  - apply bool_decide_eq_false_2. intros Hn. apply Hn.
    apply List.existsb_exists in He as (x & Hx & ->%bool_decide_eq_true).
    apply elem_of_list_to_set. by apply list_elem_of_In.
  - apply bool_decide_eq_true_2. intros Hin%elem_of_list_to_set.
    apply not_true_iff_false in He. apply He, List.existsb_exists.
    exists (link p). split; [by apply list_elem_of_In|].
    by apply bool_decide_eq_true.
Qed.

(** ** The crawl, further *)

Section CrawlMore.

Variable fetchFn : jsstr -> Completion jsstr.
Variable parse : jsstr -> jsstr -> Completion (list BlogPost).
Variables baseUrl siteUrl : jsstr.

Lemma tryPage_posts page allPosts :
  match tryPage fetchFn parse baseUrl siteUrl page allPosts with
  | Normal (Break allPosts') | Normal (NextPage allPosts') =>
      allPosts' = allPosts
                  ++ postsOf fetchFn parse siteUrl (pageUrl baseUrl page)
  | Throw _ => postsOf fetchFn parse siteUrl (pageUrl baseUrl page) = []
  end.
Proof.
  unfold tryPage, postsOf, mbind, Completion_bind.
  destruct (fetchFn (pageUrl baseUrl page)) as [html|e]; [|done].
  destruct (parse html siteUrl) as [posts|e]; [|done].
  destruct posts as [|p posts]; cbn [length Nat.eqb]; [by rewrite app_nil_r|].
  by destruct (negb _).
Qed.

Lemma crawlFrom_collects fuel : ∀ page allPosts log c,
  allPosts = List.flat_map (postsOf fetchFn parse siteUrl) log ->
  crawlFrom fetchFn parse baseUrl siteUrl fuel page allPosts log = Some c ->
  crawled c = List.flat_map (postsOf fetchFn parse siteUrl) (requested c).
Proof.
  induction fuel as [|fuel IH]; intros page allPosts log c Hacc; [done|].
  cbn [crawlFrom]. destruct (page <=? maxPages); [|by intros [= <-]].
  pose proof (tryPage_posts page allPosts) as Ht.
  destruct (tryPage fetchFn parse baseUrl siteUrl page allPosts)
    as [[a'|a']|e].
  - intros [= <-]. cbn [crawled requested].
    rewrite List.flat_map_app. cbn [List.flat_map]. by rewrite app_nil_r, <- Hacc.
  - apply IH. rewrite List.flat_map_app. cbn [List.flat_map].
    by rewrite app_nil_r, <- Hacc.
  - intros [= <-]. cbn [crawled requested].
    rewrite List.flat_map_app. cbn [List.flat_map]. by rewrite Ht, !app_nil_r.
Qed.

Lemma crawlFrom_parse_throws fuel page allPosts log html e :
  page <= maxPages -> fetchFn (pageUrl baseUrl page) = Normal html ->
  parse html siteUrl = Throw e ->
  crawlFrom fetchFn parse baseUrl siteUrl (S fuel) page allPosts log =
  Some (mkCrawl allPosts (log ++ [pageUrl baseUrl page])).
Proof.
  intros Hle Hf Hp. cbn [crawlFrom]. apply Z.leb_le in Hle. rewrite Hle.
  unfold tryPage. rewrite Hf. unfold mbind, Completion_bind. by rewrite Hp.
Qed.

Lemma crawlFrom_last_page fuel page allPosts log html posts :
  page <= maxPages -> fetchFn (pageUrl baseUrl page) = Normal html ->
  parse html siteUrl = Normal posts -> posts ≠ [] ->
  includes html (nextPageRef page) = false ->
  crawlFrom fetchFn parse baseUrl siteUrl (S fuel) page allPosts log =
  Some (mkCrawl (allPosts ++ posts) (log ++ [pageUrl baseUrl page])).
Proof.
  intros Hle Hf Hp Hne Hn. cbn [crawlFrom]. apply Z.leb_le in Hle. rewrite Hle.
  unfold tryPage. rewrite Hf. unfold mbind, Completion_bind. rewrite Hp.
  destruct posts as [|p ps]; [done|]. cbn [length Nat.eqb]. by rewrite Hn.
Qed.

Lemma crawlFrom_log_prefix fuel : ∀ page allPosts log c,
  crawlFrom fetchFn parse baseUrl siteUrl fuel page allPosts log = Some c ->
  ∃ rest, requested c = log ++ rest.
Proof.
  induction fuel as [|fuel IH]; intros page allPosts log c; [done|].
  cbn [crawlFrom]. destruct (page <=? maxPages).
  - destruct (tryPage fetchFn parse baseUrl siteUrl page allPosts)
      as [[a'|a']|e].
    + intros [= <-]. by eexists.
    + intros (rest & ->)%IH. rewrite <- app_assoc. by eexists.
    + intros [= <-]. by eexists.
  - intros [= <-]. exists []. by rewrite app_nil_r.
Qed.

End CrawlMore.

(** X8. Whatever the page fetcher and the page parser do, the paginated
    crawl returns, and what it returns is the posts parsed from the pages
    it requested, in request order, a page that fails to load or to parse
    giving none; the first request is the listing URL itself. *)
Theorem crawl_returns_what_it_parsed
  (fetchFn : jsstr -> Completion jsstr)
  (parse : jsstr -> jsstr -> Completion (list BlogPost))
  (baseUrl siteUrl : jsstr) :
  ∃ c rest, fetchCursorPosts fetchFn parse baseUrl siteUrl = Some c
            ∧ crawled c
              = List.flat_map (postsOf fetchFn parse siteUrl) (requested c)
            ∧ requested c = baseUrl :: rest.
Proof.
  destruct (fetchCursorPosts_ceiling fetchFn parse baseUrl siteUrl)
    as (c & n & Hc & _).
  assert (∃ rest, requested c = baseUrl :: rest) as [rest Hrest].
  { unfold fetchCursorPosts in Hc. cbn [crawlFrom] in Hc.
    change (1 <=? maxPages) with true in Hc. cbn iota in Hc.
    change (pageUrl baseUrl 1) with baseUrl in Hc. cbn [app] in Hc.
    destruct (tryPage _ _ _ _ 1 []) as [[a|a]|e].
    - injection Hc as <-. by exists [].
    - apply crawlFrom_log_prefix in Hc as [rest ->]. by exists rest.
    - injection Hc as <-. by exists []. }
  exists c, rest. split; [done|]. split; [|done].
  by apply (crawlFrom_collects fetchFn parse baseUrl siteUrl
              (S (Z.to_nat maxPages)) 1 [] [] c).
Qed.

(** X9. A parser that throws is absorbed like a fetch that fails: when
    the pages before continue and the next page loads but its parser
    throws, the paginated crawl returns the posts of the pages before and
    has requested nothing after the failing page; and each single-page
    crawler returns no post when its parser throws. *)
Theorem parser_failure_absorbed
  (fetchFn : jsstr -> Completion jsstr)
  (parse : jsstr -> jsstr -> Completion (list BlogPost))
  (baseUrl siteUrl : jsstr) (pages : list (list BlogPost))
  (html e : jsstr) :
  pagesContinue fetchFn parse baseUrl siteUrl 1 pages ->
  (length pages < 100)%nat ->
  fetchFn (pageUrl baseUrl (1 + Z.of_nat (length pages))) = Normal html ->
  parse html siteUrl = Throw e ->
  fetchCursorPosts fetchFn parse baseUrl siteUrl =
    Some (mkCrawl (concat pages) (pageUrls baseUrl 1 (S (length pages))))
  ∧ (∀ fetch1 parse1 listingUrl html1 e1,
       fetch1 listingUrl = Normal html1 ->
       parse1 html1 siteUrl = Throw e1 ->
       fetchClaudePosts fetch1 parse1 listingUrl siteUrl = []
       ∧ fetchAnthropicEngineeringPosts fetch1 parse1 listingUrl siteUrl = []
       ∧ fetchAnthropicResearchPosts fetch1 parse1 listingUrl siteUrl = []).
Proof.
  intros Hc Hlen Hf Hp. split.
  - unfold fetchCursorPosts.
    replace (S (Z.to_nat maxPages))
      with (length pages + S (100 - length pages))%nat
      by (unfold maxPages; lia).
    rewrite crawlFrom_pages; [|done|unfold maxPages; lia].
    rewrite (crawlFrom_parse_throws _ _ _ _ _ _ _ _ html e);
      [|unfold maxPages; lia|done|done].
    by rewrite pageUrls_snoc.
  - intros fetch1 parse1 listingUrl html1 e1 H1 H2.
    unfold fetchClaudePosts, fetchAnthropicEngineeringPosts,
      fetchAnthropicResearchPosts, fetchOnce, mbind, Completion_bind.
    by rewrite H1, H2.
Qed.

(** X9 on a site whose second page the parser cannot read. *)
Lemma parser_failure_absorbed_witness :
  fetchCursorPosts (stubFetch thenBrokenPage) brittleParse stubListing stubSite
  = Some (mkCrawl [stubPost stubSite (js "one /blog/page/2")]
                  (pageUrls stubListing 1 2))
  ∧ (∀ fetch1 parse1 listingUrl html1 e1,
       fetch1 listingUrl = Normal html1 ->
       parse1 html1 stubSite = Throw e1 ->
       fetchClaudePosts fetch1 parse1 listingUrl stubSite = []
       ∧ fetchAnthropicEngineeringPosts fetch1 parse1 listingUrl stubSite = []
       ∧ fetchAnthropicResearchPosts fetch1 parse1 listingUrl stubSite = []).
Proof.
  apply (parser_failure_absorbed (stubFetch thenBrokenPage) brittleParse
           stubListing stubSite [[stubPost stubSite (js "one /blog/page/2")]]
           (js "broken") (js "Unexpected token")).
  - intros [|i] posts Hi; [|by destruct i].
    injection Hi as <-; eexists;
      (split; [vm_compute; reflexivity|]);
      (split; [vm_compute; reflexivity|]);
      (split; [discriminate|vm_compute; reflexivity]).
  - simpl. lia.
  - vm_compute. reflexivity.
  - vm_compute. reflexivity.
Defined.

(** X10. The posts of the last page are kept: when the pages before
    continue and the next page has posts but does not mention the page
    after it, the crawl returns the posts of all of them, that page
    included, and requests no further page. *)
Theorem crawl_keeps_last_page
  (fetchFn : jsstr -> Completion jsstr)
  (parse : jsstr -> jsstr -> Completion (list BlogPost))
  (baseUrl siteUrl : jsstr) (pages : list (list BlogPost))
  (html : jsstr) (posts : list BlogPost) :
  pagesContinue fetchFn parse baseUrl siteUrl 1 pages ->
  (length pages < 100)%nat ->
  fetchFn (pageUrl baseUrl (1 + Z.of_nat (length pages))) = Normal html ->
  parse html siteUrl = Normal posts ->
  posts ≠ [] ->
  includes html (nextPageRef (1 + Z.of_nat (length pages))) = false ->
  fetchCursorPosts fetchFn parse baseUrl siteUrl =
    Some (mkCrawl (concat pages ++ posts)
                  (pageUrls baseUrl 1 (S (length pages)))).
Proof.
  intros Hc Hlen Hf Hp Hne Hn. unfold fetchCursorPosts.
  replace (S (Z.to_nat maxPages))
    with (length pages + S (100 - length pages))%nat
    by (unfold maxPages; lia).
  rewrite crawlFrom_pages; [|done|unfold maxPages; lia].
  rewrite (crawlFrom_last_page _ _ _ _ _ _ _ _ html posts);
    [|unfold maxPages; lia|done..].
  by rewrite pageUrls_snoc.
Qed.

(** X10 on a site of two pages, the second announcing no third. *)
Lemma crawl_keeps_last_page_witness :
  fetchCursorPosts (stubFetch lastPageUnannounced) stubParse stubListing
                   stubSite
  = Some (mkCrawl ([stubPost stubSite (js "one /blog/page/2")]
                   ++ [stubPost stubSite (js "two")])
                  (pageUrls stubListing 1 2)).
Proof.
  apply (crawl_keeps_last_page (stubFetch lastPageUnannounced) stubParse
           stubListing stubSite [[stubPost stubSite (js "one /blog/page/2")]]
           (js "two") [stubPost stubSite (js "two")]).
  - intros [|i] posts Hi; [|by destruct i].
    injection Hi as <-; eexists;
      (split; [vm_compute; reflexivity|]);
      (split; [vm_compute; reflexivity|]);
      (split; [discriminate|vm_compute; reflexivity]).
  - simpl. lia.
  - vm_compute. reflexivity.
  - vm_compute. reflexivity.
  - discriminate.
  - vm_compute. reflexivity.
Defined.

(** X11. The crawl stops at page 100 even when that page announces a
    page 101: with a hundred pages that all have posts and all mention
    their successor, the result is the posts of these hundred pages, and
    the URL of page 101 is never requested. *)
Theorem crawl_stops_at_ceiling
  (fetchFn : jsstr -> Completion jsstr)
  (parse : jsstr -> jsstr -> Completion (list BlogPost))
  (baseUrl siteUrl : jsstr) (pages : list (list BlogPost)) :
  pagesContinue fetchFn parse baseUrl siteUrl 1 pages ->
  length pages = 100%nat ->
  fetchCursorPosts fetchFn parse baseUrl siteUrl =
    Some (mkCrawl (concat pages) (pageUrls baseUrl 1 100))
  ∧ pageUrl baseUrl 101 ∉ pageUrls baseUrl 1 100.
Proof.
  intros Hc Hlen. split.
  - unfold fetchCursorPosts.
    replace (S (Z.to_nat maxPages)) with (length pages + 1)%nat
      by (unfold maxPages; lia).
    rewrite crawlFrom_pages; [|done|unfold maxPages; lia].
    rewrite Hlen. reflexivity.
  - rewrite elem_of_pageUrls. intros (p & Hp & Heq).
    apply pageUrl_inj in Heq; lia.
Qed.

(** X11 on a site whose every page announces every page up to 101. *)
Lemma crawl_stops_at_ceiling_witness :
  fetchCursorPosts endlessFetch stubParse stubListing stubSite
  = Some (mkCrawl (concat (replicate 100 [stubPost stubSite everyReference]))
                  (pageUrls stubListing 1 100))
  ∧ pageUrl stubListing 101 ∉ pageUrls stubListing 1 100.
Proof.
  apply (crawl_stops_at_ceiling endlessFetch stubParse stubListing stubSite
           (replicate 100 [stubPost stubSite everyReference])).
  - intros i posts [-> Hi]%lookup_replicate.
    exists everyReference. split; [reflexivity|].
    split; [vm_compute; reflexivity|]. split; [discriminate|].
    assert (Hall : List.forallb
              (fun i : nat => includes everyReference
                                       (nextPageRef (1 + Z.of_nat i)))
              (seq 0 100) = true) by (vm_compute; reflexivity).
    rewrite List.forallb_forall in Hall. apply Hall.
    apply in_seq. lia.
  - apply length_replicate.
Defined.

(** ** What the parsers return *)

Section SelectionFacts.

Lemma selectWithin_sat (p : Node -> bool) (n : Node) :
  ∀ inside x, x ∈ selectWithin p inside n -> p x = true.
Proof.
  induction n as [data|name attribs children IH] using Node_children_ind;
    intros inside x; cbn [selectWithin].
  - rewrite app_nil_r. destruct (inside && p (TextNode data)) eqn:E;
      [|by intros ?%elem_of_nil].
    intros ->%list_elem_of_singleton. by apply andb_true_iff in E as [_ ?].
  - rewrite elem_of_app. intros [Hx|Hx].
    + destruct (inside && p (Element name attribs children)) eqn:E;
        [|by apply elem_of_nil in Hx].
      apply list_elem_of_singleton in Hx as ->.
      by apply andb_true_iff in E as [_ ?].
    + apply list_elem_of_In, List.in_flat_map in Hx as (c & Hc & Hx).
      rewrite Forall_forall in IH.
      eapply (IH c); [by apply list_elem_of_In|].
      apply list_elem_of_In. exact Hx.
Qed.

Lemma selectWithin_descends (p : Node -> bool) (n : Node) :
  ∀ inside x, x ∈ selectWithin p inside n -> x ∈ n :: descendants n.
Proof.
  induction n as [data|name attribs children IH] using Node_children_ind;
    intros inside x; cbn [selectWithin descendants].
  - rewrite app_nil_r. destruct (inside && p (TextNode data));
      [|by intros ?%elem_of_nil].
    intros ->%list_elem_of_singleton. apply elem_of_cons. by left.
  - rewrite elem_of_app, elem_of_cons. intros [Hx|Hx].
    + destruct (inside && p (Element name attribs children));
        [|by apply elem_of_nil in Hx].
      apply list_elem_of_singleton in Hx as ->. by left.
    + right. apply list_elem_of_In, List.in_flat_map in Hx as (c & Hc & Hx).
      apply list_elem_of_In, List.in_flat_map. exists c. split; [done|].
      apply list_elem_of_In. rewrite Forall_forall in IH.
      eapply (IH c); [by apply list_elem_of_In|].
      apply list_elem_of_In. exact Hx.
Qed.

Lemma selectInArticle_select p doc x :
  x ∈ selectInArticle p doc -> x ∈ select p doc.
Proof.
  intros Hx. unfold select. apply list_elem_of_In, List.filter_In. split.
  - unfold selectInArticle in Hx.
    apply list_elem_of_In, List.in_flat_map in Hx as (n & Hn & Hx).
    unfold allNodes. apply List.in_flat_map. exists n. split; [done|].
    apply list_elem_of_In. eapply selectWithin_descends.
    apply list_elem_of_In. exact Hx.
  - unfold selectInArticle in Hx.
    apply list_elem_of_In, List.in_flat_map in Hx as (n & Hn & Hx).
    eapply selectWithin_sat. apply list_elem_of_In. exact Hx.
Qed.

Lemma selectInArticle_sat p doc x :
  x ∈ selectInArticle p doc -> p x = true.
Proof.
  unfold selectInArticle. intros (n & _ & Hx)%list_elem_of_In%List.in_flat_map.
  apply (selectWithin_sat p n false). by apply list_elem_of_In.
Qed.

Lemma select_sat p doc x : x ∈ select p doc -> p x = true.
Proof.
  unfold select. by intros [_ ?]%list_elem_of_In%List.filter_In.
Qed.

Lemma isBlogAnchor_href el :
  isBlogAnchor el = true ->
  ∃ href, attr el (js "href") = Some href
          ∧ startsWith href (js "/blog/") = true.
Proof.
  unfold isBlogAnchor. intros [_ H]%andb_true_iff.
  destruct (attr el (js "href")) as [href|]; [|done]. by exists href.
Qed.

End SelectionFacts.

Section CursorFacts.

Lemma isNavigation_false href :
  isNavigation href = false ->
  href ≠ js "/blog" ∧ startsWith href (js "/blog/topic") = false
  ∧ startsWith href (js "/blog/page") = false.
Proof.
  unfold isNavigation, str_eqb.
  intros [[[_ H1]%orb_false_iff H2]%orb_false_iff H3]%orb_false_iff.
  split; [|done]. by apply bool_decide_eq_false in H1.
Qed.

Lemma orElse_nonempty a b : b ≠ [] -> orElse a b ≠ [].
Proof. unfold orElse. by destruct a. Qed.

Lemma cursorCard_post siteUrl posts el :
  isBlogAnchor el = true ->
  cursorCard siteUrl posts el = posts
  ∨ ∃ p, cursorCard siteUrl posts el = posts ++ [p] ∧ cursorPost siteUrl p.
Proof.
  intros (href & Hattr & Hpre)%isBlogAnchor_href.
  unfold cursorCard. rewrite Hattr.
  destruct (isNavigation href) eqn:Hnav; [by left|].
  apply isNavigation_false in Hnav as (H1 & H2 & H3).
  match goal with |- context [addPost posts ?p] =>
    destruct (addPost_spec posts p) as [[_ ->]|(Ht & Hl & ->)] end;
    [by left|right].
  eexists. split; [done|]. split; [by exists href|].
  cbn [title category source]. split; [|split; [|done]].
  - cbn [title] in Ht. by destruct (normalizeText _).
  - by apply orElse_nonempty.
Qed.

Lemma cursorFallback_post siteUrl posts el :
  isBlogAnchor el = true ->
  cursorFallback siteUrl posts el = posts
  ∨ ∃ p, cursorFallback siteUrl posts el = posts ++ [p]
         ∧ cursorPost siteUrl p.
Proof.
  intros (href & Hattr & Hpre)%isBlogAnchor_href.
  unfold cursorFallback. rewrite Hattr.
  destruct (isNavigation href) eqn:Hnav; [by left|].
  apply isNavigation_false in Hnav as (H1 & H2 & H3).
  destruct (length _ <? 2)%nat; [by left|].
  match goal with |- context [addPost posts ?p] =>
    destruct (addPost_spec posts p) as [[_ ->]|(Ht & Hl & ->)] end;
    [by left|right].
  eexists. split; [done|]. split; [by exists href|].
  cbn [title category source]. split; [|split; [|done]].
  - cbn [title] in Ht. by destruct (List.nth 0 _ _).
  - by apply orElse_nonempty.
Qed.

Lemma fold_left_adds_on {A B} (P : A -> Prop) (Q : B -> Prop)
  (step : list A -> B -> list A) :
  (∀ acc x, Q x -> step acc x = acc ∨ ∃ a, step acc x = acc ++ [a] ∧ P a) ->
  ∀ l acc, Forall Q l -> Forall P acc -> Forall P (List.fold_left step l acc).
Proof.
  intros Hstep. induction l as [|x l IH]; intros acc Hl Hacc; [done|].
  apply Forall_cons in Hl as [Hx Hl]. cbn [List.fold_left]. apply IH; [done|].
  destruct (Hstep acc x Hx) as [->|(a & -> & Ha)]; [done|].
  apply Forall_app. by split; [|constructor].
Qed.

End CursorFacts.

Section CursorPosts.

Lemma parseCursorBlog_posts_are_blog_posts_aux doc siteUrl :
  Forall (cursorPost siteUrl) (parseCursorBlog doc siteUrl).
Proof.
  assert (Hcards : Forall (cursorPost siteUrl)
    (List.fold_left (cursorCard siteUrl) (selectInArticle isBlogAnchor doc) [])).
  { apply (fold_left_adds_on _ (fun el => isBlogAnchor el = true));
      [intros; by apply cursorCard_post| |constructor].
    apply Forall_forall. apply selectInArticle_sat. }
  unfold parseCursorBlog. destruct (length _ =? 0)%nat; [|done].
  apply (fold_left_adds_on _ (fun el => isBlogAnchor el = true));
    [intros; by apply cursorFallback_post| |done].
  apply Forall_forall. apply select_sat.
Qed.

End CursorPosts.

(** X12. Every post of the Cursor parser, from the cards or from the
    fallback, links to the site URL followed by an [href] that starts
    with [/blog/] and is none of the navigation targets, has a non-empty
    title and category, and carries the source tag [Cursor]. The card
    anchors are among the anchors the fallback scans, so a document
    without an anchor to [/blog/] yields no post. *)
Theorem parseCursorBlog_posts_are_blog_posts (doc : Document)
  (siteUrl : jsstr) :
  Forall (cursorPost siteUrl) (parseCursorBlog doc siteUrl)
  ∧ (∀ el, el ∈ selectInArticle isBlogAnchor doc ->
           el ∈ select isBlogAnchor doc)
  ∧ (select isBlogAnchor doc = [] -> parseCursorBlog doc siteUrl = []).
Proof.
  split; [apply parseCursorBlog_posts_are_blog_posts_aux|]. split.
  - apply selectInArticle_select.
  - intros Hnone. unfold parseCursorBlog.
    assert (selectInArticle isBlogAnchor doc = []) as ->.
    { destruct (selectInArticle isBlogAnchor doc) as [|x l] eqn:E; [done|].
      assert (x ∈ select isBlogAnchor doc) as Hx.
      { apply selectInArticle_select. rewrite E. apply elem_of_cons. by left. }
      rewrite Hnone in Hx. by apply elem_of_nil in Hx. }
    by rewrite Hnone.
Qed.

Section HeuristicFacts.

Lemma claudeLine_inRange f line :
  fieldsInRange claudeCategories (js "Blog") f ->
  fieldsInRange claudeCategories (js "Blog") (claudeLine f line).
Proof.
  intros [Hd Hc]. unfold claudeLine.
  destruct (isDateLine line) eqn:E1; [split; cbn; auto|].
  destruct (falsy _ && _ && negb _); [done|].
  destruct (inList claudeCategories line) eqn:E2; [split; cbn; auto|done].
Qed.

Lemma engineeringLine_inRange f line :
  fieldsInRange [] (js "Engineering") f ->
  fieldsInRange [] (js "Engineering") (engineeringLine f line).
Proof.
  intros [Hd Hc]. unfold engineeringLine.
  destruct (isDateLine line) eqn:E1; [split; cbn; auto|].
  by destruct (falsy _ && _).
Qed.

Lemma researchLine_inRange f line :
  fieldsInRange researchCategories (js "Research") f ->
  fieldsInRange researchCategories (js "Research") (researchLine f line).
Proof.
  intros [Hd Hc]. unfold researchLine.
  destruct (isDateLine line) eqn:E1; [split; cbn; auto|].
  destruct (inList researchCategories line) eqn:E2; [split; cbn; auto|].
  by destruct (falsy _ && _).
Qed.

Lemma lineLoop_inRange labels fallback
  (lineStep : Fields -> jsstr -> Fields) (lines : list jsstr) :
  (∀ f line, fieldsInRange labels fallback f ->
             fieldsInRange labels fallback (lineStep f line)) ->
  ∀ f, fieldsInRange labels fallback f ->
       fieldsInRange labels fallback (List.fold_left lineStep lines f).
Proof.
  intros Hstep. induction lines as [|l ls IH]; intros f Hf; [done|].
  cbn [List.fold_left]. by apply IH, Hstep.
Qed.

Lemma scanAnchor_step labels fallback sourceName
  (lineStep : Fields -> jsstr -> Fields) fullUrl st el :
  (∀ f line, fieldsInRange labels fallback f ->
             fieldsInRange labels fallback (lineStep f line)) ->
  scanConsistent st ->
  scanConsistent (scanAnchor lineStep fallback sourceName fullUrl st el)
  ∧ (scanAnchor lineStep fallback sourceName fullUrl st el = st
     ∨ ∃ p, (scanAnchor lineStep fallback sourceName fullUrl st el).1
            = st.1 ++ [p]
            ∧ heuristicFields labels fallback sourceName p
            ∧ link p = fullUrl).
Proof.
  intros Hstep [Hnd Hseen]. destruct st as [posts seen]. unfold scanAnchor.
  destruct (decide (fullUrl ∈ seen)) as [Hin|Hnin]; [by split; [|left]|].
  destruct (length _ =? 0)%nat; [by split; [|left]|].
  destruct (falsy (fTitle _)) eqn:Hf; [by split; [|left]|].
  cbn [fst snd] in *. split.
  - split; cbn [fst snd].
    + rewrite fmap_app. apply NoDup_app. split; [done|]. split.
      * intros l Hl [->|[]%elem_of_nil]%elem_of_cons. cbn [link] in Hnin.
        apply Hnin. by apply Hseen.
      * cbn. apply NoDup_singleton.
    + intros l. rewrite fmap_app, elem_of_app, elem_of_union, Hseen.
      cbn. rewrite elem_of_singleton, list_elem_of_singleton. tauto.
  - right. eexists. split; [done|]. split; [|done].
    pose proof (lineLoop_inRange labels fallback lineStep
                  (textLines (textContent el)) Hstep
                  (mkFields [] [] fallback)) as [Hd Hc].
    { split; cbn; auto. }
    by repeat split.
Qed.

End HeuristicFacts.

Section HeuristicScans.

Lemma scan_invariant (Q : BlogPost -> Prop) (step : Scan -> Node -> Scan) :
  (∀ st el, scanConsistent st ->
     scanConsistent (step st el)
     ∧ (step st el = st ∨ ∃ p, (step st el).1 = st.1 ++ [p] ∧ Q p)) ->
  ∀ anchors st, scanConsistent st -> Forall Q st.1 ->
    scanConsistent (List.fold_left step anchors st)
    ∧ Forall Q (List.fold_left step anchors st).1.
Proof.
  intros Hstep. induction anchors as [|el anchors IH]; intros st Hc Hq; [done|].
  cbn [List.fold_left]. destruct (Hstep st el Hc) as [Hc' Hor].
  apply IH; [done|]. destruct Hor as [->|(p & -> & Hp)]; [done|].
  apply Forall_app. by split; [|constructor].
Qed.

Lemma scanConsistent_empty : scanConsistent ([], ∅).
Proof.
  split; cbn; [constructor|]. intros l. by rewrite elem_of_empty, elem_of_nil.
Qed.

Lemma claudeAnchor_step siteUrl st el :
  scanConsistent st ->
  scanConsistent (claudeAnchor siteUrl st el)
  ∧ (claudeAnchor siteUrl st el = st
     ∨ ∃ p, (claudeAnchor siteUrl st el).1 = st.1 ++ [p]
            ∧ heuristicFields claudeCategories (js "Blog") (js "Claude Blog")
                              p).
Proof.
  intros Hc. unfold claudeAnchor.
  destruct (str_eqb _ _ || str_eqb _ _ || negb _); [by split; [|left]|].
  destruct (scanAnchor_step claudeCategories (js "Blog") (js "Claude Blog")
              claudeLine (fullUrlOf siteUrl (hrefOrEmpty el)) st el
              claudeLine_inRange Hc) as [Hc' [->|(p & Hp & Hf & _)]];
    [by split; [|left]|].
  split; [done|]. right. by exists p.
Qed.

Lemma engineeringAnchor_step siteUrl st el :
  scanConsistent st ->
  scanConsistent (engineeringAnchor siteUrl st el)
  ∧ (engineeringAnchor siteUrl st el = st
     ∨ ∃ p, (engineeringAnchor siteUrl st el).1 = st.1 ++ [p]
            ∧ heuristicFields [] (js "Engineering")
                              (js "Anthropic Engineering") p).
Proof.
  intros Hc. unfold engineeringAnchor.
  destruct (negb _ && negb _); [by split; [|left]|].
  destruct (str_eqb _ _ || str_eqb _ _); [by split; [|left]|].
  destruct (scanAnchor_step [] (js "Engineering")
              (js "Anthropic Engineering") engineeringLine
              (fullUrlOf siteUrl (hrefOrEmpty el)) st el
              engineeringLine_inRange Hc) as [Hc' [->|(p & Hp & Hf & _)]];
    [by split; [|left]|].
  split; [done|]. right. by exists p.
Qed.

Lemma researchAnchor_step siteUrl st el :
  scanConsistent st ->
  scanConsistent (researchAnchor siteUrl st el)
  ∧ (researchAnchor siteUrl st el = st
     ∨ ∃ p, (researchAnchor siteUrl st el).1 = st.1 ++ [p]
            ∧ heuristicFields researchCategories (js "Research")
                              (js "Anthropic Research") p).
Proof.
  intros Hc. unfold researchAnchor.
  destruct (negb _ && negb _); [by split; [|left]|].
  destruct (str_eqb _ _ || str_eqb _ _); [by split; [|left]|].
  destruct (scanAnchor_step researchCategories (js "Research")
              (js "Anthropic Research") researchLine
              (fullUrlOf siteUrl (hrefOrEmpty el)) st el
              researchLine_inRange Hc) as [Hc' [->|(p & Hp & Hf & _)]];
    [by split; [|left]|].
  split; [done|]. right. by exists p.
Qed.

Lemma heuristic_scans doc siteUrl :
  (NoDup (link <$> parseClaudeBlog doc siteUrl)
   ∧ Forall (heuristicFields claudeCategories (js "Blog") (js "Claude Blog"))
       (parseClaudeBlog doc siteUrl))
  ∧ (NoDup (link <$> parseAnthropicEngineering doc siteUrl)
     ∧ Forall (heuristicFields [] (js "Engineering")
                               (js "Anthropic Engineering"))
         (parseAnthropicEngineering doc siteUrl))
  ∧ (NoDup (link <$> parseAnthropicResearch doc siteUrl)
     ∧ Forall (heuristicFields researchCategories (js "Research")
                               (js "Anthropic Research"))
         (parseAnthropicResearch doc siteUrl)).
Proof.
  unfold parseClaudeBlog, parseAnthropicEngineering, parseAnthropicResearch.
  split; [|split].
  - destruct (scan_invariant _ _ (claudeAnchor_step siteUrl)
                (select isAnchorContainingBlog doc) ([], ∅)
                scanConsistent_empty) as [[Hnd _] Hq]; [constructor|done].
  - destruct (scan_invariant _ _ (engineeringAnchor_step siteUrl)
                (select (hasName "a") doc) ([], ∅)
                scanConsistent_empty) as [[Hnd _] Hq]; [constructor|done].
  - destruct (scan_invariant _ _ (researchAnchor_step siteUrl)
                (select (hasName "a") doc) ([], ∅)
                scanConsistent_empty) as [[Hnd _] Hq]; [constructor|done].
Qed.

End HeuristicScans.

(** X13. The three heuristic parsers never return two posts with the same
    link, so [dedupeByLink] leaves their results unchanged. *)
Theorem heuristic_parsers_links_unique (doc : Document) (siteUrl : jsstr) :
  (NoDup (link <$> parseClaudeBlog doc siteUrl)
   ∧ dedupeByLink (parseClaudeBlog doc siteUrl) = parseClaudeBlog doc siteUrl)
  ∧ (NoDup (link <$> parseAnthropicEngineering doc siteUrl)
     ∧ dedupeByLink (parseAnthropicEngineering doc siteUrl)
       = parseAnthropicEngineering doc siteUrl)
  ∧ (NoDup (link <$> parseAnthropicResearch doc siteUrl)
     ∧ dedupeByLink (parseAnthropicResearch doc siteUrl)
       = parseAnthropicResearch doc siteUrl).
Proof.
  destruct (heuristic_scans doc siteUrl) as ([H1 _] & [H2 _] & [H3 _]).
  repeat split; try done;
    (apply dedupeFrom_fixed; [done|intros p _; apply not_elem_of_empty]).
Qed.

(** X14. The fields of the posts of the heuristic parsers: the
    description is empty, the source tag is the parser's own, the date is
    empty or a line the date pattern accepts, and the category is the
    parser's default or one of its labels; for the engineering parser it
    is always [Engineering]. *)
Theorem heuristic_parsers_fields (doc : Document) (siteUrl : jsstr) :
  Forall (heuristicFields claudeCategories (js "Blog") (js "Claude Blog"))
         (parseClaudeBlog doc siteUrl)
  ∧ Forall (fun p => heuristicFields [] (js "Engineering")
                       (js "Anthropic Engineering") p
                     ∧ category p = js "Engineering")
           (parseAnthropicEngineering doc siteUrl)
  ∧ Forall (heuristicFields researchCategories (js "Research")
                            (js "Anthropic Research"))
           (parseAnthropicResearch doc siteUrl).
Proof.
  destruct (heuristic_scans doc siteUrl) as ([_ H1] & [_ H2] & [_ H3]).
  repeat split; try done.
  eapply Forall_impl; [exact H2|]. intros p Hp. split; [done|].
  by destruct Hp as (_ & _ & _ & [?|?]).
Qed.

(** ** The single-source parser *)

Section LegacyFacts.

Lemma legacy_addPost posts post :
  Legacy.addPost (forgetSource <$> posts) (forgetSource post)
  = forgetSource <$> addPost posts post.
Proof.
  unfold Legacy.addPost, addPost. cbn [Legacy.title Legacy.link forgetSource].
  destruct (falsy (title post) || falsy (link post)); [done|].
  by rewrite fmap_app.
Qed.

Lemma legacy_cardCallback posts el :
  Legacy.cardCallback (forgetSource <$> posts) el
  = forgetSource <$> cursorCard SITE_URL posts el.
Proof.
  unfold Legacy.cardCallback, cursorCard.
  destruct (attr el (js "href")) as [href|]; [|done].
  change (falsy href || str_eqb href (js "/blog")
          || startsWith href (js "/blog/topic")
          || startsWith href (js "/blog/page")) with (isNavigation href).
  destruct (isNavigation href); [done|]. by rewrite <- legacy_addPost.
Qed.

Lemma legacy_fallbackCallback posts el :
  Legacy.fallbackCallback (forgetSource <$> posts) el
  = forgetSource <$> cursorFallback SITE_URL posts el.
Proof.
  unfold Legacy.fallbackCallback, cursorFallback.
  destruct (attr el (js "href")) as [href|]; [|done].
  change (falsy href || str_eqb href (js "/blog")
          || startsWith href (js "/blog/topic")
          || startsWith href (js "/blog/page")) with (isNavigation href).
  destruct (isNavigation href); [done|].
  destruct (length _ <? 2)%nat; [done|]. by rewrite <- legacy_addPost.
Qed.

Lemma fold_left_fmap {A A' B} (f : A -> A') (step : list A -> B -> list A)
  (step' : list A' -> B -> list A') :
  (∀ acc x, step' (f <$> acc) x = f <$> step acc x) ->
  ∀ l acc, List.fold_left step' l (f <$> acc)
           = f <$> List.fold_left step l acc.
Proof.
  intros Hstep. induction l as [|x l IH]; intros acc; [done|].
  cbn [List.fold_left]. by rewrite Hstep, IH.
Qed.

End LegacyFacts.

(** X15. The page parser of the single-source script returns, on every
    document, the posts that [parseCursorBlog] returns for the site URL
    [https://cursor.com], without the source tag. *)
Theorem parseBlogPage_agrees (doc : Document) :
  Legacy.parseBlogPage doc = forgetSource <$> parseCursorBlog doc SITE_URL.
Proof.
  unfold Legacy.parseBlogPage, parseCursorBlog.
  rewrite (fold_left_fmap forgetSource (cursorCard SITE_URL)
             Legacy.cardCallback legacy_cardCallback _ []).
  rewrite length_fmap. destruct (length _ =? 0)%nat; [|done].
  apply (fold_left_fmap forgetSource (cursorFallback SITE_URL)
           Legacy.fallbackCallback legacy_fallbackCallback).
Qed.

(** ** The feeds of main *)

Section PipelineFacts.

Lemma dedupeFrom_Forall (P : BlogPost -> Prop) posts : ∀ seen,
  Forall P posts -> Forall P (dedupeFrom seen posts).
Proof.
  induction posts as [|p rest IH]; intros seen Hall; [done|].
  apply Forall_cons in Hall as [Hp Hall]. cbn [dedupeFrom].
  destruct (decide (link p ∈ seen)); [by apply IH|].
  constructor; [done|by apply IH].
Qed.

Lemma Forall_flat_map_all {A B} (P : B -> Prop) (f : A -> list B) l :
  (∀ x, Forall P (f x)) -> Forall P (List.flat_map f l).
Proof.
  intros Hf. induction l as [|x l IH]; [constructor|].
  cbn [List.flat_map]. apply Forall_app. by split.
Qed.

Lemma postsOf_Forall (P : BlogPost -> Prop) fetchFn
  (parser : Document -> jsstr -> list BlogPost) load siteUrl url :
  (∀ doc, Forall P (parser doc siteUrl)) ->
  Forall P (postsOf fetchFn (fun html s => Normal (parser (load html) s))
                    siteUrl url).
Proof.
  intros Hp. unfold postsOf, mbind, Completion_bind.
  destruct (fetchFn url); [apply Hp|constructor].
Qed.

Lemma fetchOnce_Forall (P : BlogPost -> Prop) fetchFn
  (parser : Document -> jsstr -> list BlogPost) load baseUrl siteUrl :
  (∀ doc, Forall P (parser doc siteUrl)) ->
  Forall P (fetchOnce fetchFn (fun html s => Normal (parser (load html) s))
                      baseUrl siteUrl).
Proof.
  intros Hp. unfold fetchOnce, mbind, Completion_bind.
  destruct (fetchFn baseUrl); [apply Hp|constructor].
Qed.

Lemma cursorPost_tagged siteUrl p : cursorPost siteUrl p -> taggedPost p.
Proof.
  intros (_ & Ht & _ & Hs). split; [|done]. rewrite Hs.
  apply elem_of_cons. by left.
Qed.

Lemma heuristic_tagged labels fallback sourceName p :
  sourceName ∈ sourceNames ->
  heuristicFields labels fallback sourceName p -> heuristicPost p ->
  taggedPost p.
Proof.
  intros Hn (_ & Hs & _) (Ht & _). split; [by rewrite Hs|]. by destruct (title p).
Qed.

Lemma parsers_tag doc siteUrl :
  Forall taggedPost (parseCursorBlog doc siteUrl)
  ∧ Forall taggedPost (parseClaudeBlog doc siteUrl)
  ∧ Forall taggedPost (parseAnthropicEngineering doc siteUrl)
  ∧ Forall taggedPost (parseAnthropicResearch doc siteUrl).
Proof.
  destruct (heuristic_scans doc siteUrl) as ([_ H1] & [_ H2] & [_ H3]).
  pose proof (heuristic_adds _ (claudeAnchor_adds siteUrl)
                (select isAnchorContainingBlog doc) ([], ∅)
                (Forall_nil_2 _)) as G1.
  pose proof (heuristic_adds _ (engineeringAnchor_adds siteUrl)
                (select (hasName "a") doc) ([], ∅) (Forall_nil_2 _)) as G2.
  pose proof (heuristic_adds _ (researchAnchor_adds siteUrl)
                (select (hasName "a") doc) ([], ∅) (Forall_nil_2 _)) as G3.
  repeat split.
  - eapply Forall_impl; [apply parseCursorBlog_posts_are_blog_posts_aux|].
    apply cursorPost_tagged.
  - apply Forall_forall. intros p Hp. rewrite Forall_forall in H1, G1.
    eapply heuristic_tagged; [|by apply H1|by apply G1].
    unfold sourceNames. set_solver.
  - apply Forall_forall. intros p Hp. rewrite Forall_forall in H2, G2.
    eapply heuristic_tagged; [|by apply H2|by apply G2].
    unfold sourceNames. set_solver.
  - apply Forall_forall. intros p Hp. rewrite Forall_forall in H3, G3.
    eapply heuristic_tagged; [|by apply H3|by apply G3].
    unfold sourceNames. set_solver.
Qed.

End PipelineFacts.

Section MainFacts.

Variable load : jsstr -> Document.
Variable DateParse : jsstr -> option Z.
Variable engine : list BlogPost -> Sorter BlogPost.
Variable clock : nat -> Z.
Variable year : Z.
Variable fetchPage : jsstr -> Completion jsstr.

Lemma main_collects :
  ∃ c,
    cursorCrawl load fetchPage = Some c
    ∧ Main.collect fetchPage (Main.blogSources load year)
        (Main.mkCollected ∅ [])
      = Some (Main.mkCollected
          (<[js "anthropic-research" :=
               dedupeByLink (researchCrawl load fetchPage)]>
            (<[js "anthropic-engineering" :=
                 dedupeByLink (engineeringCrawl load fetchPage)]>
              (<[js "claude" := dedupeByLink (claudeCrawl load fetchPage)]>
                (<[js "cursor" := dedupeByLink (crawled c)]> ∅))))
          (dedupeByLink (crawled c)
           ++ dedupeByLink (claudeCrawl load fetchPage)
           ++ dedupeByLink (engineeringCrawl load fetchPage)
           ++ dedupeByLink (researchCrawl load fetchPage))).
Proof.
  unfold cursorCrawl, claudeCrawl, engineeringCrawl, researchCrawl.
  destruct (fetchCursorPosts_ceiling fetchPage
              (fun html siteUrl => Normal (parseCursorBlog (load html) siteUrl))
              (js "https://cursor.com/blog") (js "https://cursor.com"))
    as (c & n & Hc & _).
  exists c. split; [done|].
  unfold Main.blogSources. cbn [Main.collect]. unfold Main.collectSource.
  cbn [Main.fetchAll Main.url Main.siteUrl Main.parse Main.slug].
  unfold Main.paginated, Main.singlePage. rewrite Hc.
  cbn [fmap option_fmap option_map mbind option_bind Main.postsBySource
       Main.allPosts app].
  by rewrite <- !app_assoc.
Qed.

Lemma itemsFrom_itemsAt (item : Z -> BlogPost -> Main.Item) posts : ∀ k,
  Main.itemsFrom clock item posts k
  = (itemsAt clock item k posts, (k + length posts)%nat).
Proof.
  unfold itemsAt. induction posts as [|post rest IH]; intros k;
    cbn [Main.itemsFrom imap length].
  - by rewrite Nat.add_0_r.
  - rewrite IH, Nat.add_0_r. f_equal; [|lia]. f_equal.
    apply imap_ext. intros i p _. cbn. do 2 f_equal. lia.
Qed.

Lemma itemsAt_ids (item : Z -> BlogPost -> Main.Item) k posts :
  (∀ now p, Main.itemId (item now p) = link p) ->
  Main.itemId <$> itemsAt clock item k posts = link <$> posts.
Proof.
  intros Hid. unfold itemsAt. revert k.
  induction posts as [|post rest IH]; intros k; [done|].
  cbn [imap fmap list_fmap]. rewrite Hid. f_equal.
  rewrite <- (IH (S k)). f_equal. apply imap_ext. intros i p _. cbn.
  do 2 f_equal. lia.
Qed.

Lemma itemsAt_one_instant (item : Z -> BlogPost -> Main.Item) now k posts :
  (∀ i, clock i = now) -> itemsAt clock item k posts = item now <$> posts.
Proof.
  intros Hnow. unfold itemsAt. rewrite <- imap_const.
  apply imap_ext. intros i p _. by rewrite Hnow.
Qed.

Lemma elem_of_itemsAt (item : Z -> BlogPost -> Main.Item) k posts x :
  x ∈ itemsAt clock item k posts ->
  ∃ j p, p ∈ posts ∧ x = item (clock j) p.
Proof.
  unfold itemsAt. intros (i & p & -> & Hp)%elem_of_lookup_imap.
  exists (k + i)%nat, p. split; [|done]. by eapply list_elem_of_lookup_2.
Qed.

Ltac slug_ne := let H := fresh in intros H; apply js_inj in H; discriminate H.

Lemma main_result :
  ∃ c,
    cursorCrawl load fetchPage = Some c
    ∧ let cursor := dedupeByLink (crawled c) in
      let claude := dedupeByLink (claudeCrawl load fetchPage) in
      let engineering := dedupeByLink (engineeringCrawl load fetchPage) in
      let research := dedupeByLink (researchCrawl load fetchPage) in
      let n1 := length cursor in
      let n2 := (n1 + length claude)%nat in
      let n3 := (n2 + length engineering)%nat in
      let n4 := (n3 + length research)%nat in
      let sorted :=
        sortedPosts DateParse clock engine
                    (cursor ++ claude ++ engineering ++ research)
                    (n4 + n1) in
      Main.main load DateParse engine clock year fetchPage
      = Some (Main.mkFeeds
          [(js "cursor", itemsAt clock (Main.sourceItem DateParse) 0 cursor);
           (js "claude", itemsAt clock (Main.sourceItem DateParse) n1 claude);
           (js "anthropic-engineering",
            itemsAt clock (Main.sourceItem DateParse) n2 engineering);
           (js "anthropic-research",
            itemsAt clock (Main.sourceItem DateParse) n3 research)]
          (itemsAt clock (Main.sourceItem DateParse) n4 cursor)
          (itemsAt clock (Main.aggregatedItem DateParse) sorted.2 sorted.1))
      ∧ (NoDup (link <$> cursor) ∧ NoDup (link <$> claude)
         ∧ NoDup (link <$> engineering) ∧ NoDup (link <$> research))
      ∧ Forall taggedPost (cursor ++ claude ++ engineering ++ research).
Proof.
  destruct main_collects as (c & Hc & Hcollect).
  exists c. split; [done|]. cbv zeta. split; [|split].
  - unfold Main.main. rewrite Hcollect. cbn [mbind option_bind].
    unfold Main.feedsOf, Main.blogSources, Main.postsOfSlug.
    cbn [Main.sourceFeedsFrom Main.slug Main.postsBySource Main.allPosts].
    unfold Main.postsOfSlug. cbn [Main.postsBySource].
    rewrite !(lookup_insert_ne _ (js "anthropic-research") (js "cursor"))
      by slug_ne.
    rewrite !(lookup_insert_ne _ (js "anthropic-research") (js "claude"))
      by slug_ne.
    rewrite !(lookup_insert_ne _ (js "anthropic-research")
                (js "anthropic-engineering")) by slug_ne.
    rewrite !(lookup_insert_ne _ (js "anthropic-engineering") (js "cursor"))
      by slug_ne.
    rewrite !(lookup_insert_ne _ (js "anthropic-engineering") (js "claude"))
      by slug_ne.
    rewrite !(lookup_insert_ne _ (js "claude") (js "cursor")) by slug_ne.
    rewrite !lookup_insert_eq. cbn [default].
    rewrite !itemsFrom_itemsAt. cbn [Nat.add].
    destruct (sortedPosts _ _ _ _ _) as [sorted k3] eqn:Hsorted.
    rewrite itemsFrom_itemsAt. reflexivity.
  - repeat split; apply dedupeFrom_NoDup.
  - unfold cursorCrawl in Hc.
    unfold claudeCrawl, engineeringCrawl, researchCrawl.
    rewrite !Forall_app. repeat split; apply dedupeFrom_Forall.
    + pose proof (crawlFrom_collects fetchPage _ _ _ _ 1 [] [] c eq_refl Hc)
        as ->.
      apply Forall_flat_map_all. intros url.
      apply (postsOf_Forall taggedPost fetchPage parseCursorBlog).
      intros doc. apply parsers_tag.
    + apply (fetchOnce_Forall taggedPost fetchPage parseClaudeBlog).
      intros doc. apply parsers_tag.
    + apply (fetchOnce_Forall taggedPost fetchPage parseAnthropicEngineering).
      intros doc. apply parsers_tag.
    + apply (fetchOnce_Forall taggedPost fetchPage parseAnthropicResearch).
      intros doc. apply parsers_tag.
Qed.

End MainFacts.

(** X16. Whatever the fetcher, the document loader, the date parser, the
    engine's sort and the clock do, [main] builds its feeds from what the
    four crawlers return on their configured pages, each list filtered by
    [dedupeByLink]: one feed per configured source, in the configured order
    and under the configured slug, whose items are the posts of that source
    one for one; the feed at the root holds items of the Cursor posts once
    more; the aggregate holds the items of the sorted posts of all sources;
    each item resolves its date at the reading of its own call of
    [parseDate], the calls being counted through the feeds in this order
    and through the sort; and no source feed holds two posts with the same
    link. *)
Theorem main_builds_every_feed (load : jsstr -> Document)
  (DateParse : jsstr -> option Z)
  (engine : list BlogPost -> Sorter BlogPost) (clock : nat -> Z) (year : Z)
  (fetchPage : jsstr -> Completion jsstr) :
  ∃ c,
    cursorCrawl load fetchPage = Some c
    ∧ let cursor := dedupeByLink (crawled c) in
      let claude := dedupeByLink (claudeCrawl load fetchPage) in
      let engineering := dedupeByLink (engineeringCrawl load fetchPage) in
      let research := dedupeByLink (researchCrawl load fetchPage) in
      let n1 := length cursor in
      let n2 := (n1 + length claude)%nat in
      let n3 := (n2 + length engineering)%nat in
      let n4 := (n3 + length research)%nat in
      let sorted :=
        sortedPosts DateParse clock engine
                    (cursor ++ claude ++ engineering ++ research)
                    (n4 + n1) in
      Main.main load DateParse engine clock year fetchPage
      = Some (Main.mkFeeds
          [(js "cursor", itemsAt clock (Main.sourceItem DateParse) 0 cursor);
           (js "claude", itemsAt clock (Main.sourceItem DateParse) n1 claude);
           (js "anthropic-engineering",
            itemsAt clock (Main.sourceItem DateParse) n2 engineering);
           (js "anthropic-research",
            itemsAt clock (Main.sourceItem DateParse) n3 research)]
          (itemsAt clock (Main.sourceItem DateParse) n4 cursor)
          (itemsAt clock (Main.aggregatedItem DateParse) sorted.2 sorted.1))
      ∧ NoDup (link <$> cursor) ∧ NoDup (link <$> claude)
      ∧ NoDup (link <$> engineering) ∧ NoDup (link <$> research).
Proof.
  destruct (main_result load DateParse engine clock year fetchPage)
    as (c & Hc & Hm & (H1 & H2 & H3 & H4) & _).
  exists c. by repeat split.
Qed.

(** X17. For an engine that sorts as the language asks, the aggregated
    feed of [main] holds no two items with the same id and its ids are
    exactly the ids that occur in the source feeds, whatever the clock
    does; and, the clock showing one instant [now] throughout, its items
    are ordered by date, newest first. *)
Theorem aggregated_feed_ids (load : jsstr -> Document)
  (DateParse : jsstr -> option Z)
  (engine : list BlogPost -> Sorter BlogPost) (clock : nat -> Z) (year : Z)
  (fetchPage : jsstr -> Completion jsstr) :
  SortsAsSpecified engine ->
  ∃ feeds,
    Main.main load DateParse engine clock year fetchPage = Some feeds
    ∧ NoDup (Main.itemId <$> Main.aggregatedFeed feeds)
    ∧ (∀ id, id ∈ (Main.itemId <$> Main.aggregatedFeed feeds)
             <-> ∃ entry, entry ∈ Main.sourceFeeds feeds
                          ∧ id ∈ (Main.itemId <$> entry.2))
    ∧ (∀ now, (∀ i, clock i = now) ->
         Sorted (fun a b => Main.itemDate a >= Main.itemDate b)
                (Main.aggregatedFeed feeds)).
Proof.
  intros He.
  destruct (main_result load DateParse engine clock year fetchPage)
    as (c & _ & Hm & _ & _).
  cbv zeta in Hm. eexists. split; [exact Hm|].
  cbn [Main.aggregatedFeed Main.sourceFeeds].
  set (cursor := dedupeByLink (crawled c)).
  set (claude := dedupeByLink (claudeCrawl load fetchPage)).
  set (engineering := dedupeByLink (engineeringCrawl load fetchPage)).
  set (research := dedupeByLink (researchCrawl load fetchPage)).
  set (allPosts := cursor ++ claude ++ engineering ++ research).
  set (k := (_ + length cursor)%nat).
  pose proof (sortedPosts_rearranges DateParse clock engine allPosts k
                (engine_rearranges _ He)) as Hperm.
  assert (Hsrc : ∀ i (l : list BlogPost),
            Main.itemId <$> itemsAt clock (Main.sourceItem DateParse) i l
            = link <$> l) by (intros; by apply itemsAt_ids).
  split; [|split].
  - rewrite itemsAt_ids by done. rewrite Hperm. apply dedupeFrom_NoDup.
  - intros id. rewrite itemsAt_ids by done. rewrite Hperm.
    unfold dedupeByLink at 1. rewrite dedupeFrom_links. unfold allPosts.
    rewrite !fmap_app, !elem_of_app. split.
    + intros [[H|[H|[H|H]]] _];
        [exists (js "cursor",
                 itemsAt clock (Main.sourceItem DateParse) 0 cursor)
        |exists (js "claude",
                 itemsAt clock (Main.sourceItem DateParse)
                         (length cursor) claude)
        |exists (js "anthropic-engineering",
                 itemsAt clock (Main.sourceItem DateParse)
                         (length cursor + length claude) engineering)
        |exists (js "anthropic-research",
                 itemsAt clock (Main.sourceItem DateParse)
                         (length cursor + length claude
                          + length engineering) research)];
        (split; [|cbn [snd]; rewrite Hsrc; exact H]);
        rewrite !elem_of_cons; auto 6.
    + intros (entry & Hin & Hid). split; [|apply not_elem_of_empty].
      rewrite !elem_of_cons, elem_of_nil in Hin.
      destruct Hin as [->|[->|[->|[->|[]]]]]; cbn [snd] in Hid;
        rewrite Hsrc in Hid; auto.
  - intros now Hnow. rewrite (itemsAt_one_instant _ _ now) by done.
    rewrite (sortedPosts_one_instant _ _ _ now) by done.
    apply Sorted_fmap
      with (R1 := fun a b => resolvedDate DateParse now a
                             >= resolvedDate DateParse now b); [done|].
    apply (sort_Sorted (resolvedDate DateParse now)).
Qed.

(** X17 on a site whose every page reads as one document, sorted by
    insertion with the clock stopped. *)
Lemma aggregated_feed_ids_witness :
  ∃ feeds,
    Main.main stubLoad stubDateParse insertionEngine (stoppedClock 1000) 2025
              stubFetchPage = Some feeds
    ∧ NoDup (Main.itemId <$> Main.aggregatedFeed feeds)
    ∧ (∀ id, id ∈ (Main.itemId <$> Main.aggregatedFeed feeds)
             <-> ∃ entry, entry ∈ Main.sourceFeeds feeds
                          ∧ id ∈ (Main.itemId <$> entry.2))
    ∧ Sorted (fun a b => Main.itemDate a >= Main.itemDate b)
             (Main.aggregatedFeed feeds).
Proof.
  destruct (aggregated_feed_ids stubLoad stubDateParse insertionEngine
              (stoppedClock 1000) 2025 stubFetchPage insertionEngine_sorts)
    as (feeds & Hmain & Hdistinct & Hids & Hsorted).
  exists feeds. split; [exact Hmain|]. split; [exact Hdistinct|].
  split; [exact Hids|]. apply (Hsorted 1000). reflexivity.
Defined.

(** X18. For an engine whose sort hands back the elements it was given,
    every item of the aggregated feed of [main] is titled with its source
    tag in square brackets, a space and a non-empty post title, the tag
    being one of the four source names, and it has two categories, the
    second being that source tag. *)
Theorem aggregated_feed_labels (load : jsstr -> Document)
  (DateParse : jsstr -> option Z)
  (engine : list BlogPost -> Sorter BlogPost) (clock : nat -> Z) (year : Z)
  (fetchPage : jsstr -> Completion jsstr) :
  (∀ l, everyOutcome (fun out => out ≡ₚ l) (engine l)) ->
  ∃ feeds,
    Main.main load DateParse engine clock year fetchPage = Some feeds
    ∧ ∀ item, item ∈ Main.aggregatedFeed feeds ->
        ∃ tag text label,
          tag ∈ sourceNames ∧ text ≠ []
          ∧ Main.itemTitle item = js "[" ++ tag ++ js "] " ++ text
          ∧ Main.itemCategory item = [label; tag].
Proof.
  intros He.
  destruct (main_result load DateParse engine clock year fetchPage)
    as (c & _ & Hm & _ & Htag).
  cbv zeta in Hm, Htag. eexists. split; [exact Hm|].
  cbn [Main.aggregatedFeed].
  intros item (j & p & Hp & ->)%elem_of_itemsAt.
  assert (taggedPost p) as [Hs Ht].
  { rewrite Forall_forall in Htag. apply Htag.
    rewrite (sortedPosts_rearranges _ _ _ _ _ He) in Hp.
    eapply elem_of_sublist; [exact Hp|apply dedupeFrom_sublist]. }
  by exists (source p), (title p), (category p).
Qed.

(** X18 on the same site, sorted by insertion while the clock ticks. *)
Lemma aggregated_feed_labels_witness :
  ∃ feeds,
    Main.main stubLoad stubDateParse insertionEngine tickingClock 2025
              stubFetchPage = Some feeds
    ∧ ∀ item, item ∈ Main.aggregatedFeed feeds ->
        ∃ tag text label,
          tag ∈ sourceNames ∧ text ≠ []
          ∧ Main.itemTitle item = js "[" ++ tag ++ js "] " ++ text
          ∧ Main.itemCategory item = [label; tag].
Proof.
  apply (aggregated_feed_labels stubLoad stubDateParse insertionEngine
           tickingClock 2025 stubFetchPage).
  apply (engine_rearranges _ insertionEngine_sorts).
Defined.
